(** * numdifftools.nd_cstep: finite-difference derivatives with extrapolation

    A shallow embedding of [nd_cstep.py].  numpy's float64 is Rocq's
    primitive binary64 [float]; arrays are a shape and a row-major list of
    elements; a Python exception is the [Raise] case of [result]; a
    generator is the list of what it yields together with the exception,
    if any, that ends it. *)

From Stdlib Require Import String.
From Stdlib Require Import Floats ZArith List Bool Lia Sorted.
From Stdlib Require Uint63.
Import ListNotations.

Set Warnings "-inexact-float".

(** * Python exceptions *)

Inductive exn : Type :=
| ValueError (msg : string)
| IndexError
| ZeroDivisionError
| OverflowError
| AttributeError (name : string)
| TargetError (tag : nat).

Inductive result (A : Type) : Type :=
| Ok (a : A)
| Raise (e : exn).

Arguments Ok {A} a.
Arguments Raise {A} e.

Definition bind {A B : Type} (r : result A) (k : A -> result B) : result B :=
  match r with
  | Ok a => k a
  | Raise e => Raise e
  end.

Notation "x <- r ;; k" := (bind r (fun x => k))
  (at level 61, r at next level, right associativity).

Definition raises {A : Type} (r : result A) : bool :=
  match r with Ok _ => false | Raise _ => true end.

(** [mapM]: a list comprehension whose body may raise. *)
Fixpoint mapM {A B : Type} (f : A -> result B) (l : list A) : result (list B) :=
  match l with
  | [] => Ok []
  | a :: l' => b <- f a ;; bs <- mapM f l' ;; Ok (b :: bs)
  end.

(** [foldM]: a [for] loop over [l] threading the mutated state. *)
Fixpoint foldM {A S : Type} (body : S -> A -> result S) (l : list A) (s : S)
  : result S :=
  match l with
  | [] => Ok s
  | a :: l' => s' <- body s a ;; foldM body l' s'
  end.

(** * Order facts of binary64 comparisons *)

Module F64.

Local Open Scope Z_scope.

(** A non-NaN value is ranked by a triple compared lexicographically. *)
Definition key (x : spec_float) : Z * Z * Z :=
  match x with
  | S754_zero _ => (0, 0, 0)
  | S754_infinity s => (if s then -2 else 2, 0, 0)
  | S754_nan => (0, 0, 0)
  | S754_finite s m e =>
      if s then (-1, - e, - Zpos m) else (1, e, Zpos m)
  end.

Definition lex3 (a b : Z * Z * Z) : comparison :=
  let '(a1, a2, a3) := a in
  let '(b1, b2, b3) := b in
  match a1 ?= b1 with
  | Eq => match a2 ?= b2 with
          | Eq => a3 ?= b3
          | c => c
          end
  | c => c
  end.

Definition sf_nan (x : spec_float) : bool :=
  match x with S754_nan => true | _ => false end.

Lemma SFcompare_key x y :
  sf_nan x = false -> sf_nan y = false ->
  SFcompare x y = Some (lex3 (key x) (key y)).
Proof.
  destruct x as [[]|[]| |[] mx ex], y as [[]|[]| |[] my ey];
    try discriminate; intros _ _; try reflexivity.
  unfold SFcompare, key, lex3. rewrite Z.compare_refl, Z.compare_opp.
  f_equal. rewrite (Z.compare_antisym ex ey).
    destruct (ex ?= ey); reflexivity.
Qed.

Lemma SFcompare_nan_l x y : sf_nan x = true -> SFcompare x y = None.
Proof. destruct x; try discriminate. reflexivity. Qed.

Lemma SFcompare_nan_r x y : sf_nan y = true -> SFcompare x y = None.
Proof. destruct y; try discriminate. destruct x; reflexivity. Qed.

Definition lexlt (a b : Z * Z * Z) : Prop :=
  let '(a1, a2, a3) := a in
  let '(b1, b2, b3) := b in
  a1 < b1 \/ (a1 = b1 /\ (a2 < b2 \/ (a2 = b2 /\ a3 < b3))).

Lemma lex3_Lt a b : lex3 a b = Lt <-> lexlt a b.
Proof.
  destruct a as [[a1 a2] a3], b as [[b1 b2] b3]. unfold lex3, lexlt.
  destruct (Z.compare_spec a1 b1), (Z.compare_spec a2 b2),
    (Z.compare_spec a3 b3); split; intros HH; try discriminate;
    try reflexivity; lia.
Qed.

Lemma lex3_Eq a b : lex3 a b = Eq <-> a = b.
Proof.
  destruct a as [[a1 a2] a3], b as [[b1 b2] b3]. unfold lex3.
  destruct (Z.compare_spec a1 b1), (Z.compare_spec a2 b2),
    (Z.compare_spec a3 b3); split; intros HH; try discriminate;
    try reflexivity; try (inversion HH; lia); subst; reflexivity.
Qed.

Lemma lexlt_trans a b c : lexlt a b -> lexlt b c -> lexlt a c.
Proof.
  destruct a as [[a1 a2] a3], b as [[b1 b2] b3], c as [[c1 c2] c3].
  unfold lexlt. lia.
Qed.

Lemma lexlt_total a b : lexlt a b \/ a = b \/ lexlt b a.
Proof.
  destruct a as [[a1 a2] a3], b as [[b1 b2] b3]. unfold lexlt.
  destruct (Z.lt_total a1 b1) as [|[|]], (Z.lt_total a2 b2) as [|[|]],
    (Z.lt_total a3 b3) as [|[|]]; subst; auto; lia.
Qed.

Lemma lexlt_irrefl a : ~ lexlt a a.
Proof. destruct a as [[a1 a2] a3]. unfold lexlt. lia. Qed.

(** The comparisons of floats, read through [key]. *)

Definition kf (x : float) : Z * Z * Z := key (Prim2SF x).

Lemma is_nan_spec x : is_nan x = sf_nan (Prim2SF x).
Proof.
  unfold is_nan. rewrite FloatAxioms.eqb_spec. unfold SFeqb.
  destruct (sf_nan (Prim2SF x)) eqn:E.
  - now rewrite SFcompare_nan_l.
  - rewrite SFcompare_key by assumption.
    now rewrite (proj2 (lex3_Eq _ _) eq_refl).
Qed.

Lemma ltb_nan_l x y : is_nan x = true -> (x <? y)%float = false.
Proof.
  rewrite is_nan_spec, FloatAxioms.ltb_spec. intros H. unfold SFltb.
  now rewrite SFcompare_nan_l.
Qed.

Lemma ltb_nan_r x y : is_nan y = true -> (x <? y)%float = false.
Proof.
  rewrite is_nan_spec, FloatAxioms.ltb_spec. intros H. unfold SFltb.
  now rewrite SFcompare_nan_r.
Qed.

Lemma eqb_nan_l x y : is_nan x = true -> (x =? y)%float = false.
Proof.
  rewrite is_nan_spec, FloatAxioms.eqb_spec. intros H. unfold SFeqb.
  now rewrite SFcompare_nan_l.
Qed.

Lemma eqb_nan_r x y : is_nan y = true -> (x =? y)%float = false.
Proof.
  rewrite is_nan_spec, FloatAxioms.eqb_spec. intros H. unfold SFeqb.
  now rewrite SFcompare_nan_r.
Qed.

Lemma ltb_true_iff x y :
  is_nan x = false -> is_nan y = false ->
  ((x <? y)%float = true <-> lexlt (kf x) (kf y)).
Proof.
  rewrite !is_nan_spec, FloatAxioms.ltb_spec. intros Hx Hy. unfold SFltb, kf.
  rewrite SFcompare_key by assumption. rewrite <- lex3_Lt.
  destruct (lex3 _ _); split; congruence.
Qed.

Lemma eqb_true_iff x y :
  is_nan x = false -> is_nan y = false ->
  ((x =? y)%float = true <-> kf x = kf y).
Proof.
  rewrite !is_nan_spec, FloatAxioms.eqb_spec. intros Hx Hy. unfold SFeqb, kf.
  rewrite SFcompare_key by assumption. rewrite <- lex3_Eq.
  destruct (lex3 _ _); split; congruence.
Qed.

Lemma eqb_true_not_nan x y :
  (x =? y)%float = true -> is_nan x = false /\ is_nan y = false.
Proof.
  intros H. split.
  - destruct (is_nan x) eqn:E; auto. now rewrite eqb_nan_l in H.
  - destruct (is_nan y) eqn:E; auto. now rewrite eqb_nan_r in H.
Qed.

Lemma ltb_true_not_nan x y :
  (x <? y)%float = true -> is_nan x = false /\ is_nan y = false.
Proof.
  intros H. split.
  - destruct (is_nan x) eqn:E; auto. now rewrite ltb_nan_l in H.
  - destruct (is_nan y) eqn:E; auto. now rewrite ltb_nan_r in H.
Qed.

Lemma is_nan_infinity : is_nan infinity = false.
Proof. reflexivity. Qed.

Lemma kf_le_infinity x :
  is_nan x = false -> lexlt (kf x) (kf infinity) \/ kf x = kf infinity.
Proof.
  rewrite is_nan_spec. unfold kf.
  replace (Prim2SF infinity) with (S754_infinity false) by reflexivity.
  destruct (Prim2SF x) as [s|[]| |[] m e]; try discriminate; intros _;
    unfold key, lexlt; try destruct s; auto; left; lia.
Qed.

(** ** Exact products and sums

    [1 * x] is [x], and [0.5 * (x + x)] is [x] unless [x + x] overflows. *)

Lemma valid_finite (s : bool) (m : positive) (e : Z) :
  valid_binary (S754_finite s m e) = true ->
  fexp prec emax (Z.pos (digits2_pos m) + e) = e /\ e <= emax - prec.
Proof.
  unfold valid_binary, bounded, canonical_mantissa. intros Hv.
  apply andb_prop in Hv. destruct Hv as [Hc He].
  apply Z.eqb_eq in Hc. apply Z.leb_le in He. auto.
Qed.

(** Rounding a mantissa that is already canonical changes nothing. *)
Lemma round_canonical (s : bool) (m : positive) (e : Z) :
  fexp prec emax (Z.pos (digits2_pos m) + e) = e -> e <= emax - prec ->
  (let '(mrs, e') := shr_fexp prec emax (Z.pos m) e loc_Exact in
   match shr_m mrs with
   | 0 => S754_zero s
   | Z.pos m0 =>
       if e' <=? emax - prec then S754_finite s m0 e' else S754_infinity s
   | Z.neg _ => S754_nan
   end) = S754_finite s m e.
Proof.
  intros Hc He. unfold shr_fexp. cbn [Zdigits2]. rewrite Hc, Z.sub_diag.
  cbn [shr shr_record_of_loc shr_m]. apply Z.leb_le in He. now rewrite He.
Qed.

Lemma is_infinity_spec (x : float) :
  is_infinity x = match Prim2SF x with S754_infinity _ => true | _ => false end.
Proof.
  unfold is_infinity. rewrite FloatAxioms.eqb_spec, abs_spec.
  change (Prim2SF infinity) with (S754_infinity false).
  destruct (Prim2SF x) as [s|s| |s m e]; try reflexivity.
Qed.

Lemma digits2_pos_xO (m : positive) :
  Z.pos (digits2_pos m~0) = Z.pos (digits2_pos m) + 1.
Proof. cbn. lia. Qed.

Lemma fexp_eq (z : Z) : fexp prec emax z = Z.max (z - 53) (-1074).
Proof. reflexivity. Qed.

Lemma SFadd_self (s : bool) (m : positive) (e : Z) :
  valid_binary (S754_finite s m e) = true ->
  SF64add (S754_finite s m e) (S754_finite s m e)
  = if Z.pos (digits2_pos m) + e - 53 <? -1074 then S754_finite s m~0 e
    else if e + 1 <=? 971 then S754_finite s m (e + 1)
         else S754_infinity s.
Proof.
  intros Hv. destruct (valid_finite s m e Hv) as [Hc He].
  change (emax - prec) with 971 in He.
  unfold SF64add, SFadd. rewrite Z.min_id.
  unfold shl_align at 1 2. rewrite Z.sub_diag. cbn [fst].
  assert (Hsum : cond_Zopp s (Z.pos m) + cond_Zopp s (Z.pos m)
                 = cond_Zopp s (Z.pos m~0)).
  { destruct s; cbn [cond_Zopp]; lia. }
  rewrite Hsum.
  assert (Hnorm : binary_normalize prec emax (cond_Zopp s (Z.pos m~0)) e false
                  = binary_round prec emax s m~0 e).
  { destruct s; reflexivity. }
  rewrite Hnorm. unfold binary_round.
  rewrite digits2_pos_xO.
  pose proof Hc as Hc'. rewrite fexp_eq in Hc'.
  destruct (Z.ltb_spec (Z.pos (digits2_pos m) + e - 53) (-1074)) as [Hlt|Hge].
  - assert (Hf : fexp prec emax (Z.pos (digits2_pos m) + 1 + e) = e).
    { rewrite fexp_eq. lia. }
    rewrite Hf. unfold shl_align. rewrite Z.sub_diag.
    unfold binary_round_aux, shr_fexp. cbn [Zdigits2].
    rewrite digits2_pos_xO, Hf, Z.sub_diag.
    cbn [shr shr_record_of_loc shr_m loc_of_shr_record round_nearest_even
           Zdigits2].
    rewrite digits2_pos_xO, Hf, Z.sub_diag. cbn [shr shr_m].
    change (emax - prec) with 971.
    apply Z.leb_le in He. now rewrite He.
  - assert (Hf : fexp prec emax (Z.pos (digits2_pos m) + 1 + e) = e + 1).
    { rewrite fexp_eq. lia. }
    rewrite Hf. unfold shl_align.
    replace (e + 1 - e) with 1 by lia. cbn iota.
    unfold binary_round_aux, shr_fexp at 1. cbn [Zdigits2].
    rewrite digits2_pos_xO, Hf. replace (e + 1 - e) with 1 by lia.
    cbn [shr shr_record_of_loc SpecFloat.iter_pos shr_1 orb shr_m
           loc_of_shr_record round_nearest_even].
    unfold shr_fexp. cbn [Zdigits2].
    replace (fexp prec emax (Z.pos (digits2_pos m) + (e + 1)) - (e + 1))
      with 0 by (rewrite fexp_eq; lia).
    cbn [shr shr_record_of_loc shr_m]. reflexivity.
Qed.

(** Multiplying a canonical mantissa scaled by [2^52] by [2^-52]. *)
Lemma round_shift52 (s : bool) (m : positive) (e : Z) :
  fexp prec emax (Z.pos (digits2_pos m) + e) = e -> e <= emax - prec ->
  binary_round_aux prec emax s (Z.pos (4503599627370496 * m)) (e - 52)
    loc_Exact
  = S754_finite s m e.
Proof.
  intros Hc He. unfold binary_round_aux.
  assert (Hd : Zdigits2 (Z.pos (4503599627370496 * m))
               = Zpos (digits2_pos m) + 52) by (cbn; lia).
  unfold shr_fexp at 1. rewrite Hd.
  replace (fexp prec emax (Z.pos (digits2_pos m) + 52 + (e - 52)) - (e - 52))
    with 52.
  2:{ replace (Z.pos (digits2_pos m) + 52 + (e - 52))
        with (Z.pos (digits2_pos m) + e) by lia.
      rewrite Hc. lia. }
  cbn [shr shr_record_of_loc].
  change (SpecFloat.iter_pos shr_1 52
            {| shr_m := Z.pos (4503599627370496 * m);
               shr_r := false; shr_s := false |})
    with {| shr_m := Z.pos m; shr_r := false; shr_s := false |}.
  cbn [shr_m loc_of_shr_record round_nearest_even].
  replace (e - 52 + 52) with e by lia.
  apply round_canonical; assumption.
Qed.

Lemma round_shift53 (s : bool) (m : positive) (e : Z) :
  fexp prec emax (Z.pos (digits2_pos m) + e) = e -> e <= emax - prec ->
  binary_round_aux prec emax s (Z.pos (4503599627370496 * m~0)) (e - 53)
    loc_Exact
  = S754_finite s m e.
Proof.
  intros Hc He. unfold binary_round_aux.
  assert (Hd : Zdigits2 (Z.pos (4503599627370496 * m~0))
               = Zpos (digits2_pos m) + 53) by (cbn; lia).
  unfold shr_fexp at 1. rewrite Hd.
  replace (fexp prec emax (Z.pos (digits2_pos m) + 53 + (e - 53)) - (e - 53))
    with 53.
  2:{ replace (Z.pos (digits2_pos m) + 53 + (e - 53))
        with (Z.pos (digits2_pos m) + e) by lia.
      rewrite Hc. lia. }
  cbn [shr shr_record_of_loc].
  change (SpecFloat.iter_pos shr_1 53
            {| shr_m := Z.pos (4503599627370496 * m~0);
               shr_r := false; shr_s := false |})
    with {| shr_m := Z.pos m; shr_r := false; shr_s := false |}.
  cbn [shr_m loc_of_shr_record round_nearest_even].
  replace (e - 53 + 53) with e by lia.
  apply round_canonical; assumption.
Qed.

Lemma half_double (x : float) :
  is_infinity (x + x)%float = is_infinity x -> (0.5 * (x + x))%float = x.
Proof.
  rewrite !is_infinity_spec. intros Hinf.
  apply Prim2SF_inj. rewrite mul_spec. revert Hinf. rewrite add_spec.
  pose proof (Prim2SF_valid x) as Hv.
  change (Prim2SF 0.5) with (S754_finite false 4503599627370496 (-53)).
  destruct (Prim2SF x) as [s|s| |s m e].
  - destruct s; reflexivity.
  - destruct s; reflexivity.
  - reflexivity.
  - rewrite (SFadd_self s m e Hv).
    destruct (valid_finite s m e Hv) as [Hc He].
    destruct (Z.pos (digits2_pos m) + e - 53 <? -1074).
    + intros _. unfold SF64mul, SFmul. cbn [xorb].
      replace (-53 + e) with (e - 53) by lia.
      now apply round_shift53.
    + destruct (e + 1 <=? 971); [|discriminate].
      intros _. unfold SF64mul, SFmul. cbn [xorb].
      replace (-53 + (e + 1)) with (e - 52) by lia.
      now apply round_shift52.
Qed.

Lemma mul_1_l (x : float) : (1 * x)%float = x.
Proof.
  apply Prim2SF_inj. rewrite mul_spec.
  pose proof (Prim2SF_valid x) as Hv.
  change (Prim2SF 1) with (S754_finite false 4503599627370496 (-52)).
  destruct (Prim2SF x) as [s|s| |s m e]; try reflexivity.
  destruct (valid_finite s m e Hv) as [Hc He].
  unfold SF64mul, SFmul. cbn [xorb].
  replace (-52 + e) with (e - 52) by lia. now apply round_shift52.
Qed.

End F64.

(** * Arrays

    An [ndarray] is numpy's float64 array: its shape and its elements in
    row-major (C) order, which is also the order of [ravel] and [flat].
    A two-dimensional array that is only read by rows is a [matrix]. *)

Record ndarray : Type := mk_ndarray { shape : list nat; data : list float }.

Definition matrix : Type := list (list float).

Definition size_of (s : list nat) : nat := fold_right Nat.mul 1 s.

Definition wf_ndarray (a : ndarray) : Prop :=
  length (data a) = size_of (shape a).

Fixpoint shape_eqb (s t : list nat) : bool :=
  match s, t with
  | [], [] => true
  | m :: s', n :: t' => Nat.eqb m n && shape_eqb s' t'
  | _, _ => false
  end.

Definition nd_map (f : float -> float) (a : ndarray) : ndarray :=
  mk_ndarray (shape a) (map f (data a)).

Fixpoint zip_with (f : float -> float -> float) (u v : list float)
  : list float :=
  match u, v with
  | x :: u', y :: v' => f x y :: zip_with f u' v'
  | _, _ => []
  end.

(** An element-wise binary operation on two arrays of one shape; the
    operands of this module always have equal shapes, and an operation on
    shapes that differ raises numpy's [ValueError]. *)
Definition nd_map2 (f : float -> float -> float) (a b : ndarray)
  : result ndarray :=
  if shape_eqb (shape a) (shape b)
  then Ok (mk_ndarray (shape a) (zip_with f (data a) (data b)))
  else Raise (ValueError "operands could not be broadcast together").

(** [np.empty_like(a)] followed by [fill(v)]. *)
Definition full_like (a : ndarray) (v : float) : ndarray :=
  nd_map (fun _ => v) a.

(** [a.reshape(s)] of a one-dimensional [a]. *)
Definition reshape (l : list float) (s : list nat) : result ndarray :=
  if Nat.eqb (length l) (size_of s) then Ok (mk_ndarray s l)
  else Raise (ValueError "total size of new array must be unchanged").

(** [m.flat[ix]]: fancy indexing of the flattened rows. *)
Definition take_flat (m : matrix) (ix : list nat) : result (list float) :=
  mapM (fun k => match nth_error (concat m) k with
                 | Some v => Ok v
                 | None => Raise IndexError
                 end) ix.

(** [np.vstack] of one-dimensional rows. *)
Definition vstack (rows : list (list float)) : result matrix :=
  match rows with
  | [] => Raise (ValueError "need at least one array to concatenate")
  | r :: rows' =>
      if forallb (fun r' => Nat.eqb (length r') (length r)) rows'
      then Ok rows
      else Raise (ValueError "all the input array dimensions must match")
  end.

Definition ncols (m : matrix) : nat := length (hd [] m).

Definition column (m : matrix) (i : nat) : list float :=
  map (fun row => nth i row nan) m.

(** [np.minimum] on two values that are not NaN, as [np.amin] folds it. *)
Definition fmin (x y : float) : float := if (x <? y)%float then x else y.

(** [np.nanmin] of one column: NaN is replaced by [+inf] and the minimum
    taken; an all-NaN column gives NaN. *)
Definition nanmin (col : list float) : float :=
  if forallb is_nan col then nan
  else
    let col' := map (fun e => if is_nan e then infinity else e) col in
    fold_left fmin (tl col') (hd infinity col').

(** [np.flatnonzero] of a boolean mask, counting from [k]. *)
Fixpoint flatnonzero_from (k : nat) (mask : list bool) : list nat :=
  match mask with
  | [] => []
  | b :: mask' =>
      if b then k :: flatnonzero_from (S k) mask'
      else flatnonzero_from (S k) mask'
  end.

Definition flatnonzero (mask : list bool) : list nat :=
  flatnonzero_from 0 mask.


(** [l[i] = v] on a list; the loops of this module only write inside the
    bounds, where numpy does not raise. *)
Fixpoint list_set {A : Type} (l : list A) (i : nat) (v : A) : list A :=
  match l, i with
  | [], _ => []
  | _ :: l', O => v :: l'
  | a :: l', S i' => a :: list_set l' i' v
  end.

Definition row (m : matrix) (i : nat) : list float := nth i m [].

Definition mat_get (m : matrix) (i j : nat) : float := nth j (row m i) nan.

Definition mat_set (m : matrix) (i j : nat) (v : float) : matrix :=
  list_set m i (list_set (row m i) j v).

(** The multi-index of flat position [k] in an array of shape [s], and the
    flat position of a multi-index (row-major order). *)
Fixpoint unravel (s : list nat) (k : nat) : list nat :=
  match s with
  | [] => []
  | _ :: s' => k / size_of s' :: unravel s' (k mod size_of s')
  end.

Fixpoint ravel (s : list nat) (idx : list nat) : nat :=
  match s, idx with
  | _ :: s', i :: idx' => i * size_of s' + ravel s' idx'
  | _, _ => 0
  end.

(** [a.T]: the axes reversed. *)
Definition transpose (a : ndarray) : ndarray :=
  let s' := rev (shape a) in
  mk_ndarray s'
    (map (fun k => nth (ravel (shape a) (rev (unravel s' k))) (data a) nan)
       (seq 0 (size_of s'))).

(** [np.array(parts)] for a list of arrays of one shape: a new first axis. *)
Definition np_array (parts : list ndarray) : result ndarray :=
  match parts with
  | [] => Ok (mk_ndarray [0] [])
  | p :: parts' =>
      if forallb (fun q => shape_eqb (shape q) (shape p)) parts'
      then Ok (mk_ndarray (length parts :: shape p) (concat (map data parts)))
      else Raise (ValueError "setting an array element with a sequence.")
  end.

(** [l[i]] for an index inside or outside of the bounds. *)
Definition getitem (l : list float) (i : nat) : result float :=
  match nth_error l i with
  | Some v => Ok v
  | None => Raise IndexError
  end.

(** * Scalars of the Python runtime and of the C library *)

Local Open Scope float_scope.

(** [np.MachAr().eps]: the machine epsilon of double precision, [2^-52]. *)
Definition EPS : float := 0x1p-52.

(** The double nearest to the literal [0.1]. *)
Definition one_tenth : float := 0x1.999999999999ap-4.

(** A Python [int] as a [float]; exact below [2^53], which covers every
    integer of this module (loop counters, orders, table entries). *)
Definition float_of_Z (z : Z) : float :=
  match z with
  | Z0 => 0
  | Zpos _ => of_uint63 (Uint63.of_Z z)
  | Zneg p => - of_uint63 (Uint63.of_Z (Zpos p))
  end.

Definition float_of_nat (k : nat) : float := float_of_Z (Z.of_nat k).

(** The transcendental functions come from the C library and from the
    Python runtime; the model is parametric in them.
    - [py_pow v w] is Python's [v ** w] on Python floats ([EPS] and
      [step_ratio] are Python floats; an [int] exponent is converted
      first): it raises [OverflowError] when the power overflows and
      [ZeroDivisionError] for [0.0] to a negative power;
    - [np_power] is numpy's [**] on float64 (no exception);
    - [np_log1p], [np_log10] are numpy's [log1p] and [log10]. *)
Class Libm : Type := {
  py_pow : float -> float -> result float;
  np_power : float -> float -> float;
  np_log1p : float -> float;
  np_log10 : float -> float
}.

(** [np.maximum]: the first operand when it is the larger or NaN. *)
Definition np_maximum (a b : float) : float :=
  if (b <=? a) || is_nan a then a else b.

Definition all_positive_abs (h : ndarray) : bool :=
  forallb (fun v => 0 <? abs v) (data h).

Definition np_ones (s : list nat) : ndarray :=
  mk_ndarray s (repeat 1 (size_of s)).

(** [a * c] for an array [a] and a scalar [c]. *)
Definition nd_scale (a : ndarray) (c : float) : ndarray :=
  nd_map (fun v => v * c) a.

(** * Exact-step normalizer and base-step policy *)

Definition _make_exact_scalar (h : float) : float := (h + 1) - 1.

Definition _make_exact (h : ndarray) : ndarray := nd_map _make_exact_scalar h.

(** The [epsilon] argument: [None], a scalar ([np.isscalar]) or an array. *)
Inductive step_spec : Type :=
| StepNone
| StepScalar (e : float)
| StepArray (a : ndarray).

Definition shape_error : string :=
  "If h is not a scalar it must have the same shape as x.".

Definition _default_base_step `{Libm} (x : ndarray) (scale : float)
  (epsilon : step_spec) : result ndarray :=
  match epsilon with
  | StepNone =>
      (* [1. / scale] is a division of Python floats *)
      if scale =? 0 then Raise ZeroDivisionError
      else
        c <- py_pow (10 * EPS) (1 / scale) ;;
        Ok (nd_map (fun v => c * np_maximum (np_log1p (abs v)) one_tenth) x)
  | StepScalar e => Ok (nd_scale (np_ones (shape x)) e)
  | StepArray h =>
      if shape_eqb (shape h) (shape x) then Ok h
      else Raise (ValueError shape_error)
  end.

(** * Step sequence generators *)

(** What a generator produces when it is run to its end: the values it
    yields, in order, and the exception that ends it, if any. *)
Record generated (A : Type) : Type :=
  mk_generated { yielded : list A; raised : option exn }.

Arguments mk_generated {A} yielded raised.
Arguments yielded {A} g.
Arguments raised {A} g.

(** The loop shared by both generators:
    [for ...: h = ...; if (np.abs(h) > 0).all(): yield h]. *)
Fixpoint yield_nonzero (candidates : list (result ndarray))
  : generated ndarray :=
  match candidates with
  | [] => mk_generated [] None
  | Raise e :: _ => mk_generated [] (Some e)
  | Ok h :: rest =>
      let g := yield_nonzero rest in
      if all_positive_abs h then mk_generated (h :: yielded g) (raised g)
      else g
  end.

(** A generator whose body raises before its first [yield]. *)
Definition generate (r : result (generated ndarray)) : generated ndarray :=
  match r with
  | Ok g => g
  | Raise e => mk_generated [] (Some e)
  end.

(** [range(n, -1, -1)]. *)
Definition range_down (n : Z) : list Z :=
  map (fun k => (n - Z.of_nat k)%Z) (seq 0 (Z.to_nat (n + 1))).

Record StepsGenerator : Type := mk_StepsGenerator {
  base_step : step_spec;
  num_steps : Z;
  step_ratio : float;
  offset : Z;
  use_exact_steps : bool
}.

(** [StepsGenerator()] with the defaults of [__init__]. *)
Definition StepsGenerator_default : StepsGenerator :=
  mk_StepsGenerator StepNone 10 4 (-1) true.

Section Generators.

Context `{Libm}.

Definition StepsGenerator_default_base_step (self : StepsGenerator)
  (xi : ndarray) (scale : float) : result ndarray :=
  delta <- _default_base_step xi scale (base_step self) ;;
  if use_exact_steps self then Ok (_make_exact delta) else Ok delta.

(** The candidate steps of the geometric generator, largest exponent
    first: [delta * step_ratio**(i + offset)]. *)
Definition StepsGenerator_candidates (self : StepsGenerator)
  (delta : ndarray) : list (result ndarray) :=
  map (fun i => p <- py_pow (step_ratio self)
                         (float_of_Z (Z.add i (offset self))) ;;
                Ok (nd_scale delta p))
    (range_down (num_steps self)).

Definition StepsGenerator_call (self : StepsGenerator) (x : ndarray)
  (scale : float) : generated ndarray :=
  generate (delta <- StepsGenerator_default_base_step self x scale ;;
            Ok (yield_nonzero (StepsGenerator_candidates self delta))).

(** [np.linspace(start, stop, num)] and [np.logspace(start, stop, num)]. *)
Definition linspace (start stop : float) (num : nat) : list float :=
  match num with
  | 0%nat => []
  | 1%nat => [start]
  | _ =>
      let step := (stop - start) / float_of_nat (num - 1) in
      map (fun k => if Nat.eqb k (num - 1) then stop
                    else float_of_nat k * step + start)
        (seq 0 num)
  end.

Definition logspace (start stop : float) (num : nat) : list float :=
  map (np_power 10) (linspace start stop num).

(** [step_min] is [None] or a scalar here: what numpy's [logspace] does
    with an array bound is outside the model. *)
Record StepsGenerator2 : Type := mk_StepsGenerator2 {
  step_min : option float;
  num_steps2 : Z;
  step_max : option float
}.

Definition step_spec_of (s : option float) : step_spec :=
  match s with
  | None => StepNone
  | Some e => StepScalar e
  end.

(** [(10 * EPS)**(1. / scale)] and [(10 * EPS)**(1. / (scale + 1.5))]. *)
Definition default_step_min (scale : float) : result float :=
  if scale =? 0 then Raise ZeroDivisionError
  else py_pow (10 * EPS) (1 / scale).

Definition default_step_max (scale : float) : result float :=
  if scale + 1.5 =? 0 then Raise ZeroDivisionError
  else py_pow (10 * EPS) (1 / (scale + 1.5)).

(** The multipliers [np.logspace(0, -log10(step_min) + log10(step_max),
    num_steps)[::-1]]. *)
Definition StepsGenerator2_multipliers (self : StepsGenerator2)
  (scale : float) : result (list float) :=
  smin <- match step_min self with
          | None => default_step_min scale
          | Some e => Ok e
          end ;;
  smax <- match step_max self with
          | None => default_step_max scale
          | Some e => Ok e
          end ;;
  if (num_steps2 self <? 0)%Z
  then Raise (ValueError "Number of samples must be non-negative.")
  else
    Ok (rev (logspace 0 (- np_log10 smin + np_log10 smax)
               (Z.to_nat (num_steps2 self)))).

Definition StepsGenerator2_call (self : StepsGenerator2) (x : ndarray)
  (scale : float) : generated ndarray :=
  generate (delta <- _default_base_step x scale
                       (step_spec_of (step_min self)) ;;
            steps <- StepsGenerator2_multipliers self scale ;;
            Ok (yield_nonzero
                  (map (fun step => Ok (_make_exact (nd_scale delta step)))
                     steps))).

End Generators.

(** * Complex float64 and complex arrays (for the complex-step stencils) *)

Definition complex : Type := (float * float)%type.

Definition c_of_real (v : float) : complex := (v, 0).
Definition c_add (a b : complex) : complex := (fst a + fst b, snd a + snd b).
Definition c_sub (a b : complex) : complex := (fst a - fst b, snd a - snd b).
Definition c_mul (a b : complex) : complex :=
  (fst a * fst b - snd a * snd b, fst a * snd b + snd a * fst b).

(** The imaginary unit [1j]. *)
Definition c_j : complex := (0, 1).

Record cndarray : Type := mk_cndarray { cshape : list nat; cdata : list complex }.

Fixpoint czip_with (f : complex -> complex -> complex) (u v : list complex)
  : list complex :=
  match u, v with
  | x :: u', y :: v' => f x y :: czip_with f u' v'
  | _, _ => []
  end.

Definition cnd_of_real (a : ndarray) : cndarray :=
  mk_cndarray (shape a) (map c_of_real (data a)).

Definition cnd_map2 (f : complex -> complex -> complex) (a b : cndarray)
  : result cndarray :=
  if shape_eqb (cshape a) (cshape b)
  then Ok (mk_cndarray (cshape a) (czip_with f (cdata a) (cdata b)))
  else Raise (ValueError "operands could not be broadcast together").

(** [a.imag]. *)
Definition cnd_imag (a : cndarray) : ndarray :=
  mk_ndarray (cshape a) (map snd (cdata a)).

(** * Target functions

    The function to differentiate is Python code: it is called on real
    arrays by the difference stencils and on complex arrays by the
    complex-step stencils, and either call may raise. *)

Record target : Type := mk_target {
  on_real : ndarray -> result ndarray;
  on_complex : cndarray -> result cndarray
}.

(** * The [_Derivative] scaffolding *)

Inductive steps_t : Type :=
| StepsValue (s : step_spec)
| StepsCallable (g : ndarray -> float -> generated ndarray).

(** A list comprehension over a generator: the body runs on each yielded
    value before the generator is resumed. *)
Definition consume {A B : Type} (g : generated A) (body : A -> result B)
  : result (list B) :=
  rs <- mapM body (yielded g) ;;
  match raised g with
  | Some e => Raise e
  | None => Ok rs
  end.

(** One stencil: [derivative(f, xi, h)]. *)
Definition stencil : Type := target -> ndarray -> ndarray -> result ndarray.

(** What a subclass contributes: its stencils by method name (the
    attributes [_central], [_forward], ...) and its [default_scale]. *)
Record klass : Type := mk_klass {
  stencil_of : string -> option stencil;
  default_scale_of : string -> Z -> Z
}.

Inductive index_t : Type :=
| ScalarIndex (i : nat)
| ArrayIndex (ix : list nat).

(** The namedtuple [info]. *)
Record info : Type := mk_info { error_estimate : ndarray; index : index_t }.

(** The rows tied for the minimum of column [i], in increasing order:
    [np.flatnonzero(errors[:, i] == min_error)]. *)
Definition tied_rows (errors : matrix) (i : nat) : list nat :=
  let col := column errors i in
  flatnonzero (map (fun e => e =? nanmin col) col).

(** [np.nanargmin(errors, axis=0)] raises on an empty axis and on an
    all-NaN column; its values are all overwritten by the loop. *)
Definition nanargmin_raises (errors : matrix) : result unit :=
  match errors with
  | [] => Raise (ValueError "attempt to get argmin of an empty sequence")
  | _ =>
      if existsb (fun i => forallb is_nan (column errors i))
           (seq 0 (ncols errors))
      then Raise (ValueError "All-NaN slice encountered")
      else Ok tt
  end.

Module _Derivative.

Record t : Type := mk {
  n : Z;
  f : target;
  _scale : option float;
  steps : ndarray -> float -> generated ndarray;
  method : string;
  full_output : bool
}.

(** [dict(complex=1, central=3).get(method, 2) + (n - 1)] *)
Definition default_scale (method : string) (n : Z) : Z :=
  ((if String.eqb method "complex" then 1
    else if String.eqb method "central" then 3 else 2) + (n - 1))%Z.

(** The [scale] property. *)
Definition scale (K : klass) (self : t) : float :=
  match _scale self with
  | None => float_of_Z (default_scale_of K (method self) (n self))
  | Some s => s
  end.

Definition _get_arg_min (errors : matrix) : result (list nat) :=
  _ <- nanargmin_raises errors ;;
  arg_mins <- mapM (fun i =>
                let idx := tied_rows errors i in
                match nth_error idx (length idx / 2) with
                | Some r => Ok r
                | None => Raise IndexError
                end) (seq 0 (ncols errors)) ;;
  (* np.ravel_multi_index((arg_mins, np.arange(shape[1])), shape) *)
  Ok (map (fun ri => (fst ri * ncols errors + snd ri)%nat)
        (combine arg_mins (seq 0 (ncols errors)))).

Section WithLibm.

Context `{Libm}.

Definition _make_callable (steps : steps_t)
  : ndarray -> float -> generated ndarray :=
  match steps with
  | StepsCallable g => g
  | StepsValue s =>
      fun xi scale =>
        generate (h <- _default_base_step xi scale s ;;
                  Ok (mk_generated [h] None))
  end.

Definition __init__ (f : target) (steps : steps_t) (method : string)
  (full_output : bool) (scale : option float) : t :=
  mk 1 f scale (_make_callable steps) method full_output.

End WithLibm.

Section Extrapolation.

(** [dea3] is imported from the [numdifftools] package and is not part of
    this module: it is a parameter.  [dea3 symmetric v0 v1 v2] takes three
    stacks of rows and returns a stack of refined estimates and a stack of
    error estimates. *)
Variable dea3 : bool -> matrix -> matrix -> matrix -> matrix * matrix.

(** The one or two acceleration passes over the stacked estimates. *)
Definition extrapolation_stages (res : matrix) : matrix * matrix :=
  let n := length res in
  let '(der, errors) :=
    dea3 true (firstn (n - 2) res) (firstn (n - 2) (skipn 1 res))
      (skipn 2 res) in
  if Nat.ltb 2 (length der)
  then
    let k := length der in
    dea3 false (firstn (k - 2) der) (firstn (k - 2) (skipn 1 der))
      (skipn 2 der)
  else (der, errors).

Definition _extrapolate (sequence : list ndarray) : result (ndarray * info) :=
  if Nat.ltb (length sequence) 3 then
    match sequence with
    | [] => Raise IndexError
    | first :: _ =>
        let err := full_like first nan in
        s <- nd_map2 PrimFloat.add first (last sequence first) ;;
        Ok (nd_map (PrimFloat.mul 0.5) s, mk_info err (ScalarIndex 0))
    end
  else
    let original_shape := shape (hd (mk_ndarray [] []) sequence) in
    res <- vstack (map data sequence) ;;
    let '(der, errors) := extrapolation_stages res in
    ix <- _get_arg_min errors ;;
    err_flat <- take_flat errors ix ;;
    err <- reshape err_flat original_shape ;;
    der_flat <- take_flat der ix ;;
    d <- reshape der_flat original_shape ;;
    Ok (d, mk_info err (ArrayIndex ix)).

(** [getattr(self, '_' + self.method)] through the class [K], then the
    stencil on every generated step, then the extrapolation. *)
Definition __call__ (K : klass) (self : t) (x : ndarray)
  : result (ndarray * option info) :=
  match stencil_of K (method self) with
  | None => Raise (AttributeError ("_" ++ method self))
  | Some derivative =>
      results <- consume (steps self x (scale K self))
                   (derivative (f self) x) ;;
      r <- _extrapolate results ;;
      Ok (fst r, if full_output self then Some (snd r) else None)
  end.

End Extrapolation.

End _Derivative.

(** * Stencils

    The evaluation point [x] and the step [h] of a stencil have one shape:
    every step source of the module yields steps of the shape of [x]
    ([_default_base_step] checks it).  numpy's broadcasting of operands of
    different shapes is outside the model, which raises there. *)

Definition nd_div_scalar (a : ndarray) (c : float) : ndarray :=
  nd_map (fun v => v / c) a.

Definition vec (v : list float) : ndarray := mk_ndarray [length v] v.

Definition cvec (v : list complex) : cndarray := mk_cndarray [length v] v.

(** [x] and [h] as vectors of one length ([len(x)] and [np.diag(h)],
    [np.identity(n) * h] need one-dimensional operands). *)
Definition is_vector (a : ndarray) : bool :=
  shape_eqb (shape a) [length (data a)].

Definition vectors (x h : ndarray) : result (list float * list float) :=
  if is_vector x && is_vector h && Nat.eqb (length (data x)) (length (data h))
  then Ok (data x, data h)
  else Raise (ValueError "operands could not be broadcast together").

Definition vadd (u v : list float) : list float := zip_with PrimFloat.add u v.
Definition vsub (u v : list float) : list float := zip_with PrimFloat.sub u v.

(** [x + 1j * u] for real vectors [x] and [u]. *)
Definition v_plus_j (x u : list float) : list complex :=
  czip_with c_add (map c_of_real x)
    (map (fun e => c_mul c_j (c_of_real e)) u).

Definition cvadd_real (z : list complex) (u : list float) : list complex :=
  czip_with c_add z (map c_of_real u).

Definition cvsub_real (z : list complex) (u : list float) : list complex :=
  czip_with c_sub z (map c_of_real u).

Module Derivative.

Definition _central : stencil := fun f x h =>
  let h2 := nd_scale h 2 in
  xp <- nd_map2 PrimFloat.add x h ;;
  fp <- on_real f xp ;;
  xm <- nd_map2 PrimFloat.sub x h ;;
  fm <- on_real f xm ;;
  d <- nd_map2 PrimFloat.sub fp fm ;;
  nd_map2 PrimFloat.div d h2.

Definition _forward : stencil := fun f x h =>
  xp <- nd_map2 PrimFloat.add x h ;;
  fp <- on_real f xp ;;
  f0 <- on_real f x ;;
  d <- nd_map2 PrimFloat.sub fp f0 ;;
  nd_map2 PrimFloat.div d h.

Definition _backward : stencil := fun f x h =>
  f0 <- on_real f x ;;
  xm <- nd_map2 PrimFloat.sub x h ;;
  fm <- on_real f xm ;;
  d <- nd_map2 PrimFloat.sub f0 fm ;;
  nd_map2 PrimFloat.div d h.

Definition _complex : stencil := fun f x h =>
  z <- cnd_map2 c_add (cnd_of_real x)
         (mk_cndarray (shape h)
            (map (fun e => c_mul c_j (c_of_real e)) (data h))) ;;
  fz <- on_complex f z ;;
  nd_map2 PrimFloat.div (cnd_imag fz) h.

Definition class : klass :=
  mk_klass
    (fun m =>
       if String.eqb m "central" then Some _central
       else if String.eqb m "forward" then Some _forward
       else if String.eqb m "backward" then Some _backward
       else if String.eqb m "complex" then Some _complex
       else None)
    _Derivative.default_scale.

End Derivative.

Module Gradient.

(** [np.identity(n) * h]: row [i] is zero but for [h[i]] on the diagonal. *)
Definition increments (n : nat) (h : list float) : matrix :=
  map (fun i =>
         map (fun j => (if Nat.eqb i j then 1 else 0) * nth j h nan)
           (seq 0 n))
    (seq 0 n).

(** [np.identity(n) * 1j * epsilon]. *)
Definition cincrements (n : nat) (h : list float) : list (list complex) :=
  map (fun i =>
         map (fun j =>
                c_mul (c_mul (c_of_real (if Nat.eqb i j then 1 else 0)) c_j)
                  (c_of_real (nth j h nan)))
           (seq 0 n))
    (seq 0 n).

Definition _central : stencil := fun f x h =>
  xh <- vectors x h ;;
  let '(x, h) := xh in
  let n := length x in
  let h2 := map (fun v => v * 2) h in
  partials <- mapM (fun ihi =>
                let '(i, hi) := ihi in
                fp <- on_real f (vec (vadd x hi)) ;;
                fm <- on_real f (vec (vsub x hi)) ;;
                d <- nd_map2 PrimFloat.sub fp fm ;;
                h2i <- getitem h2 i ;;
                Ok (nd_div_scalar d h2i))
              (combine (seq 0 n) (increments n h)) ;;
  a <- np_array partials ;;
  Ok (transpose a).

Definition _backward : stencil := fun f x epsilon =>
  xh <- vectors x epsilon ;;
  let '(x, epsilon) := xh in
  let n := length x in
  f0 <- on_real f (vec x) ;;
  partials <- mapM (fun ih =>
                let '(i, h) := ih in
                fm <- on_real f (vec (vsub x h)) ;;
                d <- nd_map2 PrimFloat.sub f0 fm ;;
                ei <- getitem epsilon i ;;
                Ok (nd_div_scalar d ei))
              (combine (seq 0 n) (increments n epsilon)) ;;
  a <- np_array partials ;;
  Ok (transpose a).

Definition _forward : stencil := fun f x epsilon =>
  xh <- vectors x epsilon ;;
  let '(x, epsilon) := xh in
  let n := length x in
  f0 <- on_real f (vec x) ;;
  partials <- mapM (fun ih =>
                let '(i, h) := ih in
                fp <- on_real f (vec (vadd x h)) ;;
                d <- nd_map2 PrimFloat.sub fp f0 ;;
                ei <- getitem epsilon i ;;
                Ok (nd_div_scalar d ei))
              (combine (seq 0 n) (increments n epsilon)) ;;
  a <- np_array partials ;;
  Ok (transpose a).

Definition _complex : stencil := fun f x epsilon =>
  xh <- vectors x epsilon ;;
  let '(x, epsilon) := xh in
  let n := length x in
  partials <- mapM (fun iih =>
                let '(i, ih) := iih in
                fz <- on_complex f
                        (cvec (czip_with c_add (map c_of_real x) ih)) ;;
                ei <- getitem epsilon i ;;
                Ok (nd_div_scalar (cnd_imag fz) ei))
              (combine (seq 0 n) (cincrements n epsilon)) ;;
  a <- np_array partials ;;
  Ok (transpose a).

Definition class : klass :=
  mk_klass
    (fun m =>
       if String.eqb m "central" then Some _central
       else if String.eqb m "forward" then Some _forward
       else if String.eqb m "backward" then Some _backward
       else if String.eqb m "complex" then Some _complex
       else None)
    _Derivative.default_scale.

End Gradient.

(** [class Jacobian(Gradient)] adds a docstring only. *)
Module Jacobian.

Definition class : klass := Gradient.class.

End Jacobian.

Module _Hessian.

(** [dict(central=8, central2=8, complex=6).get(method, 4)] *)
Definition default_scale (method : string) (n : Z) : Z :=
  if String.eqb method "central" then 8%Z
  else if String.eqb method "central2" then 8%Z
  else if String.eqb method "complex" then 6%Z
  else 4%Z.

End _Hessian.

Module Hessian.

(** [np.diag(h)] and [np.outer(u, v)]. *)
Definition diag (h : list float) : matrix :=
  map (fun i =>
         map (fun j => if Nat.eqb i j then nth i h nan else 0)
           (seq 0 (length h)))
    (seq 0 (length h)).

Definition outer (u v : list float) : matrix :=
  map (fun a => map (fun b => a * b) v) u.

(** [for i in range(n): for j in range(i, n)] *)
Definition upper_pairs (n : nat) : list (nat * nat) :=
  flat_map (fun i => map (pair i) (seq i (n - i))) (seq 0 n).

(** The value a target returns is stored in one cell of [hess]. *)
Definition as_scalar (a : ndarray) : result float :=
  match data a with
  | [v] => Ok v
  | _ => Raise (ValueError "setting an array element with a sequence.")
  end.

Definition as_cscalar (a : cndarray) : result complex :=
  match cdata a with
  | [v] => Ok v
  | _ => Raise (ValueError "setting an array element with a sequence.")
  end.

Definition call (f : target) (v : list float) : result float :=
  r <- on_real f (vec v) ;; as_scalar r.

Definition ccall (f : target) (v : list complex) : result complex :=
  r <- on_complex f (cvec v) ;; as_cscalar r.

(** The two assignments that end the body of every double loop:
    [hess[i, j] = v; hess[j, i] = hess[i, j]]. *)
Definition assign_pair (hess : matrix) (i j : nat) (v : float) : matrix :=
  let hess1 := mat_set hess i j v in
  mat_set hess1 j i (mat_get hess1 i j).

Definition as_array (n : nat) (hess : matrix) : ndarray :=
  mk_ndarray [n; n] (concat hess).

Definition _complex : stencil := fun f x h =>
  xh <- vectors x h ;;
  let '(x, h) := xh in
  let n := length x in
  let ee := diag h in
  hess <- foldM (fun hess ij =>
            let '(i, j) := ij in
            a <- ccall f (cvadd_real (v_plus_j x (row ee i)) (row ee j)) ;;
            b <- ccall f (cvsub_real (v_plus_j x (row ee i)) (row ee j)) ;;
            Ok (assign_pair hess i j (snd (c_sub a b) / mat_get hess j i)))
          (upper_pairs n) (map (map (PrimFloat.mul 2)) (outer h h)) ;;
  Ok (as_array n hess).

Definition _central : stencil := fun f x h =>
  xh <- vectors x h ;;
  let '(x, h) := xh in
  let n := length x in
  let ee := diag h in
  hess <- foldM (fun hess ij =>
            let '(i, j) := ij in
            a <- call f (vadd (vadd x (row ee i)) (row ee j)) ;;
            b <- call f (vsub (vadd x (row ee i)) (row ee j)) ;;
            c <- call f (vadd (vsub x (row ee i)) (row ee j)) ;;
            d <- call f (vsub (vsub x (row ee i)) (row ee j)) ;;
            Ok (assign_pair hess i j
                  ((a - b - c + d) / (4 * mat_get hess j i))))
          (upper_pairs n) (outer h h) ;;
  Ok (as_array n hess).

Definition _central2 : stencil := fun f x h =>
  xh <- vectors x h ;;
  let '(x, h) := xh in
  let n := length x in
  let ee := diag h in
  f0 <- call f x ;;
  ggg <- mapM (fun i =>
           gi <- call f (vadd x (row ee i)) ;;
           ggi <- call f (vsub x (row ee i)) ;;
           Ok (gi, ggi))
         (seq 0 n) ;;
  let g := map fst ggg in
  let gg := map snd ggg in
  hess <- foldM (fun hess ij =>
            let '(i, j) := ij in
            a <- call f (vadd (vadd x (row ee i)) (row ee j)) ;;
            b <- call f (vsub (vsub x (row ee i)) (row ee j)) ;;
            Ok (assign_pair hess i j
                  ((a - nth i g nan - nth j g nan + f0 + b
                    - nth i gg nan - nth j gg nan + f0)
                   / (2 * mat_get hess j i))))
          (upper_pairs n) (outer h h) ;;
  Ok (as_array n hess).

Definition _forward : stencil := fun f x h =>
  xh <- vectors x h ;;
  let '(x, h) := xh in
  let n := length x in
  let ee := diag h in
  f0 <- call f x ;;
  g <- mapM (fun i => call f (vadd x (row ee i))) (seq 0 n) ;;
  hess <- foldM (fun hess ij =>
            let '(i, j) := ij in
            a <- call f (vadd (vadd x (row ee i)) (row ee j)) ;;
            Ok (assign_pair hess i j
                  ((a - nth i g nan - nth j g nan + f0)
                   / mat_get hess j i)))
          (upper_pairs n) (outer h h) ;;
  Ok (as_array n hess).

Definition _backward : stencil := fun f x h =>
  _forward f x (nd_map PrimFloat.opp h).

Definition class : klass :=
  mk_klass
    (fun m =>
       if String.eqb m "complex" then Some _complex
       else if String.eqb m "central" then Some _central
       else if String.eqb m "central2" then Some _central2
       else if String.eqb m "forward" then Some _forward
       else if String.eqb m "backward" then Some _backward
       else None)
    _Hessian.default_scale.

End Hessian.

Module NDerivative.

Record t : Type := mk {
  base : _Derivative.t;
  order : Z;
  weights : list float
}.

Definition too_few_points : string :=
  "'order' (the number of points used to compute the derivative), must be at least the derivative order 'n' + 1.".

Definition even_points : string :=
  "'order' (the number of points used to compute the derivative)  must be odd.".

(** A product of int64 values wraps around. *)
Definition wrap64 (z : Z) : Z :=
  ((z + 2 ^ 63) mod 2 ^ 64 - 2 ^ 63)%Z.

(** [np.product(np.arange(1, ndiv + 1), axis=0)] *)
Definition product_arange (ndiv : Z) : Z :=
  wrap64 (Z.of_nat (fact (Z.to_nat ndiv))).

(** [l[i]] with Python's negative indices. *)
Definition getrow (m : matrix) (i : Z) : result (list float) :=
  let k := if (i <? 0)%Z then (i + Z.of_nat (length m))%Z else i in
  if (k <? 0)%Z then Raise IndexError
  else match nth_error m (Z.to_nat k) with
       | Some r => Ok r
       | None => Raise IndexError
       end.

Section WithLibraries.

Context `{Libm}.

(** [scipy.linalg.inv]: a parameter. *)
Variable linalg_inv : matrix -> result matrix.

Definition central_diff_weights (Np ndiv : Z) : result (list float) :=
  if (Np <? ndiv + 1)%Z then
    Raise (ValueError
             "Number of points must be at least the derivative order + 1.")
  else if (Np mod 2 =? 0)%Z then
    Raise (ValueError "The number of points must be odd.")
  else
    let ho := Z.shiftr Np 1 in
    (* x = np.arange(-ho, ho + 1.0)[:, np.newaxis] *)
    let x := map (fun k => float_of_Z (Z.of_nat k - ho))
               (seq 0 (Z.to_nat (2 * ho + 1))) in
    (* X = x**0.0, then np.hstack([X, x**k]) for k in range(1, Np) *)
    let X := map (fun xi =>
                    np_power xi 0
                    :: map (fun k => np_power xi (float_of_nat k))
                         (seq 1 (Z.to_nat Np - 1)))
               x in
    Xinv <- linalg_inv X ;;
    r <- getrow Xinv ndiv ;;
    Ok (map (fun v => float_of_Z (product_arange ndiv) * v) r).

Definition table (num : list Z) (den : float) : list float :=
  map (fun z => float_of_Z z / den) num.

Definition _weights (n order : Z) : result (list float) :=
  if (order <? n + 1)%Z then Raise (ValueError too_few_points)
  else if (order mod 2 =? 0)%Z then Raise (ValueError even_points)
  else if (n =? 1)%Z then
    if (order =? 3)%Z then Ok (table [-1; 0; 1]%Z 2)
    else if (order =? 5)%Z then Ok (table [1; -8; 0; 8; -1]%Z 12)
    else if (order =? 7)%Z then Ok (table [-1; 9; -45; 0; 45; -9; 1]%Z 60)
    else if (order =? 9)%Z then
      Ok (table [3; -32; 168; -672; 0; 672; -168; 32; -3]%Z 840)
    else central_diff_weights order 1
  else if (n =? 2)%Z then
    if (order =? 3)%Z then Ok (map float_of_Z [1; -2; 1]%Z)
    else if (order =? 5)%Z then Ok (table [-1; 16; -30; 16; -1]%Z 12)
    else if (order =? 7)%Z then
      Ok (table [2; -27; 270; -490; 270; -27; 2]%Z 180)
    else if (order =? 9)%Z then
      Ok (table [-9; 128; -1008; 8064; -14350; 8064; -1008; 128; -9]%Z 5040)
    else central_diff_weights order 2
  else central_diff_weights order n.

(** [super().__init__(...)], then [self.order], [self.n] and
    [self.weights = self._weights(n, order)]. *)
Definition __init__ (f : target) (steps : steps_t) (method : string)
  (full_output : bool) (scale : option float) (n order : Z) : result t :=
  let b := _Derivative.__init__ f steps method full_output scale in
  w <- _weights n order ;;
  Ok (mk (_Derivative.mk n (_Derivative.f b) (_Derivative._scale b)
            (_Derivative.steps b) (_Derivative.method b)
            (_Derivative.full_output b))
        order w).

End WithLibraries.

(** [np.product((dx,) * n, axis=0)]: the element-wise product of [n]
    copies of [dx] (the scalar [1.0], broadcast, when [n <= 0]). *)
Definition product_copies (dx : ndarray) (n : Z) : ndarray :=
  nd_map (fun v => fold_left PrimFloat.mul (repeat v (Z.to_nat n)) 1) dx.

(** [val = 0.0; for k, w in enumerate(weights): val += w * f(...)] *)
Definition _central (self : t) : stencil := fun f x0 dx =>
  let ho := Z.shiftr (order self) 1 in
  val <- foldM (fun val kw =>
           let '(k, w) := kw in
           xk <- nd_map2 PrimFloat.add x0
                   (nd_map (fun d => float_of_Z (Z.of_nat k - ho) * d) dx) ;;
           fk <- on_real f xk ;;
           let term := nd_map (PrimFloat.mul w) fk in
           match val with
           | None => Ok (Some (nd_map (PrimFloat.add 0) term))
           | Some v => s <- nd_map2 PrimFloat.add v term ;; Ok (Some s)
           end)
         (combine (seq 0 (length (weights self))) (weights self)) None ;;
  match val with
  | None => Ok (nd_map (fun p => 0 / p)
                  (product_copies dx (_Derivative.n (base self))))
  | Some v =>
      nd_map2 PrimFloat.div v (product_copies dx (_Derivative.n (base self)))
  end.

Definition class (self : t) : klass :=
  mk_klass
    (fun m => if String.eqb m "central" then Some (_central self) else None)
    _Derivative.default_scale.

End NDerivative.

(** * Instances for running the model

    The theorems below hold for every [Libm], every [dea3] and every
    [linalg_inv].  To evaluate the model on concrete inputs the examples use
    the following instances.  [libm_exact] tabulates the library functions
    where their value is exactly representable and returns NaN elsewhere:
    integer powers by repeated multiplication (exact for the powers of two
    used below), [v ** 0.5] as the correctly rounded square root,
    [log1p 0 = 0] and [log10 1 = 0]. *)

Fixpoint pow_nat (v : float) (k : nat) : float :=
  match k with
  | O => 1
  | S k' => pow_nat v k' * v
  end.

(** The integer a float is equal to, if any. *)
Definition Z_of_float (w : float) : option Z :=
  match Prim2SF w with
  | S754_zero _ => Some 0%Z
  | S754_finite s m e =>
      let v := if (0 <=? e)%Z
               then Some (Zpos m * 2 ^ e)%Z
               else if (Zpos m mod 2 ^ (- e) =? 0)%Z
                    then Some (Zpos m / 2 ^ (- e))%Z
                    else None in
      if s then option_map Z.opp v else v
  | _ => None
  end.

Definition pow_exact (v w : float) : float :=
  match Z_of_float w with
  | Some k =>
      if (0 <=? k)%Z then pow_nat v (Z.to_nat k)
      else pow_nat (1 / v) (Z.to_nat (- k))
  | None => if w =? 0.5 then sqrt v else nan
  end.

Definition py_pow_exact (v w : float) : result float :=
  if (v =? 0) && (w <? 0) then Raise ZeroDivisionError
  else
    let r := pow_exact v w in
    if is_infinity r && is_finite v then Raise OverflowError else Ok r.

#[export] Instance libm_exact : Libm := {|
  py_pow := py_pow_exact;
  np_power := pow_exact;
  np_log1p := fun v => if v =? 0 then v else nan;
  np_log10 := fun v => if v =? 1 then 0 else nan
|}.

(** A stand-in with the interface of [dea3]: the middle estimate with the
    sum of the two differences as its error, row by row. *)
Definition dea3_demo (symmetric : bool) (v0 v1 v2 : matrix)
  : matrix * matrix :=
  (v1,
   map (fun abc =>
          let '(a, b, c) := abc in
          zip_with PrimFloat.add
            (map abs (zip_with PrimFloat.sub c b))
            (map abs (zip_with PrimFloat.sub b a)))
     (combine (combine v0 v1) v2)).

(** A stand-in with the interface of [scipy.linalg.inv]. *)
Definition inv_demo (X : matrix) : result matrix := Ok X.

Local Close Scope float_scope.

(** * List facts used by the array model *)

Section ListFacts.

Context {A B : Type}.

Lemma mapM_Ok (f : A -> result B) (g : A -> B) (l : list A) :
  (forall a, In a l -> f a = Ok (g a)) -> mapM f l = Ok (map g l).
Proof.
  induction l as [|a l IH]; intros H; simpl; [reflexivity|].
  rewrite (H a) by (now left). simpl.
  rewrite IH by (intros; apply H; now right). reflexivity.
Qed.

Lemma flatnonzero_from_filter (p : A -> bool) (d : A) (l : list A) (k : nat) :
  flatnonzero_from k (map p l)
  = filter (fun r => p (nth (r - k) l d)) (seq k (length l)).
Proof.
  revert k. induction l as [|a l IH]; intros k; simpl; [reflexivity|].
  rewrite Nat.sub_diag, IH.
  assert (E : filter (fun r => p (nth (r - S k) l d)) (seq (S k) (length l))
            = filter (fun r => p match r - k with 0 => a | S m => nth m l d end)
                (seq (S k) (length l))).
  { apply filter_ext_in. intros r Hr. apply in_seq in Hr.
    replace (r - k) with (S (r - S k)) by lia. reflexivity. }
  rewrite E. destruct (p a); reflexivity.
Qed.

End ListFacts.

(** Strictly increasing lists of row numbers. *)

Lemma seq_StronglySorted (a n : nat) : StronglySorted lt (seq a n).
Proof.
  revert a. induction n as [|n IH]; intros a; simpl; constructor.
  - apply IH.
  - apply Forall_forall. intros x Hx. apply in_seq in Hx. lia.
Qed.

Lemma filter_StronglySorted (p : nat -> bool) (l : list nat) :
  StronglySorted lt l -> StronglySorted lt (filter p l).
Proof.
  induction 1 as [|a l Hs IH Ha]; simpl; [constructor|].
  destruct (p a); [|assumption]. constructor; [assumption|].
  apply Forall_forall. intros x Hx. apply filter_In in Hx.
  rewrite Forall_forall in Ha. apply Ha. tauto.
Qed.

Lemma StronglySorted_nth_lt (l : list nat) (a b : nat) :
  StronglySorted lt l -> a < b -> b < length l -> nth a l 0 < nth b l 0.
Proof.
  intros Hs. revert a b. induction Hs as [|x l Hs IH Hx]; intros a b Hab Hb.
  - simpl in Hb. lia.
  - destruct b as [|b]; [lia|]. simpl in Hb. destruct a as [|a]; simpl.
    + rewrite Forall_forall in Hx. apply Hx. apply nth_In. lia.
    + apply IH; lia.
Qed.

Lemma StronglySorted_nth_le (l : list nat) (a b : nat) :
  StronglySorted lt l -> a <= b -> b < length l -> nth a l 0 <= nth b l 0.
Proof.
  intros Hs Hab Hb. destruct (Nat.eq_dec a b) as [->|Hne]; [lia|].
  apply Nat.lt_le_incl. apply StronglySorted_nth_lt; auto. lia.
Qed.

(** Twice the median of a list of row numbers: the sum of its two middle
    elements (the same element twice when the length is odd). *)
Definition median2 (t : list nat) : Z :=
  Z.of_nat (nth ((length t - 1) / 2) t 0) + Z.of_nat (nth (length t / 2) t 0).

(** In an increasing list the element at position [length / 2] is as close
    to the median as any element is. *)
Definition upper_median (t : list nat) : nat := nth (length t / 2) t 0.

Lemma upper_median_closest (t : list nat) (x : nat) :
  StronglySorted lt t -> In x t ->
  (Z.abs (2 * Z.of_nat (upper_median t) - median2 t)
   <= Z.abs (2 * Z.of_nat x - median2 t))%Z.
Proof.
  intros Hs Hx. destruct (In_nth t x 0 Hx) as [j [Hj <-]].
  unfold median2, upper_median.
  set (k := length t / 2). set (k' := (length t - 1) / 2).
  assert (Hk : k < length t) by (apply Nat.Div0.div_lt_upper_bound; lia).
  assert (Hk' : k' <= k) by (apply Nat.Div0.div_le_mono; lia).
  assert (Hkk : k <= k' + 1).
  { unfold k, k'. 
    pose proof (Nat.div_mod_eq (length t) 2).
    pose proof (Nat.div_mod_eq (length t - 1) 2).
    pose proof (Nat.mod_upper_bound (length t) 2).
    pose proof (Nat.mod_upper_bound (length t - 1) 2). lia. }
  pose proof (StronglySorted_nth_le t k' k Hs Hk' Hk) as H1.
  destruct (Nat.le_gt_cases k j) as [Hjk|Hjk].
  - pose proof (StronglySorted_nth_le t k j Hs Hjk Hj). lia.
  - assert (j <= k') by lia.
    pose proof (StronglySorted_nth_le t j k' Hs ltac:(lia) ltac:(lia)). lia.
Qed.

(** * Facts about [nanmin] and the tied rows *)

Lemma kle_trans (a b c : Z * Z * Z) :
  ~ F64.lexlt b a -> ~ F64.lexlt c b -> ~ F64.lexlt c a.
Proof.
  destruct a as [[a1 a2] a3], b as [[b1 b2] b3], c as [[c1 c2] c3].
  unfold F64.lexlt. lia.
Qed.

Lemma ltb_false_iff (x y : float) :
  is_nan x = false -> is_nan y = false ->
  ((x <? y)%float = false <-> ~ F64.lexlt (F64.kf x) (F64.kf y)).
Proof.
  intros Hx Hy. rewrite <- (F64.ltb_true_iff x y Hx Hy).
  destruct (x <? y)%float; split; congruence.
Qed.

Lemma fmin_cases (x y : float) :
  is_nan x = false -> is_nan y = false ->
  (fmin x y = x \/ fmin x y = y)
  /\ ~ F64.lexlt (F64.kf x) (F64.kf (fmin x y))
  /\ ~ F64.lexlt (F64.kf y) (F64.kf (fmin x y)).
Proof.
  intros Hx Hy. unfold fmin. destruct (x <? y)%float eqn:E.
  - apply F64.ltb_true_iff in E; auto.
    repeat split; auto using F64.lexlt_irrefl.
    intros H. apply (F64.lexlt_irrefl (F64.kf x)).
    eapply F64.lexlt_trans; eauto.
  - apply ltb_false_iff in E; auto.
    repeat split; auto using F64.lexlt_irrefl.
Qed.

Lemma fold_fmin_spec (l : list float) (acc : float) :
  is_nan acc = false -> Forall (fun e => is_nan e = false) l ->
  is_nan (fold_left fmin l acc) = false
  /\ In (fold_left fmin l acc) (acc :: l)
  /\ forall y, In y (acc :: l) ->
       ~ F64.lexlt (F64.kf y) (F64.kf (fold_left fmin l acc)).
Proof.
  revert acc. induction l as [|x l IH]; intros acc Hacc Hl; simpl.
  - repeat split; auto. intros y [<-|[]]. apply F64.lexlt_irrefl.
  - inversion Hl as [|? ? Hx Hl']; subst.
    destruct (fmin_cases acc x Hacc Hx) as [Hc [Ha Hb]].
    assert (Hm : is_nan (fmin acc x) = false) by (destruct Hc as [->| ->]; auto).
    destruct (IH (fmin acc x) Hm Hl') as [H1 [H2 H3]].
    repeat split; auto.
    + destruct H2 as [H2|H2]; [|auto].
      rewrite <- H2. destruct Hc as [->| ->]; auto.
    + intros y [<-|[<-|Hy]].
      * apply (kle_trans _ (F64.kf (fmin acc x))); [|apply Ha].
        apply H3. now left.
      * apply (kle_trans _ (F64.kf (fmin acc x))); [|apply Hb].
        apply H3. now left.
      * apply H3. now right.
Qed.

Definition not_all_nan (col : list float) : Prop :=
  exists e, In e col /\ is_nan e = false.

Lemma not_all_nan_forallb (col : list float) :
  not_all_nan col <-> forallb is_nan col = false.
Proof.
  split.
  - intros [e [He Hn]]. destruct (forallb is_nan col) eqn:E; auto.
    rewrite forallb_forall in E. rewrite (E e He) in Hn. discriminate.
  - induction col as [|a col IH]; simpl; [discriminate|].
    destruct (is_nan a) eqn:E; simpl.
    + intros H. destruct (IH H) as [e [He Hn]]. exists e.
      split; [now right|assumption].
    + intros _. exists a. split; [now left|assumption].
Qed.

Lemma nanmin_spec (col : list float) :
  not_all_nan col ->
  is_nan (nanmin col) = false
  /\ (exists e, In e col /\ (e =? nanmin col)%float = true)
  /\ (forall y, In y col -> is_nan y = false ->
        (y <? nanmin col)%float = false).
Proof.
  intros Hcol. pose proof Hcol as [e0 [He0 Hn0]].
  unfold nanmin. rewrite (proj1 (not_all_nan_forallb col) Hcol).
  set (repl := fun e => if is_nan e then infinity else e).
  assert (Hrepl : forall e, is_nan (repl e) = false).
  { intros e. unfold repl. destruct (is_nan e) eqn:E; auto. }
  destruct col as [|a col]; [destruct He0|].
  cbn [map hd tl].
  destruct (fold_fmin_spec (map repl col) (repl a) (Hrepl a)) as [H1 [H2 H3]].
  { apply Forall_forall. intros x Hx. apply in_map_iff in Hx.
    destruct Hx as [e [<- _]]. apply Hrepl. }
  set (m := fold_left fmin (map repl col) (repl a)) in *.
  assert (Hle : forall y, In y (a :: col) -> is_nan y = false ->
                  ~ F64.lexlt (F64.kf y) (F64.kf m)).
  { intros y Hy Hny. apply H3. change (In y (map repl (a :: col))).
    apply in_map_iff. exists y. split; auto. unfold repl. now rewrite Hny. }
  repeat split; auto.
  - change (In m (map repl (a :: col))) in H2. apply in_map_iff in H2.
    destruct H2 as [e [Hem He]]. unfold repl in Hem.
    destruct (is_nan e) eqn:E.
    + exists e0. split; auto. apply F64.eqb_true_iff; auto.
      destruct (F64.kf_le_infinity e0 Hn0) as [Hlt|Heq].
      * exfalso. apply (Hle e0 He0 Hn0). now rewrite <- Hem.
      * now rewrite <- Hem.
    + exists e. split; auto. apply F64.eqb_true_iff; auto. now rewrite Hem.
  - intros y Hy Hny. apply ltb_false_iff; auto.
Qed.

(** * Facts about matrices *)

Definition entry (m : matrix) (r i : nat) : float := nth i (nth r m []) nan.

Definition rectangular (R C : nat) (m : matrix) : Prop :=
  length m = R /\ Forall (fun row => length row = C) m.

Lemma nth_column (m : matrix) (r i : nat) :
  r < length m -> nth r (column m i) nan = entry m r i.
Proof.
  intros Hr. unfold column, entry.
  rewrite (nth_indep _ nan (nth i [] nan)) by (now rewrite length_map).
  now rewrite (map_nth (fun row => nth i row nan) m []).
Qed.

Lemma length_column (m : matrix) (i : nat) : length (column m i) = length m.
Proof. apply length_map. Qed.

Lemma rectangular_ncols (R C : nat) (m : matrix) :
  rectangular R C m -> 1 <= R -> ncols m = C.
Proof.
  intros [HR HC] H1. destruct m as [|row m]; simpl in *; [lia|].
  now inversion HC.
Qed.

Lemma nth_error_concat (R C : nat) (m : matrix) (r i : nat) :
  rectangular R C m -> r < R -> i < C ->
  nth_error (concat m) (r * C + i) = Some (entry m r i).
Proof.
  intros [HR HC]. revert R r HR. induction m as [|row m IH]; intros R r HR Hr Hi.
  - simpl in HR. lia.
  - inversion HC as [|? ? Hrow HC']; subst. simpl concat.
    destruct r as [|r].
    + simpl. rewrite nth_error_app1 by lia. unfold entry. simpl.
      apply nth_error_nth'. lia.
    + rewrite nth_error_app2 by (simpl; lia).
      replace (S r * length row + i - length row) with (r * length row + i)
        by (simpl; lia).
      unfold entry. simpl. apply (IH HC' (length m) r eq_refl); auto.
      simpl in Hr. lia.
Qed.

Lemma length_concat_rectangular (R C : nat) (m : matrix) :
  rectangular R C m -> length (concat m) = R * C.
Proof.
  intros [HR HC]. revert R HR. induction m as [|row m IH]; intros R HR.
  - simpl in *. subst. reflexivity.
  - inversion HC; subst. simpl. rewrite length_app, (IH H2 _ eq_refl). lia.
Qed.

Lemma mapM_map_Ok {A A' B : Type} (f : A' -> result B) (h : A -> A')
  (g : A -> B) (l : list A) :
  (forall a, In a l -> f (h a) = Ok (g a)) ->
  mapM f (map h l) = Ok (map g l).
Proof.
  induction l as [|a l IH]; intros H; simpl; [reflexivity|].
  rewrite (H a) by (now left). simpl.
  rewrite IH by (intros; apply H; now right). reflexivity.
Qed.

Lemma combine_map_self {A B : Type} (g : A -> B) (l : list A) :
  combine (map g l) l = map (fun x => (g x, x)) l.
Proof. induction l as [|a l IH]; simpl; [reflexivity|now rewrite IH]. Qed.

Lemma nth_map_seq {B : Type} (g : nat -> B) (d : B) (n i : nat) :
  i < n -> nth i (map g (seq 0 n)) d = g i.
Proof.
  intros Hi. rewrite (nth_indep _ d (g 0)) by (now rewrite length_map, length_seq).
  rewrite (map_nth g (seq 0 n) 0 i). now rewrite seq_nth.
Qed.

Section TiedRows.

Variables (R C : nat) (E : matrix).
Hypothesis HE : rectangular R C E.
Variable i : nat.
Hypothesis Hcol : not_all_nan (column E i).

Lemma tied_rows_filter :
  tied_rows E i
  = filter (fun r => (entry E r i =? nanmin (column E i))%float) (seq 0 R).
Proof.
  unfold tied_rows, flatnonzero.
  rewrite (flatnonzero_from_filter _ nan), length_column.
  destruct HE as [HR _]. rewrite HR. apply filter_ext_in.
  intros r Hr. apply in_seq in Hr. rewrite Nat.sub_0_r.
  rewrite nth_column by lia. reflexivity.
Qed.

Lemma tied_rows_sorted : StronglySorted lt (tied_rows E i).
Proof.
  rewrite tied_rows_filter. apply filter_StronglySorted, seq_StronglySorted.
Qed.

Lemma tied_rows_In (r : nat) :
  In r (tied_rows E i)
  <-> r < R /\ (entry E r i =? nanmin (column E i))%float = true.
Proof.
  rewrite tied_rows_filter, filter_In, in_seq. intuition lia.
Qed.

Lemma tied_rows_nonempty : 0 < length (tied_rows E i).
Proof.
  destruct (nanmin_spec _ Hcol) as [_ [[e [He Heq]] _]].
  destruct (In_nth _ _ nan He) as [r [Hr Hre]].
  rewrite length_column in Hr. rewrite nth_column in Hre by assumption.
  assert (Hin : In r (tied_rows E i)).
  { apply tied_rows_In. destruct HE as [HR _]. split; [lia|]. now rewrite Hre. }
  destruct (tied_rows E i); [destruct Hin|simpl; lia].
Qed.

Lemma upper_median_tied_In : In (upper_median (tied_rows E i)) (tied_rows E i).
Proof.
  apply nth_In. pose proof tied_rows_nonempty.
  apply Nat.Div0.div_lt_upper_bound. lia.
Qed.

Lemma nth_error_upper_median :
  nth_error (tied_rows E i) (length (tied_rows E i) / 2)
  = Some (upper_median (tied_rows E i)).
Proof.
  apply nth_error_nth'. pose proof tied_rows_nonempty.
  apply Nat.Div0.div_lt_upper_bound. lia.
Qed.

(** The selected row carries the minimal error of its column. *)
Lemma upper_median_minimal :
  let r := upper_median (tied_rows E i) in
  r < R
  /\ is_nan (entry E r i) = false
  /\ (forall r', r' < R -> is_nan (entry E r' i) = false ->
        (entry E r' i <? entry E r i)%float = false)
  /\ tied_rows E i
     = filter (fun r' => (entry E r' i =? entry E r i)%float) (seq 0 R).
Proof.
  intros r. destruct (proj1 (tied_rows_In r) upper_median_tied_In) as [Hr Heq].
  destruct (nanmin_spec _ Hcol) as [Hm [_ Hmin]].
  destruct (F64.eqb_true_not_nan _ _ Heq) as [Hn _].
  pose proof (proj1 (F64.eqb_true_iff _ _ Hn Hm) Heq) as Hk.
  destruct HE as [HR _].
  repeat split; auto.
  - intros r' Hr' Hn'. apply ltb_false_iff; auto. rewrite Hk.
    apply ltb_false_iff; auto. apply Hmin; auto.
    rewrite <- (nth_column E r' i) by lia. apply nth_In.
    rewrite length_column. lia.
  - rewrite tied_rows_filter. apply filter_ext. intros r'.
    destruct (is_nan (entry E r' i)) eqn:En.
    + now rewrite !F64.eqb_nan_l.
    + destruct (entry E r' i =? nanmin (column E i))%float eqn:E1.
      * symmetry. apply F64.eqb_true_iff; auto.
        apply F64.eqb_true_iff in E1; auto. congruence.
      * destruct (entry E r' i =? entry E r i)%float eqn:E2; auto.
        apply F64.eqb_true_iff in E2; auto.
        rewrite Hk in E2. apply F64.eqb_true_iff in E2; auto. congruence.
Qed.

End TiedRows.

Lemma get_arg_min_Ok (R C : nat) (E : matrix) :
  rectangular R C E -> 1 <= R ->
  (forall i, i < C -> not_all_nan (column E i)) ->
  _Derivative._get_arg_min E
  = Ok (map (fun i => upper_median (tied_rows E i) * C + i) (seq 0 C)).
Proof.
  intros HE HR Hcols. unfold _Derivative._get_arg_min.
  rewrite (rectangular_ncols R C E HE HR).
  assert (Hn : nanargmin_raises E = Ok tt).
  { unfold nanargmin_raises. rewrite (rectangular_ncols R C E HE HR).
    destruct E as [|row E']; [destruct HE; simpl in *; lia|].
    destruct (existsb _ _) eqn:Ex; [|reflexivity].
    apply existsb_exists in Ex. destruct Ex as [i [Hi Hall]].
    apply in_seq in Hi.
    rewrite (proj1 (not_all_nan_forallb _) (Hcols i ltac:(lia))) in Hall.
    discriminate. }
  rewrite Hn. cbn [bind].
  rewrite (mapM_Ok _ (fun i => upper_median (tied_rows E i))).
  - cbn [bind]. now rewrite combine_map_self, map_map.
  - intros i Hi. apply in_seq in Hi.
    rewrite (nth_error_upper_median R C E HE i); auto. apply Hcols. lia.
Qed.

Lemma take_flat_selected (R C : nat) (M : matrix) (sel : nat -> nat) :
  rectangular R C M -> (forall i, i < C -> sel i < R) ->
  take_flat M (map (fun i => sel i * C + i) (seq 0 C))
  = Ok (map (fun i => entry M (sel i) i) (seq 0 C)).
Proof.
  intros HM Hsel. unfold take_flat. apply mapM_map_Ok.
  intros i Hi. apply in_seq in Hi.
  rewrite (nth_error_concat R C M) by (auto; try apply Hsel; lia).
  reflexivity.
Qed.

Lemma vstack_same_length (rows : list (list float)) (n : nat) :
  rows <> [] -> Forall (fun r => length r = n) rows -> vstack rows = Ok rows.
Proof.
  intros Hne Hall. destruct rows as [|r rows]; [congruence|].
  unfold vstack. inversion Hall as [|? ? Hr Hrows]; subst.
  rewrite (proj2 (forallb_forall _ _)); [reflexivity|].
  intros r' Hr'. rewrite Forall_forall in Hrows.
  rewrite (Hrows r' Hr'). apply Nat.eqb_refl.
Qed.

(** C1: for a sequence of at least three raw estimates of one shape, with
    the stacks [D] of estimates and [E] of errors that the extrapolation
    stages return ([dea3] is not part of this module; the stacks are taken
    rectangular, with at least one row, and no column of [E] all NaN), the
    engine returns for each flattened element [i] the estimate [D[r, i]]
    and the error [E[r, i]] of one row [r]: the error of that row is
    minimal in column [i] (no error of the column that is not NaN is
    smaller), the tied rows [T] are exactly the rows of that error, and
    [r] is the upper median of [T], the tied index closest to the median
    of [T], not the first one. *)
Theorem extrapolate_selects_min_error_median_tie
  (dea3 : bool -> matrix -> matrix -> matrix -> matrix * matrix)
  (sequence : list ndarray) (s0 : list nat) (R : nat) (D E : matrix) :
  3 <= length sequence ->
  Forall (fun a => shape a = s0 /\ wf_ndarray a) sequence ->
  _Derivative.extrapolation_stages dea3 (map data sequence) = (D, E) ->
  rectangular R (size_of s0) D -> rectangular R (size_of s0) E -> 1 <= R ->
  (forall i, i < size_of s0 -> not_all_nan (column E i)) ->
  exists d err ix,
    _Derivative._extrapolate dea3 sequence = Ok (d, mk_info err (ArrayIndex ix))
    /\ shape d = s0 /\ shape err = s0
    /\ length (data d) = size_of s0 /\ length (data err) = size_of s0
    /\ length ix = size_of s0
    /\ forall i, i < size_of s0 ->
         let T := tied_rows E i in
         let r := upper_median T in
         r < R
         /\ nth i ix 0 = r * size_of s0 + i
         /\ nth i (data d) nan = entry D r i
         /\ nth i (data err) nan = entry E r i
         /\ is_nan (entry E r i) = false
         /\ (forall r', r' < R -> is_nan (entry E r' i) = false ->
               (entry E r' i <? entry E r i)%float = false)
         /\ T = filter (fun r' => (entry E r' i =? entry E r i)%float) (seq 0 R)
         /\ (forall t, In t T ->
               (Z.abs (2 * Z.of_nat r - median2 T)
                <= Z.abs (2 * Z.of_nat t - median2 T))%Z).
Proof.
  intros Hlen Hseq Hst HD HE HR Hcols.
  set (C := size_of s0) in *.
  set (sel := fun i => upper_median (tied_rows E i)).
  assert (Hsel : forall i, i < C -> sel i < R).
  { intros i Hi. apply (upper_median_minimal R C E HE i (Hcols i Hi)). }
  exists (mk_ndarray s0 (map (fun i => entry D (sel i) i) (seq 0 C))),
    (mk_ndarray s0 (map (fun i => entry E (sel i) i) (seq 0 C))),
    (map (fun i => sel i * C + i) (seq 0 C)).
  split.
  - unfold _Derivative._extrapolate.
    destruct (Nat.ltb_spec (length sequence) 3) as [Hlt|_]; [lia|].
    destruct sequence as [|a0 sequence']; [simpl in Hlen; lia|].
    rewrite (vstack_same_length _ C).
    + cbn [bind]. rewrite Hst. rewrite (get_arg_min_Ok R C E HE HR Hcols).
      cbn [bind].
      change (fun i => upper_median (tied_rows E i) * C + i)
        with (fun i => sel i * C + i).
      rewrite (take_flat_selected R C E sel HE Hsel). cbn [bind].
      inversion Hseq as [|? ? [Hs0 _] _]; subst. cbn [hd].
      unfold reshape. rewrite !length_map, !length_seq.
      fold C. rewrite Nat.eqb_refl. cbn [bind].
      rewrite (take_flat_selected R C D sel HD Hsel). cbn [bind].
      rewrite !length_map, !length_seq. rewrite Nat.eqb_refl. reflexivity.
    + discriminate.
    + apply Forall_map. eapply Forall_impl; [|apply Hseq].
      intros a [Hs Hw]. unfold wf_ndarray in Hw. now rewrite Hw, Hs.
  - cbn [shape data]. rewrite !length_map, !length_seq.
    repeat split; auto. 
    all: intros; rewrite ?nth_map_seq by assumption; auto.
    all: try apply (upper_median_minimal R C E HE i (Hcols i ltac:(assumption))); auto.
    apply upper_median_closest; auto.
    apply (tied_rows_sorted R C E HE).
Qed.

Lemma extrapolate_selects_min_error_median_tie_witness :
  exists d err ix,
    _Derivative._extrapolate dea3_demo
      [vec [1; 2]; vec [1.5; 2]; vec [1.75; 2]; vec [1.875; 2]]%float
    = Ok (d, mk_info err (ArrayIndex ix))
    /\ shape d = [2] /\ shape err = [2].
Proof.
  destruct (extrapolate_selects_min_error_median_tie dea3_demo
              [vec [1; 2]; vec [1.5; 2]; vec [1.75; 2]; vec [1.875; 2]]%float
              [2] 2
              [[1.5; 2]; [1.75; 2]]%float [[0.75; 0]; [0.375; 0]]%float)
    as [d [err [ix [Hex [Hd [He _]]]]]].
  - simpl. lia.
  - repeat constructor.
  - reflexivity.
  - split; [reflexivity|]. repeat constructor.
  - split; [reflexivity|]. repeat constructor.
  - lia.
  - intros i Hi. change (size_of [2]) with 2 in Hi.
    destruct i as [|[|i]]; [| |lia].
    + exists 0.375%float. split; [right; now left|reflexivity].
    + exists 0%float. split; [now left|reflexivity].
  - exists d, err, ix. auto.
Defined.

(** * The fallback of the extrapolation engine (fewer than 3 estimates) *)

Lemma shape_eqb_eq (s t : list nat) : shape_eqb s t = true <-> s = t.
Proof.
  revert t. induction s as [|m s IH]; intros [|n t]; simpl;
    try (split; [discriminate|congruence]); [tauto|].
  rewrite andb_true_iff, Nat.eqb_eq, IH. split.
  - intros [-> ->]. reflexivity.
  - intros E. inversion E. auto.
Qed.

Lemma shape_eqb_refl (s : list nat) : shape_eqb s s = true.
Proof. now apply shape_eqb_eq. Qed.

Lemma map_zip_with (f : float -> float) (g : float -> float -> float)
  (u v : list float) :
  map f (zip_with g u v) = zip_with (fun a b => f (g a b)) u v.
Proof.
  revert v. induction u as [|a u IH]; intros [|b v]; simpl; try reflexivity.
  now rewrite IH.
Qed.

Lemma zip_with_diag (g : float -> float -> float) (u : list float) :
  zip_with g u u = map (fun a => g a a) u.
Proof. induction u as [|a u IH]; simpl; [reflexivity|now rewrite IH]. Qed.

Lemma last_singleton_or_pair (sequence : list ndarray) (first : ndarray) :
  hd_error sequence = Some first -> length sequence < 3 ->
  sequence = [first] \/ sequence = [first; last sequence first].
Proof.
  destruct sequence as [|a [|b [|c l]]]; simpl; intros Hh Hl;
    try discriminate; try lia; inversion Hh; auto.
Qed.

(** C2 (as amended): a sequence of one or two raw estimates of one shape
    is not extrapolated; the engine returns the element-wise
    [0.5 * (first + last)] and an error array of the same shape whose every
    element is NaN, with stage index 0. *)
Theorem extrapolate_fewer_than_three
  (dea3 : bool -> matrix -> matrix -> matrix -> matrix * matrix)
  (sequence : list ndarray) (first : ndarray) :
  hd_error sequence = Some first ->
  length sequence < 3 ->
  shape (last sequence first) = shape first ->
  exists d err,
    _Derivative._extrapolate dea3 sequence
    = Ok (d, mk_info err (ScalarIndex 0))
    /\ shape d = shape first
    /\ data d = zip_with (fun a b => 0.5 * (a + b))%float (data first)
                  (data (last sequence first))
    /\ shape err = shape first
    /\ length (data err) = length (data first)
    /\ Forall (fun e => is_nan e = true) (data err).
Proof.
  intros Hh Hl Hs.
  exists (mk_ndarray (shape first)
            (zip_with (fun a b => 0.5 * (a + b))%float (data first)
               (data (last sequence first)))),
    (full_like first nan).
  split.
  - unfold _Derivative._extrapolate.
    destruct (Nat.ltb_spec (length sequence) 3) as [_|Hge]; [|lia].
    destruct sequence as [|a l]; [discriminate|].
    simpl in Hh. inversion Hh; subst a.
    unfold nd_map2. rewrite Hs, shape_eqb_refl. cbn [bind].
    unfold nd_map. cbn [shape data]. now rewrite map_zip_with.
  - cbn [shape data full_like nd_map]. repeat split; auto.
    + apply length_map.
    + apply Forall_forall. intros e He. apply in_map_iff in He.
      destruct He as [? [<- _]]. reflexivity.
Qed.

Lemma extrapolate_fewer_than_three_witness :
  exists d err,
    _Derivative._extrapolate dea3_demo [vec [1; 2]; vec [3; 6]]%float
    = Ok (d, mk_info err (ScalarIndex 0))
    /\ shape d = [2]
    /\ data d = [2; 4]%float
    /\ shape err = [2]
    /\ length (data err) = 2
    /\ Forall (fun e => is_nan e = true) (data err).
Proof.
  apply (extrapolate_fewer_than_three dea3_demo
           [vec [1; 2]; vec [3; 6]]%float (vec [1; 2]%float));
    [reflexivity | simpl; lia | reflexivity].
Defined.

(** C2, the counterexample: an empty sequence has fewer than 3 estimates
    and the engine raises [IndexError] on [sequence[0]]. *)
Lemma extrapolate_empty_raises :
  _Derivative._extrapolate dea3_demo [] = Raise IndexError.
Proof. reflexivity. Qed.

(** * A call whose steps are not callable *)

Lemma consume_single {B : Type} (r : result ndarray)
  (body : ndarray -> result B) :
  consume (generate (h <- r ;; Ok (mk_generated [h] None))) body
  = (h <- r ;; b <- body h ;; Ok [b]).
Proof.
  destruct r as [h|e]; simpl; [|reflexivity].
  unfold consume. simpl. destruct (body h); reflexivity.
Qed.

Lemma half_double_array (r : ndarray) :
  Forall (fun v => is_infinity (v + v)%float = is_infinity v) (data r) ->
  nd_map (fun v => 0.5 * (v + v))%float r = r.
Proof.
  destruct r as [s l]. unfold nd_map. cbn [shape data]. intros Hall.
  f_equal. induction Hall as [|v l Hv _ IH]; simpl; [reflexivity|].
  now rewrite IH, F64.half_double.
Qed.

(** C10 (as amended): when [steps] is [None], a scalar or an array, a call
    resolves the method, resolves the one step with the base-step policy
    (which may raise), evaluates the stencil once and returns
    [0.5 * (r + r)] of that single raw estimate [r], with an all-NaN error
    estimate of the shape of [r] and stage index 0 under [full_output];
    [0.5 * (r + r)] is [r] itself wherever doubling an element does not
    overflow. *)
Theorem call_with_plain_steps `{Libm}
  (dea3 : bool -> matrix -> matrix -> matrix -> matrix * matrix)
  (K : klass) (f : target) (s : step_spec) (method : string)
  (full_output : bool) (scale : option float) (x : ndarray) :
  let self := _Derivative.__init__ f (StepsValue s) method full_output scale in
  _Derivative.__call__ dea3 K self x
  = match stencil_of K method with
    | None => Raise (AttributeError ("_" ++ method))
    | Some derivative =>
        h <- _default_base_step x (_Derivative.scale K self) s ;;
        r <- derivative f x h ;;
        Ok (nd_map (fun v => 0.5 * (v + v))%float r,
            if full_output
            then Some (mk_info (full_like r nan) (ScalarIndex 0))
            else None)
    end
  /\ (forall r : ndarray,
        Forall (fun e => is_nan e = true) (data (full_like r nan))
        /\ shape (full_like r nan) = shape r
        /\ (Forall (fun v => is_infinity (v + v)%float = is_infinity v)
              (data r) ->
            nd_map (fun v => 0.5 * (v + v))%float r = r)).
Proof.
  intros self. split.
  - unfold _Derivative.__call__. cbn [_Derivative.method self
      _Derivative.__init__ _Derivative.steps _Derivative.f
      _Derivative.full_output _Derivative._make_callable].
    destruct (stencil_of K method) as [derivative|]; [|reflexivity].
    rewrite consume_single.
    destruct (_default_base_step x (_Derivative.scale K self) s) as [h|e];
      [|reflexivity].
    cbn [bind]. destruct (derivative f x h) as [r|e]; [|reflexivity].
    cbn [bind]. unfold _Derivative._extrapolate. cbn [length Nat.ltb Nat.leb].
    unfold nd_map2. rewrite shape_eqb_refl. cbn [bind last fst snd].
    unfold nd_map at 1. cbn [shape data].
    rewrite map_zip_with, zip_with_diag. reflexivity.
  - intros r. split; [|split].
    + apply Forall_forall. intros e He. cbn in He. apply in_map_iff in He.
      destruct He as [? [<- _]]. reflexivity.
    + reflexivity.
    + apply half_double_array.
Qed.

(** C10, the counterexample: for [f(x) = 2^1023 * x], the scalar step 1 and
    the forward method at [x = 0] the single raw estimate is [2^1023], and
    the call returns [0.5 * (2^1023 + 2^1023) = inf], not the raw estimate. *)
Lemma call_with_plain_steps_overflow :
  let f := mk_target (fun a => Ok (nd_map (PrimFloat.mul 0x1p1023) a))
             (fun _ => Raise (TargetError 0)) in
  Derivative._forward f (vec [0]%float) (vec [1]%float)
  = Ok (vec [0x1p1023]%float)
  /\ _Derivative.__call__ dea3_demo Derivative.class
       (_Derivative.__init__ f (StepsValue (StepScalar 1%float)) "forward"
          true None)
       (vec [0]%float)
     = Ok (vec [infinity],
           Some (mk_info (vec [nan]) (ScalarIndex 0))).
Proof. split; reflexivity. Qed.

(** * The base-step policy *)

Lemma map_repeat {A B : Type} (f : A -> B) (a : A) (n : nat) :
  map f (repeat a n) = repeat (f a) n.
Proof. induction n as [|n IH]; simpl; [reflexivity|now rewrite IH]. Qed.

Lemma default_base_step_none `{Libm} (x : ndarray) (scale c : float) :
  (scale =? 0)%float = false ->
  py_pow (10 * EPS) (1 / scale)%float = Ok c ->
  _default_base_step x scale StepNone
  = Ok (mk_ndarray (shape x)
          (map (fun v => c * np_maximum (np_log1p (abs v)) one_tenth)%float
             (data x))).
Proof. intros Hs Hc. unfold _default_base_step. now rewrite Hs, Hc. Qed.

(** C7 (as amended): the base-step policy fails exactly when [epsilon] is
    an array whose shape differs from the shape of [x], or when [epsilon]
    is [None] and the factor [(10 * EPS) ** (1. / scale)] cannot be
    computed ([scale == 0], or the power raises); otherwise it returns
    that factor times [max(log1p(|x|), 0.1)] element-wise for [None], the
    scalar broadcast to the shape of [x], or the array itself. *)
Theorem default_base_step_spec `{Libm} (x : ndarray) (scale : float) :
  (forall epsilon,
     raises (_default_base_step x scale epsilon) = true
     <-> (exists a, epsilon = StepArray a /\ shape a <> shape x)
         \/ (epsilon = StepNone
             /\ ((scale =? 0)%float = true
                 \/ raises (py_pow (10 * EPS) (1 / scale))%float = true)))
  /\ (forall c,
        (scale =? 0)%float = false ->
        py_pow (10 * EPS) (1 / scale)%float = Ok c ->
        _default_base_step x scale StepNone
        = Ok (mk_ndarray (shape x)
                (map (fun v => c * np_maximum (np_log1p (abs v)) one_tenth)%float
                   (data x))))
  /\ (forall e,
        _default_base_step x scale (StepScalar e)
        = Ok (mk_ndarray (shape x) (repeat e (size_of (shape x)))))
  /\ (forall a,
        shape a = shape x -> _default_base_step x scale (StepArray a) = Ok a).
Proof.
  repeat split.
  - destruct epsilon as [|e|a]; unfold _default_base_step.
    + destruct (scale =? 0)%float; [auto|].
      destruct (py_pow _ _); cbn [bind raises]; intros Hr; [discriminate|auto].
    + discriminate.
    + destruct (shape_eqb (shape a) (shape x)) eqn:E; [discriminate|].
      intros _. left. exists a. split; [reflexivity|].
      intros Heq. apply shape_eqb_eq in Heq. congruence.
  - intros [[a [-> Hne]]|[-> Hs]]; unfold _default_base_step.
    + destruct (shape_eqb (shape a) (shape x)) eqn:E; [|reflexivity].
      apply shape_eqb_eq in E. contradiction.
    + destruct (scale =? 0)%float; [reflexivity|].
      destruct Hs as [Hs|Hs]; [discriminate|].
      destruct (py_pow _ _); [discriminate|reflexivity].
  - intros c. apply default_base_step_none.
  - intros e. unfold _default_base_step, nd_scale, nd_map, np_ones. cbn [shape data].
    now rewrite map_repeat, F64.mul_1_l.
  - intros a Ha. unfold _default_base_step.
    apply shape_eqb_eq in Ha. now rewrite Ha.
Qed.

(** C7, the counterexample: with [epsilon] unset and [scale = 0] the policy
    raises [ZeroDivisionError], although no array was supplied. *)
Lemma default_base_step_scale_zero :
  _default_base_step (vec [1]%float) 0%float StepNone = Raise ZeroDivisionError.
Proof. reflexivity. Qed.

(** * The step generators *)


(** The candidates a generator computes before one of them raises. *)
Fixpoint oks_before_raise (cs : list (result ndarray)) : list ndarray :=
  match cs with
  | Ok h :: cs' => h :: oks_before_raise cs'
  | _ => []
  end.


Lemma yield_nonzero_filter (cs : list (result ndarray)) :
  yielded (yield_nonzero cs) = filter all_positive_abs (oks_before_raise cs).
Proof.
  induction cs as [|[h|e] cs IH]; simpl; try reflexivity.
  destruct (all_positive_abs h); simpl; now rewrite IH.
Qed.






(** * The geometric generator *)

Lemma mapM_length {A B : Type} (f : A -> result B) (l : list A) (bs : list B) :
  mapM f l = Ok bs -> length bs = length l.
Proof.
  revert bs. induction l as [|a l IH]; simpl; intros bs Hm.
  - now inversion Hm.
  - destruct (f a) as [b|e]; [|discriminate]. cbn [bind] in Hm.
    destruct (mapM f l) as [bs'|e]; [|discriminate]. cbn [bind] in Hm.
    inversion Hm. simpl. now rewrite (IH bs' eq_refl).
Qed.







(** * The log-spaced generator *)





(** * Stencil weights of [NDerivative] *)

Lemma odd_half (order : Z) :
  (order mod 2 =? 0)%Z = false -> (2 * Z.shiftr order 1 + 1 = order)%Z.
Proof.
  intros Ho. apply Z.eqb_neq in Ho.
  rewrite Z.shiftr_div_pow2 by lia. change (2 ^ 1)%Z with 2%Z.
  pose proof (Z.div_mod order 2 ltac:(lia)).
  pose proof (Z.mod_pos_bound order 2 ltac:(lia)). lia.
Qed.

Lemma mod2_even (order : Z) : (order mod 2 =? 0)%Z = Z.even order.
Proof.
  rewrite Zeven_mod. reflexivity.
Qed.

Section Weights.

Context `{Libm}.

Variable linalg_inv : matrix -> result matrix.

(** [scipy.linalg.inv] returns a matrix with as many rows as its argument. *)
Hypothesis inv_total :
  forall X, exists M, linalg_inv X = Ok M /\ length M = length X.



End Weights.




(** * Multi-indices, [np.array] of a list and [.T] *)

Definition valid_index (idx s : list nat) : Prop := Forall2 lt idx s.

Lemma ravel_lt (s idx : list nat) :
  valid_index idx s -> ravel s idx < size_of s.
Proof.
  intros Hv. induction Hv as [|i d idx s Hi Hv IH]; simpl; [lia|]. nia.
Qed.

Lemma unravel_ravel (s idx : list nat) :
  valid_index idx s -> unravel s (ravel s idx) = idx.
Proof.
  intros Hv. induction Hv as [|i d idx s Hi Hv IH]; simpl; [reflexivity|].
  pose proof (ravel_lt s idx Hv) as Hr.
  rewrite Nat.div_add_l by lia. rewrite (Nat.div_small (ravel s idx)) by lia.
  rewrite Nat.add_0_r. f_equal.
  rewrite Nat.add_comm, Nat.Div0.mod_add, Nat.mod_small by lia. exact IH.
Qed.

Lemma valid_index_rev (idx s : list nat) :
  valid_index idx s -> valid_index (rev idx) (rev s).
Proof.
  intros Hv. induction Hv as [|i d idx s Hi Hv IH]; simpl; [constructor|].
  apply Forall2_app; [exact IH|]. repeat constructor. exact Hi.
Qed.

Lemma valid_index_app (idx s : list nat) (i d : nat) :
  valid_index idx s -> i < d -> valid_index (idx ++ [i]) (s ++ [d]).
Proof.
  intros Hv Hi. apply Forall2_app; [exact Hv|]. repeat constructor. exact Hi.
Qed.

(** Reading [a.T] at a multi-index is reading [a] at the reversed one. *)
Lemma transpose_get (a : ndarray) (idx : list nat) :
  valid_index idx (rev (shape a)) ->
  nth (ravel (rev (shape a)) idx) (data (transpose a)) nan
  = nth (ravel (shape a) (rev idx)) (data a) nan.
Proof.
  intros Hv. unfold transpose. cbn [data].
  rewrite nth_map_seq by (now apply ravel_lt).
  now rewrite unravel_ravel.
Qed.

Lemma nth_zip_with (g : float -> float -> float) (u v : list float) (q : nat) :
  q < length u -> q < length v ->
  nth q (zip_with g u v) nan = g (nth q u nan) (nth q v nan).
Proof.
  revert v q. induction u as [|a u IH]; intros [|b v] q Hu Hv; simpl in *;
    try lia.
  destruct q as [|q]; [reflexivity|]. apply IH; lia.
Qed.

Lemma length_zip_with (g : float -> float -> float) (u v : list float) :
  length u = length v -> length (zip_with g u v) = length u.
Proof.
  revert v. induction u as [|a u IH]; intros [|b v] H; simpl in *;
    try lia. now rewrite IH by lia.
Qed.

Section Stack.

Variables (fs : list nat) (n : nat) (parts : list ndarray).
Hypothesis Hn : 1 <= n.
Hypothesis Hlen : length parts = n.
Hypothesis Hparts : Forall (fun p => shape p = fs /\ wf_ndarray p) parts.

Lemma np_array_stack :
  np_array parts = Ok (mk_ndarray (n :: fs) (concat (map data parts))).
Proof.
  unfold np_array. destruct parts as [|p parts']; [simpl in Hlen; lia|].
  inversion Hparts as [|? ? [Hp _] Hrest]; subst.
  rewrite (proj2 (forallb_forall _ _)); [reflexivity|].
  intros q Hq. rewrite Forall_forall in Hrest.
  destruct (Hrest q Hq) as [-> _]. apply shape_eqb_refl.
Qed.

Lemma stack_rectangular : rectangular n (size_of fs) (map data parts).
Proof.
  split; [now rewrite length_map|]. apply Forall_map.
  eapply Forall_impl; [|exact Hparts].
  intros p [Hs Hw]. unfold wf_ndarray in Hw. now rewrite Hw, Hs.
Qed.

(** The stacked partials, transposed: the last axis of the result is the
    position in the list, the earlier axes are the axes of one part in
    reverse order. *)
Lemma stack_transpose_get (J : list nat) (i : nat) :
  valid_index J (rev fs) -> i < n ->
  let G := transpose (mk_ndarray (n :: fs) (concat (map data parts))) in
  shape G = rev fs ++ [n]
  /\ nth (ravel (rev fs ++ [n]) (J ++ [i])) (data G) nan
     = nth (ravel fs (rev J)) (data (nth i parts (mk_ndarray [] []))) nan.
Proof.
  intros HJ Hi G. split; [reflexivity|].
  unfold G. change (rev fs ++ [n]) with (rev (shape (mk_ndarray (n :: fs)
    (concat (map data parts))))).
  rewrite transpose_get by (cbn [shape rev]; now apply valid_index_app).
  cbn [shape data]. rewrite rev_app_distr. cbn [rev app ravel].
  assert (Hq : ravel fs (rev J) < size_of fs).
  { apply ravel_lt. rewrite <- (rev_involutive fs).
    now apply valid_index_rev. }
  pose proof (nth_error_concat n (size_of fs) (map data parts) i
                (ravel fs (rev J)) stack_rectangular Hi Hq) as Hc.
  rewrite (nth_error_nth _ _ _ Hc). unfold entry.
  change (@nil float) with (data (mk_ndarray [] [])).
  now rewrite (map_nth data).
Qed.

End Stack.

(** * The gradient stencils *)

Lemma mapM_enumerate_from {A B : Type} (body : nat * A -> result B)
  (g : nat -> B) (d : A) (l : list A) (k : nat) :
  (forall i, i < length l -> body (k + i, nth i l d) = Ok (g (k + i))) ->
  mapM body (combine (seq k (length l)) l) = Ok (map g (seq k (length l))).
Proof.
  revert k. induction l as [|a l IH]; intros k Hb; simpl; [reflexivity|].
  pose proof (Hb 0 ltac:(simpl; lia)) as H0. rewrite Nat.add_0_r in H0.
  simpl in H0. rewrite H0. cbn [bind]. rewrite (IH (S k)); [reflexivity|].
  intros i Hi. specialize (Hb (S i) ltac:(simpl; lia)).
  rewrite Nat.add_succ_r in Hb. exact Hb.
Qed.

Lemma mapM_enumerate {A B : Type} (body : nat * A -> result B)
  (g : nat -> B) (d : A) (l : list A) :
  (forall i, i < length l -> body (i, nth i l d) = Ok (g i)) ->
  mapM body (combine (seq 0 (length l)) l) = Ok (map g (seq 0 (length l))).
Proof. intros Hb. now apply (mapM_enumerate_from body g d l 0). Qed.

Lemma length_increments (n : nat) (h : list float) :
  length (Gradient.increments n h) = n.
Proof. unfold Gradient.increments. now rewrite length_map, length_seq. Qed.

Lemma nth_increments (n : nat) (h : list float) (i : nat) :
  i < n ->
  nth i (Gradient.increments n h) []
  = map (fun j => (if Nat.eqb i j then 1 else 0) * nth j h nan)%float
      (seq 0 n).
Proof.
  intros Hi. unfold Gradient.increments.
  now rewrite (nth_map_seq _ [] n i Hi).
Qed.

Lemma vectors_vec (x h : list float) :
  length h = length x -> vectors (vec x) (vec h) = Ok (x, h).
Proof.
  intros Hl. unfold vectors, is_vector, vec. cbn [shape data shape_eqb].
  now rewrite !Nat.eqb_refl, Hl, Nat.eqb_refl.
Qed.

Lemma getitem_nth (l : list float) (i : nat) :
  i < length l -> getitem l i = Ok (nth i l nan).
Proof.
  intros Hi. unfold getitem. now rewrite (nth_error_nth' l nan Hi).
Qed.

(** One partial: the difference of two values of the target over a step. *)
Definition quotient (a b : ndarray) (c : float) : ndarray :=
  nd_div_scalar (mk_ndarray (shape a) (zip_with PrimFloat.sub (data a) (data b)))
    c.

Lemma quotient_spec (fs : list nat) (a b : ndarray) (c : float) :
  shape a = fs -> wf_ndarray a -> shape b = fs -> wf_ndarray b ->
  nd_map2 PrimFloat.sub a b = Ok (mk_ndarray (shape a)
                                    (zip_with PrimFloat.sub (data a) (data b)))
  /\ shape (quotient a b c) = fs /\ wf_ndarray (quotient a b c)
  /\ forall q, q < size_of fs ->
       nth q (data (quotient a b c)) nan
       = ((nth q (data a) nan - nth q (data b) nan) / c)%float.
Proof.
  unfold wf_ndarray. intros Ha Hwa Hb Hwb. rewrite Ha in Hwa. rewrite Hb in Hwb.
  repeat split.
  - unfold nd_map2. now rewrite Ha, Hb, shape_eqb_refl.
  - exact Ha.
  - unfold wf_ndarray, quotient, nd_div_scalar, nd_map. cbn [shape data].
    rewrite length_map, length_zip_with by lia. now rewrite Ha.
  - intros q Hq. unfold quotient, nd_div_scalar, nd_map. cbn [shape data].
    rewrite (nth_indep _ nan ((fun v => v / c)%float nan))
      by (rewrite length_map, length_zip_with; lia).
    rewrite (map_nth (fun v => v / c)%float).
    now rewrite nth_zip_with by lia.
Qed.

Section GradientStencils.

Variables (f : target) (x h : list float) (fs : list nat) (f0 : ndarray).
Variables (FP FM : nat -> ndarray).

Let n := length x.

Hypothesis Hn : 1 <= n.
Hypothesis Hh : length h = n.
Hypothesis Hf0 : on_real f (vec x) = Ok f0 /\ shape f0 = fs /\ wf_ndarray f0.
Hypothesis HFP : forall i, i < n ->
  on_real f (vec (vadd x (nth i (Gradient.increments n h) []))) = Ok (FP i)
  /\ shape (FP i) = fs /\ wf_ndarray (FP i).
Hypothesis HFM : forall i, i < n ->
  on_real f (vec (vsub x (nth i (Gradient.increments n h) []))) = Ok (FM i)
  /\ shape (FM i) = fs /\ wf_ndarray (FM i).

Definition stacked (partial : nat -> ndarray) : ndarray :=
  transpose
    (mk_ndarray (n :: fs) (concat (map data (map partial (seq 0 n))))).

Lemma stacked_Ok (partial : nat -> ndarray) :
  (forall i, i < n -> shape (partial i) = fs /\ wf_ndarray (partial i)) ->
  (a <- np_array (map partial (seq 0 n)) ;; Ok (transpose a))
  = Ok (stacked partial).
Proof.
  intros Hp. rewrite (np_array_stack fs n); auto.
  - now rewrite length_map, length_seq.
  - apply Forall_map, Forall_forall. intros i Hi. apply in_seq in Hi.
    apply Hp. lia.
Qed.

Lemma stacked_get (partial : nat -> ndarray) (J : list nat) (i : nat) :
  (forall i, i < n -> shape (partial i) = fs /\ wf_ndarray (partial i)) ->
  valid_index J (rev fs) -> i < n ->
  nth (ravel (rev fs ++ [n]) (J ++ [i])) (data (stacked partial)) nan
  = nth (ravel fs (rev J)) (data (partial i)) nan.
Proof.
  intros Hp HJ Hi.
  destruct (stack_transpose_get fs n (map partial (seq 0 n))) with (J := J)
    (i := i) as [_ Hg]; auto.
  - now rewrite length_map, length_seq.
  - apply Forall_map, Forall_forall. intros k Hk. apply in_seq in Hk.
    apply Hp. lia.
  - unfold stacked. rewrite Hg.
    now rewrite (nth_map_seq partial (mk_ndarray [] []) n i Hi).
Qed.

Lemma forward_Ok :
  Gradient._forward f (vec x) (vec h)
  = Ok (stacked (fun i => quotient (FP i) f0 (nth i h nan))).
Proof.
  destruct Hf0 as [H0 [Hs0 Hw0]].
  unfold Gradient._forward. rewrite vectors_vec by exact Hh. cbn [bind].
  rewrite H0. cbn [bind]. fold n. rewrite <- (length_increments n h) at 1.
  rewrite (mapM_enumerate _
             (fun i => quotient (FP i) f0 (nth i h nan)) []).
  - cbn [bind]. rewrite length_increments. apply stacked_Ok.
    intros i Hi. destruct (HFP i Hi) as [_ [Hs Hw]].
    destruct (quotient_spec fs (FP i) f0 (nth i h nan) Hs Hw Hs0 Hw0)
      as [_ [? [? _]]]. auto.
  - intros i Hi. rewrite length_increments in Hi.
    destruct (HFP i Hi) as [Hc [Hs Hw]]. rewrite Hc. cbn [bind].
    destruct (quotient_spec fs (FP i) f0 (nth i h nan) Hs Hw Hs0 Hw0)
      as [Hsub _]. rewrite Hsub. cbn [bind].
    rewrite getitem_nth by lia. reflexivity.
Qed.

Lemma backward_Ok :
  Gradient._backward f (vec x) (vec h)
  = Ok (stacked (fun i => quotient f0 (FM i) (nth i h nan))).
Proof.
  destruct Hf0 as [H0 [Hs0 Hw0]].
  unfold Gradient._backward. rewrite vectors_vec by exact Hh. cbn [bind].
  rewrite H0. cbn [bind]. fold n. rewrite <- (length_increments n h) at 1.
  rewrite (mapM_enumerate _
             (fun i => quotient f0 (FM i) (nth i h nan)) []).
  - cbn [bind]. rewrite length_increments. apply stacked_Ok.
    intros i Hi. destruct (HFM i Hi) as [_ [Hs Hw]].
    destruct (quotient_spec fs f0 (FM i) (nth i h nan) Hs0 Hw0 Hs Hw)
      as [_ [? [? _]]]. auto.
  - intros i Hi. rewrite length_increments in Hi.
    destruct (HFM i Hi) as [Hc [Hs Hw]]. rewrite Hc. cbn [bind].
    destruct (quotient_spec fs f0 (FM i) (nth i h nan) Hs0 Hw0 Hs Hw)
      as [Hsub _]. rewrite Hsub. cbn [bind].
    rewrite getitem_nth by lia. reflexivity.
Qed.

Lemma central_Ok :
  Gradient._central f (vec x) (vec h)
  = Ok (stacked (fun i => quotient (FP i) (FM i) (nth i h nan * 2)%float)).
Proof.
  unfold Gradient._central. rewrite vectors_vec by exact Hh. cbn [bind].
  fold n. rewrite <- (length_increments n h) at 1.
  rewrite (mapM_enumerate _
             (fun i => quotient (FP i) (FM i) (nth i h nan * 2)%float) []).
  - cbn [bind]. rewrite length_increments. apply stacked_Ok.
    intros i Hi. destruct (HFP i Hi) as [_ [Hs Hw]].
    destruct (HFM i Hi) as [_ [Hs' Hw']].
    destruct (quotient_spec fs (FP i) (FM i) (nth i h nan * 2)%float
                Hs Hw Hs' Hw') as [_ [? [? _]]]. auto.
  - intros i Hi. rewrite length_increments in Hi.
    destruct (HFP i Hi) as [Hc [Hs Hw]]. rewrite Hc. cbn [bind].
    destruct (HFM i Hi) as [Hc' [Hs' Hw']]. rewrite Hc'. cbn [bind].
    destruct (quotient_spec fs (FP i) (FM i) (nth i h nan * 2)%float
                Hs Hw Hs' Hw') as [Hsub _]. rewrite Hsub. cbn [bind].
    rewrite getitem_nth by (rewrite length_map; lia).
    rewrite (nth_indep _ nan ((fun v => v * 2)%float nan))
      by (rewrite length_map; lia).
    now rewrite (map_nth (fun v => v * 2)%float).
Qed.

End GradientStencils.

(** C4 (as amended): a gradient/Jacobian stencil perturbs coordinate [i]
    of [x] by row [i] of the identity-scaled increment matrix (zero but for
    [h[i]] at position [i]) and stacks the partials along a new first
    axis; the transposition reverses all axes, so that the LAST axis of the
    result indexes the input coordinate and the earlier axes are the axes
    of the value of [f], reversed.  When [f] returns a matrix the result
    has rank 3. *)
Theorem Gradient_stencils_transpose_partials
  (f : target) (x h : list float) (fs : list nat) (f0 : ndarray)
  (FP FM : nat -> ndarray) :
  let n := length x in
  1 <= n -> length h = n ->
  on_real f (vec x) = Ok f0 /\ shape f0 = fs /\ wf_ndarray f0 ->
  (forall i, i < n ->
     on_real f (vec (vadd x (nth i (Gradient.increments n h) []))) = Ok (FP i)
     /\ shape (FP i) = fs /\ wf_ndarray (FP i)) ->
  (forall i, i < n ->
     on_real f (vec (vsub x (nth i (Gradient.increments n h) []))) = Ok (FM i)
     /\ shape (FM i) = fs /\ wf_ndarray (FM i)) ->
  (forall i j, i < n -> j < n ->
     nth j (nth i (Gradient.increments n h) []) nan
     = ((if Nat.eqb i j then 1 else 0) * nth j h nan)%float)
  /\ exists Gf Gc Gb,
       Gradient._forward f (vec x) (vec h) = Ok Gf
       /\ Gradient._central f (vec x) (vec h) = Ok Gc
       /\ Gradient._backward f (vec x) (vec h) = Ok Gb
       /\ shape Gf = rev fs ++ [n] /\ shape Gc = rev fs ++ [n]
       /\ shape Gb = rev fs ++ [n]
       /\ (forall a b, fs = [a; b] -> shape Gf = [b; a; n])
       /\ forall J i, valid_index J (rev fs) -> i < n ->
            let k := ravel (rev fs ++ [n]) (J ++ [i]) in
            let q := ravel fs (rev J) in
            nth k (data Gf) nan
            = ((nth q (data (FP i)) nan - nth q (data f0) nan)
               / nth i h nan)%float
            /\ nth k (data Gc) nan
               = ((nth q (data (FP i)) nan - nth q (data (FM i)) nan)
                  / (nth i h nan * 2))%float
            /\ nth k (data Gb) nan
               = ((nth q (data f0) nan - nth q (data (FM i)) nan)
                  / nth i h nan)%float.
Proof.
  intros n Hn Hh Hf0 HFP HFM. split.
  - intros i j Hi Hj. rewrite nth_increments by exact Hi.
    now rewrite (nth_map_seq _ nan n j Hj).
  - exists (stacked x fs (fun i => quotient (FP i) f0 (nth i h nan))),
      (stacked x fs (fun i => quotient (FP i) (FM i) (nth i h nan * 2)%float)),
      (stacked x fs (fun i => quotient f0 (FM i) (nth i h nan))).
    split; [now apply (forward_Ok f x h fs f0 FP)|].
    split; [now apply (central_Ok f x h fs FP FM)|].
    split; [now apply (backward_Ok f x h fs f0 FM)|].
    destruct Hf0 as [H0 [Hs0 Hw0]].
    split; [reflexivity|]. split; [reflexivity|]. split; [reflexivity|].
    split; [intros a b ->; reflexivity|].
    intros J i HJ Hi k q.
    assert (Hq : q < size_of fs).
    { apply ravel_lt. rewrite <- (rev_involutive fs).
      now apply valid_index_rev. }
    destruct (HFP i Hi) as [_ [Hsp Hwp]]. destruct (HFM i Hi) as [_ [Hsm Hwm]].
    unfold k. rewrite !(stacked_get x h fs Hn Hh _ J i); auto.
    + fold q.
      destruct (quotient_spec fs (FP i) f0 (nth i h nan) Hsp Hwp Hs0 Hw0)
        as [_ [_ [_ E1]]].
      destruct (quotient_spec fs (FP i) (FM i) (nth i h nan * 2)%float
                  Hsp Hwp Hsm Hwm) as [_ [_ [_ E2]]].
      destruct (quotient_spec fs f0 (FM i) (nth i h nan) Hs0 Hw0 Hsm Hwm)
        as [_ [_ [_ E3]]].
      rewrite E1, E2, E3 by exact Hq. auto.
    + intros i' Hi'. destruct (HFM i' Hi') as [_ [Hs' Hw']].
      destruct (quotient_spec fs f0 (FM i') (nth i' h nan) Hs0 Hw0 Hs' Hw')
        as [_ [? [? _]]]. auto.
    + intros i' Hi'. destruct (HFP i' Hi') as [_ [Hs' Hw']].
      destruct (HFM i' Hi') as [_ [Hs'' Hw'']].
      destruct (quotient_spec fs (FP i') (FM i') (nth i' h nan * 2)%float
                  Hs' Hw' Hs'' Hw'') as [_ [? [? _]]]. auto.
    + intros i' Hi'. destruct (HFP i' Hi') as [_ [Hs' Hw']].
      destruct (quotient_spec fs (FP i') f0 (nth i' h nan) Hs' Hw' Hs0 Hw0)
        as [_ [? [? _]]]. auto.
Qed.

(** A target from two inputs to three outputs: [f(u, v) = (u, v, u + v)]. *)
Definition two_to_three : target :=
  mk_target
    (fun a => match data a with
              | [u; v] => Ok (mk_ndarray [3] [u; v; u + v]%float)
              | _ => Raise (TargetError 0)
              end)
    (fun a => match cdata a with
              | [u; v] => Ok (mk_cndarray [3] [u; v; c_add u v])
              | _ => Raise (TargetError 0)
              end).

Lemma Gradient_stencils_transpose_partials_witness :
  exists Gf Gc Gb,
    Gradient._forward two_to_three (vec [1; 2]%float) (vec [0.5; 0.25]%float)
    = Ok Gf
    /\ Gradient._central two_to_three (vec [1; 2]%float)
         (vec [0.5; 0.25]%float) = Ok Gc
    /\ Gradient._backward two_to_three (vec [1; 2]%float)
         (vec [0.5; 0.25]%float) = Ok Gb
    /\ shape Gf = [3; 2] /\ shape Gc = [3; 2] /\ shape Gb = [3; 2].
Proof.
  destruct (Gradient_stencils_transpose_partials two_to_three
              [1; 2]%float [0.5; 0.25]%float [3]
              (mk_ndarray [3] [1; 2; 3]%float)
              (fun i => nth i [mk_ndarray [3] [1.5; 2; 3.5]%float;
                               mk_ndarray [3] [1; 2.25; 3.25]%float]
                          (mk_ndarray [] []))
              (fun i => nth i [mk_ndarray [3] [0.5; 2; 2.5]%float;
                               mk_ndarray [3] [1; 1.75; 2.75]%float]
                          (mk_ndarray [] [])))
    as [_ [Gf [Gc [Gb [Hf [Hc [Hb [Hsf [Hsc [Hsb _]]]]]]]]]].
  - simpl. lia.
  - reflexivity.
  - repeat split.
  - intros i Hi. destruct i as [|[|i]]; [repeat split..|simpl in Hi; lia].
  - intros i Hi. destruct i as [|[|i]]; [repeat split..|simpl in Hi; lia].
  - exists Gf, Gc, Gb. repeat split; assumption.
Defined.

(** C4, the counterexample: for [f(u, v) = (u, v, u + v)] at [(1, 2)] the
    forward stencil returns an array of shape (3, 2), row [k] holding the
    partials of output [k]: its last axis (of length 2) indexes the input
    coordinate and its first axis the output, not the other way round. *)
Lemma Gradient_last_axis_is_input_coordinate :
  Gradient._forward two_to_three (vec [1; 2]%float) (vec [0.5; 0.25]%float)
  = Ok (mk_ndarray [3; 2] [1; 0; 0; 1; 1; 1]%float).
Proof. reflexivity. Qed.

(** * Symmetry of the Hessian stencils *)

Lemma length_list_set {A : Type} (l : list A) (i : nat) (v : A) :
  length (list_set l i v) = length l.
Proof.
  revert i. induction l as [|a l IH]; intros [|i]; simpl; auto.
Qed.

Lemma nth_list_set_same {A : Type} (l : list A) (i : nat) (v d : A) :
  i < length l -> nth i (list_set l i v) d = v.
Proof.
  revert i. induction l as [|a l IH]; intros [|i] Hi; simpl in *; try lia;
    auto. apply IH. lia.
Qed.

Lemma nth_list_set_other {A : Type} (l : list A) (i j : nat) (v d : A) :
  i <> j -> nth j (list_set l i v) d = nth j l d.
Proof.
  revert i j. induction l as [|a l IH]; intros [|i] [|j] Hij; simpl; auto;
    try congruence. 
Qed.

Lemma rectangular_row (R C : nat) (m : matrix) (i : nat) :
  rectangular R C m -> i < R -> length (row m i) = C.
Proof.
  intros [HR HC] Hi. rewrite Forall_forall in HC. apply HC.
  apply nth_In. lia.
Qed.

Lemma mat_set_rectangular (R C : nat) (m : matrix) (i j : nat) (v : float) :
  rectangular R C m -> rectangular R C (mat_set m i j v).
Proof.
  intros [HR HC]. unfold mat_set. split; [now rewrite length_list_set|].
  apply Forall_forall. intros r Hr.
  destruct (In_nth _ _ [] Hr) as [k [Hk <-]]. rewrite length_list_set in Hk.
  destruct (Nat.eq_dec i k) as [->|Hne].
  - rewrite nth_list_set_same by exact Hk. rewrite length_list_set.
    apply (rectangular_row R C m k); [split; auto|lia].
  - rewrite nth_list_set_other by exact Hne.
    apply (rectangular_row R C m k); [split; auto|lia].
Qed.

Lemma mat_get_set_same (R C : nat) (m : matrix) (i j : nat) (v : float) :
  rectangular R C m -> i < R -> j < C ->
  mat_get (mat_set m i j v) i j = v.
Proof.
  intros Hm Hi Hj. unfold mat_get, mat_set, row at 1.
  rewrite nth_list_set_same by (destruct Hm; lia).
  apply nth_list_set_same. rewrite (rectangular_row R C m i Hm Hi). exact Hj.
Qed.

Lemma mat_get_set_other (m : matrix) (i j a b : nat) (v : float) :
  (a, b) <> (i, j) -> mat_get (mat_set m i j v) a b = mat_get m a b.
Proof.
  intros Hne. unfold mat_get, mat_set, row at 1.
  destruct (Nat.eq_dec i a) as [->|Hia].
  - destruct (Nat.lt_ge_cases a (length m)) as [Ha|Ha].
    + rewrite nth_list_set_same by exact Ha.
      apply nth_list_set_other. congruence.
    + unfold row. rewrite (nth_overflow (list_set m a _)) 
        by (now rewrite length_list_set).
      now rewrite (nth_overflow m) by exact Ha.
  - now rewrite nth_list_set_other by exact Hia.
Qed.

Section AssignPair.

Variables (n : nat) (m : matrix) (i j : nat) (v : float).
Hypothesis Hm : rectangular n n m.
Hypothesis Hi : i < n.
Hypothesis Hj : j < n.

Lemma assign_pair_rectangular : rectangular n n (Hessian.assign_pair m i j v).
Proof. unfold Hessian.assign_pair. now repeat apply mat_set_rectangular. Qed.

Lemma assign_pair_symmetric :
  mat_get (Hessian.assign_pair m i j v) i j
  = mat_get (Hessian.assign_pair m i j v) j i.
Proof.
  unfold Hessian.assign_pair.
  pose proof (mat_set_rectangular n n m i j v Hm) as Hm1.
  rewrite (mat_get_set_same n n (mat_set m i j v) j i) by assumption.
  destruct (Nat.eq_dec i j) as [->|Hne].
  - now rewrite (mat_get_set_same n n (mat_set m j j v) j j) by assumption.
  - now rewrite mat_get_set_other by congruence.
Qed.

Lemma assign_pair_other (a b : nat) :
  (a, b) <> (i, j) -> (a, b) <> (j, i) ->
  mat_get (Hessian.assign_pair m i j v) a b = mat_get m a b.
Proof.
  intros H1 H2. unfold Hessian.assign_pair.
  now rewrite !mat_get_set_other by assumption.
Qed.

End AssignPair.

(** The double loop of a Hessian stencil, whatever value it stores: every
    body ends in [hess[i, j] = v; hess[j, i] = hess[i, j]]. *)
Definition stores_pairs (body : matrix -> nat * nat -> result matrix) : Prop :=
  forall hess ij hess',
    body hess ij = Ok hess' ->
    exists v, hess' = Hessian.assign_pair hess (fst ij) (snd ij) v.

Definition ordered_below (n : nat) (ij : nat * nat) : Prop :=
  fst ij <= snd ij /\ snd ij < n.

Lemma pair_loop_invariant (n : nat)
  (body : matrix -> nat * nat -> result matrix) (L : list (nat * nat)) :
  stores_pairs body -> Forall (ordered_below n) L ->
  forall hess0 hess',
    rectangular n n hess0 -> foldM body L hess0 = Ok hess' ->
    rectangular n n hess'
    /\ (forall ij, In ij L ->
          mat_get hess' (fst ij) (snd ij) = mat_get hess' (snd ij) (fst ij))
    /\ (forall ab, ordered_below n ab ->
          mat_get hess0 (fst ab) (snd ab) = mat_get hess0 (snd ab) (fst ab) ->
          mat_get hess' (fst ab) (snd ab) = mat_get hess' (snd ab) (fst ab)).
Proof.
  intros Hbody HL. induction HL as [|[i j] L [Hij Hj] HL IH];
    intros hess0 hess' Hrect Hfold; simpl in Hfold.
  - inversion Hfold; subst. split; [assumption|].
    split; [intros ij []|auto].
  - cbn [fst snd] in Hij, Hj.
    destruct (body hess0 (i, j)) as [hess1|e] eqn:Hb; [|discriminate].
    cbn [bind] in Hfold.
    destruct (Hbody hess0 (i, j) hess1 Hb) as [v ->]. cbn [fst snd] in *.
    assert (Hi : i < n) by lia.
    pose proof (assign_pair_rectangular n hess0 i j v Hrect) as Hrect1.
    destruct (IH _ _ Hrect1 Hfold) as [Hrect' [Hsym Hkeep]].
    assert (Hstep : forall ab, ordered_below n ab ->
              mat_get hess0 (fst ab) (snd ab) = mat_get hess0 (snd ab) (fst ab) ->
              mat_get (Hessian.assign_pair hess0 i j v) (fst ab) (snd ab)
              = mat_get (Hessian.assign_pair hess0 i j v) (snd ab) (fst ab)).
    { intros [a b] [Hab Hb'] Hs. cbn [fst snd] in *.
      destruct (Nat.eq_dec a i) as [->|Hai];
        [destruct (Nat.eq_dec b j) as [->|Hbj]|].
      - now apply (assign_pair_symmetric n).
      - rewrite !assign_pair_other; auto; intros E; inversion E; lia.
      - rewrite !assign_pair_other; auto; intros E; inversion E; lia. }
    split; [assumption|]. split.
    + intros ij [<-|Hin]; [|now apply Hsym]. cbn [fst snd].
      apply (Hkeep (i, j)); [split; auto|]. cbn [fst snd].
      now apply (assign_pair_symmetric n).
    + intros ab Hab Hs. apply Hkeep; auto.
Qed.

Lemma upper_pairs_ordered (n : nat) :
  Forall (ordered_below n) (Hessian.upper_pairs n).
Proof.
  apply Forall_forall. intros [i j] Hin. unfold Hessian.upper_pairs in Hin.
  apply in_flat_map in Hin. destruct Hin as [i' [Hi' Hin]].
  apply in_map_iff in Hin. destruct Hin as [j' [E Hj']]. inversion E; subst.
  apply in_seq in Hi'. apply in_seq in Hj'. split; cbn [fst snd]; lia.
Qed.

Lemma upper_pairs_In (n i j : nat) :
  i <= j -> j < n -> In (i, j) (Hessian.upper_pairs n).
Proof.
  intros Hij Hj. unfold Hessian.upper_pairs. apply in_flat_map.
  exists i. split; [apply in_seq; lia|]. apply in_map, in_seq. lia.
Qed.

(** After the double loop over the upper triangle the matrix is symmetric. *)
Lemma pair_loop_symmetric (n : nat)
  (body : matrix -> nat * nat -> result matrix) (hess0 hess' : matrix) :
  stores_pairs body -> rectangular n n hess0 ->
  foldM body (Hessian.upper_pairs n) hess0 = Ok hess' ->
  rectangular n n hess'
  /\ forall i j, i < n -> j < n -> mat_get hess' i j = mat_get hess' j i.
Proof.
  intros Hbody Hrect Hfold.
  destruct (pair_loop_invariant n body _ Hbody (upper_pairs_ordered n)
              hess0 hess' Hrect Hfold) as [Hrect' [Hsym _]].
  split; [exact Hrect'|]. intros i j Hi Hj.
  destruct (Nat.le_ge_cases i j) as [Hij|Hji].
  - apply (Hsym (i, j)). now apply upper_pairs_In.
  - symmetry. apply (Hsym (j, i)). now apply upper_pairs_In.
Qed.

(** A square array that equals its transpose, element by element. *)
Definition symmetric_nd (n : nat) (a : ndarray) : Prop :=
  shape a = [n; n]
  /\ length (data a) = n * n
  /\ forall i j, i < n -> j < n ->
       nth (i * n + j) (data a) nan = nth (j * n + i) (data a) nan.

Lemma nth_concat_mat_get (n : nat) (m : matrix) (i j : nat) :
  rectangular n n m -> i < n -> j < n ->
  nth (i * n + j) (concat m) nan = mat_get m i j.
Proof.
  intros Hm Hi Hj.
  now rewrite (nth_error_nth _ _ _ (nth_error_concat n n m i j Hm Hi Hj)).
Qed.

Lemma as_array_symmetric (n : nat) (hess : matrix) :
  rectangular n n hess ->
  (forall i j, i < n -> j < n -> mat_get hess i j = mat_get hess j i) ->
  symmetric_nd n (Hessian.as_array n hess).
Proof.
  intros Hm Hs. unfold symmetric_nd, Hessian.as_array. cbn [shape data].
  split; [reflexivity|]. split.
  - apply (length_concat_rectangular n n hess Hm).
  - intros i j Hi Hj. rewrite !(nth_concat_mat_get n) by assumption.
    now apply Hs.
Qed.

Lemma vectors_inv (x h : ndarray) (xv hv : list float) :
  vectors x h = Ok (xv, hv) ->
  xv = data x /\ hv = data h /\ length (data h) = length (data x).
Proof.
  unfold vectors.
  destruct (is_vector x && is_vector h
            && Nat.eqb (length (data x)) (length (data h))) eqn:E;
    [|discriminate].
  intros Hv. inversion Hv; subst.
  apply andb_prop in E. destruct E as [_ E]. apply Nat.eqb_eq in E. auto.
Qed.

Lemma outer_rectangular (u v : list float) :
  rectangular (length u) (length v) (Hessian.outer u v).
Proof.
  unfold Hessian.outer. split; [apply length_map|].
  apply Forall_map, Forall_forall. intros a _. apply length_map.
Qed.

Lemma map_map_rectangular (R C : nat) (g : float -> float) (m : matrix) :
  rectangular R C m -> rectangular R C (map (map g) m).
Proof.
  intros [HR HC]. split; [now rewrite length_map|].
  apply Forall_map. eapply Forall_impl; [|exact HC].
  intros r Hr. now rewrite length_map.
Qed.

Ltac stores_pairs_tac :=
  let hess := fresh "hess" in
  let i := fresh "i" in
  let j := fresh "j" in
  let hess' := fresh "hess'" in
  let Hb := fresh "Hb" in
  intros hess [i j] hess' Hb; cbn [fst snd];
  repeat match type of Hb with
         | context [bind ?r _] =>
             destruct r; cbn [bind] in Hb; [|discriminate Hb]
         end;
  inversion Hb; eexists; reflexivity.

Ltac finish_stencil n Hl Hfold :=
  match type of Hfold with
  | foldM ?body _ ?hess0 = Ok ?hess' =>
      let Hrect := fresh "Hrect" in
      assert (Hrect : rectangular n n hess0);
      [ try apply map_map_rectangular;
        rewrite <- Hl; apply outer_rectangular
      | let Hs := fresh "Hs" in
        assert (Hs : stores_pairs body) by stores_pairs_tac;
        destruct (pair_loop_symmetric n body hess0 hess' Hs Hrect Hfold);
        now apply as_array_symmetric ]
  end.

Section HessianStencils.

Variables (f : target) (x h R : ndarray).

Lemma Hessian_central_symmetric :
  Hessian._central f x h = Ok R -> symmetric_nd (length (data x)) R.
Proof.
  unfold Hessian._central.
  destruct (vectors x h) as [[xv hv]|e] eqn:Hv; [|discriminate]. cbn [bind].
  destruct (vectors_inv x h xv hv Hv) as [-> [-> Hl]].
  destruct (foldM _ _ _) as [hess|e] eqn:Hfold; [|discriminate]. cbn [bind].
  intros HR. inversion HR; subst R.
  finish_stencil (length (data x)) Hl Hfold.
Qed.

Lemma Hessian_complex_symmetric :
  Hessian._complex f x h = Ok R -> symmetric_nd (length (data x)) R.
Proof.
  unfold Hessian._complex.
  destruct (vectors x h) as [[xv hv]|e] eqn:Hv; [|discriminate]. cbn [bind].
  destruct (vectors_inv x h xv hv Hv) as [-> [-> Hl]].
  destruct (foldM _ _ _) as [hess|e] eqn:Hfold; [|discriminate]. cbn [bind].
  intros HR. inversion HR; subst R.
  finish_stencil (length (data x)) Hl Hfold.
Qed.

Lemma Hessian_central2_symmetric :
  Hessian._central2 f x h = Ok R -> symmetric_nd (length (data x)) R.
Proof.
  unfold Hessian._central2.
  destruct (vectors x h) as [[xv hv]|e] eqn:Hv; [|discriminate]. cbn [bind].
  destruct (vectors_inv x h xv hv Hv) as [-> [-> Hl]].
  destruct (Hessian.call f (data x)) as [f0|e]; [|discriminate]. cbn [bind].
  destruct (mapM _ _) as [ggg|e]; [|discriminate]. cbn [bind].
  destruct (foldM _ _ _) as [hess|e] eqn:Hfold; [|discriminate]. cbn [bind].
  intros HR. inversion HR; subst R.
  finish_stencil (length (data x)) Hl Hfold.
Qed.

End HessianStencils.

Lemma Hessian_forward_symmetric (f : target) (x h R : ndarray) :
  Hessian._forward f x h = Ok R -> symmetric_nd (length (data x)) R.
Proof.
  unfold Hessian._forward.
  destruct (vectors x h) as [[xv hv]|e] eqn:Hv; [|discriminate]. cbn [bind].
  destruct (vectors_inv x h xv hv Hv) as [-> [-> Hl]].
  destruct (Hessian.call f (data x)) as [f0|e]; [|discriminate]. cbn [bind].
  destruct (mapM _ _) as [g|e]; [|discriminate]. cbn [bind].
  destruct (foldM _ _ _) as [hess|e] eqn:Hfold; [|discriminate]. cbn [bind].
  intros HR. inversion HR; subst R.
  finish_stencil (length (data x)) Hl Hfold.
Qed.

Lemma Hessian_backward_symmetric (f : target) (x h R : ndarray) :
  Hessian._backward f x h = Ok R -> symmetric_nd (length (data x)) R.
Proof. apply Hessian_forward_symmetric. Qed.

(** Every stencil of the class returns a symmetric array. *)
Lemma Hessian_stencil_symmetric (method : string) (st : stencil)
  (f : target) (x h R : ndarray) :
  stencil_of Hessian.class method = Some st ->
  st f x h = Ok R -> symmetric_nd (length (data x)) R.
Proof.
  cbn [stencil_of Hessian.class].
  repeat match goal with
         | |- context [if ?b then _ else _] => destruct b
         end; intros Hst; inversion Hst; subst st;
    eauto using Hessian_central_symmetric, Hessian_complex_symmetric,
      Hessian_central2_symmetric, Hessian_forward_symmetric,
      Hessian_backward_symmetric.
Qed.

(** * Symmetry through the extrapolation *)

(** What the symmetry of the extrapolated Hessian needs from [dea3]: on
    three stacks of rows of one width it returns two stacks of that width
    and of one height, and it works element by element, so that columns
    equal in every input are equal in both outputs. *)
Definition dea3_elementwise
  (dea3 : bool -> matrix -> matrix -> matrix -> matrix * matrix) : Prop :=
  forall (symmetric : bool) (R C : nat) (v0 v1 v2 : matrix),
    rectangular R C v0 -> rectangular R C v1 -> rectangular R C v2 ->
    exists R',
      rectangular R' C (fst (dea3 symmetric v0 v1 v2))
      /\ rectangular R' C (snd (dea3 symmetric v0 v1 v2))
      /\ forall p q, p < C -> q < C ->
           column v0 p = column v0 q ->
           column v1 p = column v1 q ->
           column v2 p = column v2 q ->
           column (fst (dea3 symmetric v0 v1 v2)) p
           = column (fst (dea3 symmetric v0 v1 v2)) q
           /\ column (snd (dea3 symmetric v0 v1 v2)) p
              = column (snd (dea3 symmetric v0 v1 v2)) q.

Lemma mapM_nth {A B : Type} (f : A -> result B) (l : list A) (bs : list B)
  (da : A) (db : B) (k : nat) :
  mapM f l = Ok bs -> k < length l -> f (nth k l da) = Ok (nth k bs db).
Proof.
  revert bs k. induction l as [|a l IH]; simpl; intros bs k Hm Hk; [lia|].
  destruct (f a) as [b|e] eqn:Hfa; [|discriminate]. cbn [bind] in Hm.
  destruct (mapM f l) as [bs'|e]; [|discriminate]. cbn [bind] in Hm.
  inversion Hm; subst bs. destruct k as [|k]; [assumption|].
  simpl. apply IH; [reflexivity|lia].
Qed.

Lemma column_firstn (k : nat) (m : matrix) (p : nat) :
  column (firstn k m) p = firstn k (column m p).
Proof. unfold column. symmetry. apply firstn_map. Qed.

Lemma column_skipn (k : nat) (m : matrix) (p : nat) :
  column (skipn k m) p = skipn k (column m p).
Proof. unfold column. symmetry. apply skipn_map. Qed.

Lemma Forall_firstn_skipn {A : Type} (P : A -> Prop) (k : nat) (l : list A) :
  Forall P l -> Forall P (firstn k l) /\ Forall P (skipn k l).
Proof. intros Hl. apply Forall_app. now rewrite firstn_skipn. Qed.

Lemma rectangular_firstn (R C k : nat) (m : matrix) :
  rectangular R C m -> k <= R -> rectangular k C (firstn k m).
Proof.
  intros [HR HC] Hk. split.
  - rewrite length_firstn. lia.
  - now apply Forall_firstn_skipn.
Qed.

Lemma rectangular_skipn (R C k : nat) (m : matrix) :
  rectangular R C m -> rectangular (R - k) C (skipn k m).
Proof.
  intros [HR HC]. split.
  - rewrite length_skipn. lia.
  - now apply Forall_firstn_skipn.
Qed.

Lemma tied_rows_column (E : matrix) (p q : nat) :
  column E p = column E q -> tied_rows E p = tied_rows E q.
Proof. unfold tied_rows. now intros ->. Qed.

Lemma tied_rows_bound (E : matrix) (p r : nat) :
  In r (tied_rows E p) -> r < length E.
Proof.
  unfold tied_rows, flatnonzero.
  rewrite (flatnonzero_from_filter _ nan), length_column.
  intros Hin. apply filter_In in Hin. destruct Hin as [Hin _].
  apply in_seq in Hin. lia.
Qed.

Section Stages.

Variable dea3 : bool -> matrix -> matrix -> matrix -> matrix * matrix.
Hypothesis Hdea3 : dea3_elementwise dea3.

Lemma dea3_slices (symmetric : bool) (R C : nat) (res : matrix) (p q : nat) :
  rectangular R C res -> 3 <= R -> p < C -> q < C ->
  column res p = column res q ->
  let out := dea3 symmetric (firstn (R - 2) res)
               (firstn (R - 2) (skipn 1 res)) (skipn 2 res) in
  exists R',
    rectangular R' C (fst out) /\ rectangular R' C (snd out)
    /\ column (fst out) p = column (fst out) q
    /\ column (snd out) p = column (snd out) q.
Proof.
  intros Hres HR Hp Hq Hcol out.
  assert (H0 : rectangular (R - 2) C (firstn (R - 2) res)).
  { apply (rectangular_firstn R); [assumption|lia]. }
  assert (H1 : rectangular (R - 2) C (firstn (R - 2) (skipn 1 res))).
  { apply (rectangular_firstn (R - 1)); [|lia].
    now apply rectangular_skipn. }
  assert (H2 : rectangular (R - 2) C (skipn 2 res)).
  { now apply rectangular_skipn. }
  destruct (Hdea3 symmetric (R - 2) C _ _ _ H0 H1 H2) as [R' [Hd [He Hpq]]].
  exists R'. split; [exact Hd|]. split; [exact He|].
  apply Hpq; try assumption.
  - now rewrite !column_firstn, Hcol.
  - now rewrite !column_firstn, !column_skipn, Hcol.
  - now rewrite !column_skipn, Hcol.
Qed.

Lemma extrapolation_stages_columns (R C : nat) (res der errors : matrix)
  (p q : nat) :
  rectangular R C res -> 3 <= R -> p < C -> q < C ->
  column res p = column res q ->
  _Derivative.extrapolation_stages dea3 res = (der, errors) ->
  exists R',
    rectangular R' C der /\ rectangular R' C errors
    /\ column der p = column der q
    /\ column errors p = column errors q.
Proof.
  intros Hres HR Hp Hq Hcol. unfold _Derivative.extrapolation_stages.
  destruct Hres as [HlenR HC]. rewrite HlenR.
  destruct (dea3_slices true R C res p q (conj HlenR HC) HR Hp Hq Hcol)
    as [R1 [Hd1 [He1 [Hcd1 Hce1]]]].
  destruct (dea3 true _ _ _) as [der1 err1]. cbn [fst snd] in *.
  destruct (Nat.ltb_spec 2 (length der1)) as [Hlt|Hge].
  - intros Hst. destruct Hd1 as [HR1 HC1]. rewrite HR1 in *.
    destruct (dea3_slices false R1 C der1 p q (conj HR1 HC1) Hlt Hp Hq Hcd1)
      as [R2 H2].
    rewrite Hst in H2. cbn [fst snd] in H2. now exists R2.
  - intros Hst. inversion Hst; subst. now exists R1.
Qed.

End Stages.

Lemma vstack_inv (rows res : matrix) : vstack rows = Ok res -> res = rows.
Proof.
  unfold vstack. destruct rows as [|r rows]; [discriminate|].
  destruct (forallb _ _); [|discriminate]. intros Hv. now inversion Hv.
Qed.

Lemma reshape_inv (l : list float) (s : list nat) (a : ndarray) :
  reshape l s = Ok a -> a = mk_ndarray s l /\ length l = size_of s.
Proof.
  unfold reshape. destruct (Nat.eqb_spec (length l) (size_of s)) as [E|_];
    [|discriminate].
  intros Hr. inversion Hr. auto.
Qed.

Lemma get_arg_min_inv (E : matrix) (ix : list nat) :
  _Derivative._get_arg_min E = Ok ix ->
  E <> []
  /\ length ix = ncols E
  /\ forall k, k < ncols E ->
       In (upper_median (tied_rows E k)) (tied_rows E k)
       /\ nth k ix 0 = upper_median (tied_rows E k) * ncols E + k.
Proof.
  unfold _Derivative._get_arg_min.
  destruct (nanargmin_raises E) as [[]|e] eqn:Hn; [|discriminate].
  cbn [bind].
  destruct (mapM _ _) as [arg_mins|e] eqn:Hm; [|discriminate]. cbn [bind].
  intros Hix. inversion Hix as [Hix']. clear Hix.
  pose proof (mapM_length _ _ _ Hm) as Hlen. rewrite length_seq in Hlen.
  split.
  { intros ->. discriminate Hn. }
  split.
  { now rewrite length_map, length_combine, length_seq, Hlen, Nat.min_id. }
  intros k Hk.
  pose proof (mapM_nth _ _ _ 0 0 k Hm) as Hk'.
  rewrite length_seq in Hk'. specialize (Hk' Hk).
  rewrite seq_nth in Hk' by assumption. cbn [Nat.add] in Hk'.
  destruct (nth_error (tied_rows E k) (length (tied_rows E k) / 2))
    as [r|] eqn:Hr; [|discriminate].
  inversion Hk' as [Hr']. clear Hk'.
  assert (Hu : upper_median (tied_rows E k) = r).
  { unfold upper_median. now apply nth_error_nth. }
  rewrite Hu. split.
  - now apply nth_error_In in Hr.
  - rewrite (nth_indep _ 0
               ((fun ri : nat * nat => fst ri * ncols E + snd ri) (0, 0)))
      by (now rewrite length_map, length_combine, length_seq, Hlen,
            Nat.min_id).
    rewrite (map_nth (fun ri : nat * nat => fst ri * ncols E + snd ri)
               (combine arg_mins (seq 0 (ncols E))) (0, 0) k).
    rewrite combine_nth by (now rewrite length_seq).
    cbn [fst snd]. rewrite seq_nth by assumption. now rewrite <- Hr'.
Qed.

Lemma size_of_square (n : nat) : size_of [n; n] = n * n.
Proof. unfold size_of. simpl. lia. Qed.

Lemma symmetric_nd_rows (n : nat) (sequence : list ndarray) :
  Forall (symmetric_nd n) sequence ->
  rectangular (length sequence) (n * n) (map data sequence).
Proof.
  intros Hs. split; [apply length_map|].
  apply Forall_map. eapply Forall_impl; [|exact Hs].
  intros a [_ [Ha _]]. exact Ha.
Qed.

Lemma symmetric_nd_columns (n : nat) (sequence : list ndarray) (i j : nat) :
  Forall (symmetric_nd n) sequence -> i < n -> j < n ->
  column (map data sequence) (i * n + j)
  = column (map data sequence) (j * n + i).
Proof.
  intros Hs Hi Hj. unfold column. rewrite !map_map.
  apply map_ext_in. intros a Ha.
  rewrite Forall_forall in Hs. destruct (Hs a Ha) as [_ [_ Hsym]].
  now apply Hsym.
Qed.

Lemma flat_index_lt (n i j : nat) : i < n -> j < n -> i * n + j < n * n.
Proof. intros Hi Hj. nia. Qed.

(** The average of the fallback keeps the symmetry of its operands. *)
Lemma average_symmetric (n : nat) (a b s : ndarray) :
  symmetric_nd n a -> symmetric_nd n b ->
  nd_map2 PrimFloat.add a b = Ok s ->
  symmetric_nd n (nd_map (PrimFloat.mul 0.5) s).
Proof.
  intros [Hsa [Hla Ha]] [Hsb [Hlb Hb]]. unfold nd_map2.
  destruct (shape_eqb (shape a) (shape b)); [|discriminate].
  intros Hs. inversion Hs; subst s. unfold symmetric_nd, nd_map.
  cbn [shape data]. split; [assumption|]. split.
  - rewrite length_map, length_zip_with; congruence.
  - intros i j Hi Hj. rewrite !map_zip_with.
    pose proof (flat_index_lt n i j Hi Hj).
    pose proof (flat_index_lt n j i Hj Hi).
    rewrite !nth_zip_with by lia.
    now rewrite (Ha i j), (Hb i j).
Qed.

Lemma Forall_last {A : Type} (P : A -> Prop) (l : list A) (d : A) :
  Forall P l -> P d -> P (last l d).
Proof.
  induction l as [|a l IH]; intros Hl Hd; [exact Hd|].
  inversion Hl; subst. destruct l as [|b l]; [assumption|].
  change (P (last (b :: l) d)). now apply IH.
Qed.

(** The extrapolation of symmetric estimates is symmetric: the two
    mirrored elements see the same columns of estimates and errors, so the
    same stage is selected for both. *)
Lemma extrapolate_symmetric
  (dea3 : bool -> matrix -> matrix -> matrix -> matrix * matrix)
  (n : nat) (sequence : list ndarray) (d : ndarray) (inf : info) :
  dea3_elementwise dea3 ->
  Forall (symmetric_nd n) sequence ->
  _Derivative._extrapolate dea3 sequence = Ok (d, inf) ->
  symmetric_nd n d.
Proof.
  intros Hdea3 Hseq. unfold _Derivative._extrapolate.
  destruct (Nat.ltb_spec (length sequence) 3) as [Hlt|Hge].
  - destruct sequence as [|first rest]; [discriminate|].
    destruct (nd_map2 _ _ _) as [s|e] eqn:Hs; [|discriminate]. cbn [bind].
    intros Hr. inversion Hr; subst.
    inversion Hseq as [|? ? Hfirst Hrest]; subst.
    apply (average_symmetric n first (last (first :: rest) first));
      try assumption.
    now apply Forall_last.
  - destruct (vstack _) as [res|e] eqn:Hv; [|discriminate]. cbn [bind].
    apply vstack_inv in Hv. subst res.
    destruct (_Derivative.extrapolation_stages dea3 _) as [der errors]
      eqn:Hst.
    destruct (_Derivative._get_arg_min errors) as [ix|e] eqn:Hix;
      [|discriminate]. cbn [bind].
    destruct (take_flat errors ix) as [err_flat|e]; [|discriminate].
    cbn [bind].
    destruct (reshape err_flat _) as [err|e]; [|discriminate]. cbn [bind].
    destruct (take_flat der ix) as [der_flat|e] eqn:Htf; [|discriminate].
    cbn [bind].
    destruct (reshape der_flat _) as [d'|e] eqn:Hd; [|discriminate].
    cbn [bind]. intros Hr. inversion Hr; subst d' inf. clear Hr.
    apply reshape_inv in Hd. destruct Hd as [-> Hlen].
    assert (Hshape : shape (hd (mk_ndarray [] []) sequence) = [n; n]).
    { destruct sequence as [|a0 rest]; [simpl in Hge; lia|].
      inversion Hseq as [|? ? [Ha0 _] _]. exact Ha0. }
    rewrite Hshape in *. rewrite size_of_square in Hlen.
    unfold symmetric_nd. cbn [shape data].
    split; [reflexivity|]. split; [exact Hlen|].
    intros i j Hi Hj.
    pose proof (flat_index_lt n i j Hi Hj) as Hp.
    pose proof (flat_index_lt n j i Hj Hi) as Hq.
    destruct (extrapolation_stages_columns dea3 Hdea3 (length sequence)
                (n * n) _ der errors (i * n + j) (j * n + i)
                (symmetric_nd_rows n sequence Hseq) Hge Hp Hq
                (symmetric_nd_columns n sequence i j Hseq Hi Hj) Hst)
      as [R' [Hder [Herr [Hcd Hce]]]].
    destruct (get_arg_min_inv errors ix Hix) as [Hne [Hlix Hsel]].
    assert (HR' : 1 <= R').
    { destruct Herr as [HR _]. destruct errors; [congruence|].
      simpl in HR. lia. }
    rewrite (rectangular_ncols R' (n * n) errors Herr HR') in *.
    pose proof (mapM_length _ _ _ Htf) as Hlf.
    assert (Hget : forall p, p < n * n ->
              nth p der_flat nan
              = nth (upper_median (tied_rows errors p)) (column der p) nan).
    { intros p Hlt. pose proof (mapM_nth _ _ _ 0 nan p Htf) as Hk.
      rewrite Hlix in Hk. specialize (Hk Hlt).
      destruct (Hsel p Hlt) as [Hin Hnth]. rewrite Hnth in Hk.
      apply tied_rows_bound in Hin.
      assert (Hsel_lt : upper_median (tied_rows errors p) < R').
      { destruct Herr as [HR _]. lia. }
      rewrite (nth_error_concat R' (n * n) der _ p Hder Hsel_lt Hlt) in Hk.
      injection Hk as Hk'. rewrite <- Hk'.
      symmetry. apply nth_column. destruct Hder as [HR _]. lia. }
    rewrite (Hget _ Hp), (Hget _ Hq).
    now rewrite (tied_rows_column errors _ _ Hce), Hcd.
Qed.

(** * The Hessian is symmetric *)

Lemma mapM_Forall {A B : Type} (f : A -> result B) (P : B -> Prop)
  (l : list A) (bs : list B) :
  (forall a b, f a = Ok b -> P b) -> mapM f l = Ok bs -> Forall P bs.
Proof.
  intros HP. revert bs. induction l as [|a l IH]; simpl; intros bs Hm.
  - inversion Hm. constructor.
  - destruct (f a) as [b|e] eqn:Hfa; [|discriminate]. cbn [bind] in Hm.
    destruct (mapM f l) as [bs'|e]; [|discriminate]. cbn [bind] in Hm.
    inversion Hm; subst bs. constructor; [now apply (HP a)|now apply IH].
Qed.

(** C3: for every target function, evaluation point, step configuration
    and method of the Hessian class (forward, backward, central, central2,
    complex), a call that returns gives a square array [H] of the size of
    the evaluation point with [H[i, j]] and [H[j, i]] the same
    floating-point value for all [i], [j], after the extrapolation and the
    element-wise stage selection too.  [dea3] is not part of this module;
    it is assumed to work element by element. *)
Theorem Hessian_call_symmetric
  (dea3 : bool -> matrix -> matrix -> matrix -> matrix * matrix)
  (self : _Derivative.t) (x H : ndarray) (inf : option info) :
  dea3_elementwise dea3 ->
  _Derivative.__call__ dea3 Hessian.class self x = Ok (H, inf) ->
  let n := length (data x) in
  shape H = [n; n]
  /\ length (data H) = n * n
  /\ forall i j, i < n -> j < n ->
       nth (i * n + j) (data H) nan = nth (j * n + i) (data H) nan.
Proof.
  intros Hdea3. unfold _Derivative.__call__.
  destruct (stencil_of Hessian.class (_Derivative.method self))
    as [derivative|] eqn:Hst; [|discriminate].
  destruct (consume _ _) as [results|e] eqn:Hres; [|discriminate].
  cbn [bind].
  destruct (_Derivative._extrapolate dea3 results) as [[d i]|e] eqn:Hex;
    [|discriminate].
  cbn [bind fst snd]. intros Hr. inversion Hr; subst H inf. clear Hr.
  apply (extrapolate_symmetric dea3 (length (data x)) results d i Hdea3);
    [|exact Hex].
  unfold consume in Hres.
  destruct (mapM _ _) as [rs|e] eqn:Hm; [|discriminate]. cbn [bind] in Hres.
  destruct (raised _); [discriminate|]. inversion Hres; subst rs.
  apply (mapM_Forall _ _ _ _ (fun h R => Hessian_stencil_symmetric
           (_Derivative.method self) derivative (_Derivative.f self) x h R Hst)
           Hm).
Qed.

Lemma nth_map_lt (g : float -> float) (l : list float) (p : nat) :
  p < length l -> nth p (map g l) nan = g (nth p l nan).
Proof.
  intros Hp. rewrite (nth_indep _ nan (g nan)) by (now rewrite length_map).
  apply map_nth.
Qed.

Section Dea3Demo.

Variables (C p q : nat).

Let err_row (abc : list float * list float * list float) : list float :=
  let '(a, b, c) := abc in
  zip_with PrimFloat.add
    (map abs (zip_with PrimFloat.sub c b))
    (map abs (zip_with PrimFloat.sub b a)).

Lemma dea3_demo_row_length (a b c : list float) :
  length a = C -> length b = C -> length c = C ->
  length (err_row (a, b, c)) = C.
Proof.
  intros Ha Hb Hc. unfold err_row.
  rewrite length_zip_with; rewrite !length_map, !length_zip_with; congruence.
Qed.

Lemma dea3_demo_row_nth (a b c : list float) (k : nat) :
  length a = C -> length b = C -> length c = C -> k < C ->
  nth k (err_row (a, b, c)) nan
  = (abs (nth k c nan - nth k b nan) + abs (nth k b nan - nth k a nan))%float.
Proof.
  intros Ha Hb Hc Hk. unfold err_row.
  rewrite nth_zip_with
    by (rewrite length_map, length_zip_with; congruence || lia).
  rewrite !nth_map_lt by (rewrite length_zip_with; congruence || lia).
  rewrite !nth_zip_with by lia. reflexivity.
Qed.

Lemma dea3_demo_errors (v0 v1 v2 : matrix) :
  Forall (fun r => length r = C) v0 ->
  Forall (fun r => length r = C) v1 ->
  Forall (fun r => length r = C) v2 ->
  Forall (fun r => length r = C) (map err_row (combine (combine v0 v1) v2))
  /\ (p < C -> q < C ->
      column v0 p = column v0 q ->
      column v1 p = column v1 q ->
      column v2 p = column v2 q ->
      column (map err_row (combine (combine v0 v1) v2)) p
      = column (map err_row (combine (combine v0 v1) v2)) q).
Proof.
  revert v1 v2.
  induction v0 as [|a v0 IH]; intros [|b v1] [|c v2] H0 H1 H2;
    try (split; [constructor|reflexivity]).
  apply Forall_cons_iff in H0, H1, H2.
  destruct H0 as [Ha H0'], H1 as [Hb H1'], H2 as [Hc H2'].
  destruct (IH v1 v2 H0' H1' H2') as [Hlen Hcol].
  split.
  - cbn [combine map]. constructor; [|exact Hlen].
    now apply dea3_demo_row_length.
  - cbn [combine map column]. intros Hp Hq E0 E1 E2.
    injection E0 as Ea E0. injection E1 as Eb E1. injection E2 as Ec E2.
    f_equal.
    + rewrite !dea3_demo_row_nth by assumption. now rewrite Ea, Eb, Ec.
    + now apply Hcol.
Qed.

End Dea3Demo.

Lemma dea3_demo_elementwise : dea3_elementwise dea3_demo.
Proof.
  intros symmetric R C v0 v1 v2 [HR0 H0] [HR1 H1] [HR2 H2].
  exists R. unfold dea3_demo. cbn [fst snd].
  split; [now split|]. split.
  - split.
    + rewrite length_map, !length_combine. lia.
    + apply (dea3_demo_errors C 0 0 v0 v1 v2 H0 H1 H2).
  - intros p q Hp Hq E0 E1 E2. split; [exact E1|].
    now apply (dea3_demo_errors C p q v0 v1 v2 H0 H1 H2).
Qed.

(** A scalar target of two variables: [f(u, v) = u * u * v + v * v]. *)
Definition quadratic_target : target :=
  mk_target
    (fun a => match data a with
              | [u; v] => Ok (mk_ndarray [] [u * u * v + v * v]%float)
              | _ => Raise (TargetError 0)
              end)
    (fun _ => Raise (TargetError 0)).

Lemma Hessian_call_symmetric_witness :
  let self :=
    _Derivative.__init__ quadratic_target
      (StepsCallable
         (StepsGenerator_call
            (mk_StepsGenerator (StepScalar 0.25%float) 3 2%float (-1) true)))
      "forward" true None in
  exists H inf,
    _Derivative.__call__ dea3_demo Hessian.class self (vec [1; 2]%float)
    = Ok (H, inf)
    /\ shape H = [2; 2]
    /\ forall i j, i < 2 -> j < 2 ->
         nth (i * 2 + j) (data H) nan = nth (j * 2 + i) (data H) nan.
Proof.
  intros self.
  exists (mk_ndarray [2; 2] [4; 2.25; 2.25; 2]%float),
    (Some (mk_info (mk_ndarray [2; 2] [0; 0.375; 0.375; 0]%float)
             (ArrayIndex [4; 5; 6; 7]))).
  assert (Hcall : _Derivative.__call__ dea3_demo Hessian.class self
                    (vec [1; 2]%float)
                  = Ok (mk_ndarray [2; 2] [4; 2.25; 2.25; 2]%float,
                        Some (mk_info
                                (mk_ndarray [2; 2] [0; 0.375; 0.375; 0]%float)
                                (ArrayIndex [4; 5; 6; 7]))))
    by (vm_compute; reflexivity).
  split; [exact Hcall|].
  destruct (Hessian_call_symmetric dea3_demo self (vec [1; 2]%float) _ _
              dea3_demo_elementwise Hcall) as [Hs [_ Hsym]].
  split; [exact Hs|exact Hsym].
Defined.

(** * The values stored by the Hessian stencils

    Every double loop divides by [hess[j, i]] while it overwrites [hess]:
    the cell that is read still holds the outer product of the steps,
    because the loop writes a pair of cells once and reads it before. *)

Lemma NoDup_map_pair (i : nat) (l : list nat) :
  NoDup l -> NoDup (map (pair i) l).
Proof.
  induction 1 as [|a l Ha Hl IH]; simpl; constructor; [|exact IH].
  intros Hin. apply in_map_iff in Hin. destruct Hin as [b [E Hb]].
  inversion E; subst. contradiction.
Qed.

Lemma upper_pairs_NoDup (n : nat) : NoDup (Hessian.upper_pairs n).
Proof.
  unfold Hessian.upper_pairs.
  assert (G : forall l : list nat, NoDup l ->
            NoDup (flat_map (fun i => map (pair i) (seq i (n - i))) l)).
  { induction 1 as [|a l Ha Hl IH]; simpl; [constructor|].
    apply NoDup_app; [apply NoDup_map_pair, seq_NoDup|exact IH|].
    intros [i j] H1 H2. apply in_map_iff in H1. destruct H1 as [b [E _]].
    inversion E; subst. apply in_flat_map in H2.
    destruct H2 as [i' [Hi' H2]]. apply in_map_iff in H2.
    destruct H2 as [b' [E' _]]. inversion E'; subst. contradiction. }
  apply G, seq_NoDup.
Qed.

(** A loop body that stores, at [(i, j)] and [(j, i)], a value [v] related
    by [Q] to the cell [hess[j, i]] it reads. *)
Definition computes_pairs (body : matrix -> nat * nat -> result matrix)
  (Q : nat -> nat -> float -> float -> Prop) : Prop :=
  forall hess i j hess',
    body hess (i, j) = Ok hess' ->
    exists v, Q i j (mat_get hess j i) v
              /\ hess' = Hessian.assign_pair hess i j v.

Lemma assign_pair_stored (n : nat) (m : matrix) (i j : nat) (v : float) :
  rectangular n n m -> i < n -> j < n ->
  mat_get (Hessian.assign_pair m i j v) i j = v
  /\ mat_get (Hessian.assign_pair m i j v) j i = v.
Proof.
  intros Hm Hi Hj.
  assert (E : mat_get (Hessian.assign_pair m i j v) j i = v).
  { unfold Hessian.assign_pair.
    rewrite (mat_get_set_same n n (mat_set m i j v) j i);
      [|now apply mat_set_rectangular|assumption|assumption].
    now apply (mat_get_set_same n n). }
  split; [|exact E].
  now rewrite (assign_pair_symmetric n m i j v Hm Hi Hj).
Qed.

Lemma pair_loop_values_aux (n : nat)
  (body : matrix -> nat * nat -> result matrix)
  (Q : nat -> nat -> float -> float -> Prop) (L : list (nat * nat)) :
  computes_pairs body Q -> NoDup L -> Forall (ordered_below n) L ->
  forall hess0 hess',
    rectangular n n hess0 -> foldM body L hess0 = Ok hess' ->
    (forall a b, a <= b -> b < n -> ~ In (a, b) L ->
       mat_get hess' a b = mat_get hess0 a b
       /\ mat_get hess' b a = mat_get hess0 b a)
    /\ (forall i j, In (i, j) L ->
          exists v, Q i j (mat_get hess0 j i) v
                    /\ mat_get hess' i j = v /\ mat_get hess' j i = v).
Proof.
  intros Hbody Hnd HL. revert Hnd.
  induction HL as [|[i j] L [Hij Hj] HL IH]; intros Hnd hess0 hess' Hrect Hfold;
    simpl in Hfold.
  - inversion Hfold; subst. split; [auto|intros i j []].
  - cbn [fst snd] in Hij, Hj. inversion Hnd as [|? ? Hnotin Hnd']; subst.
    destruct (body hess0 (i, j)) as [hess1|e] eqn:Hb; [|discriminate].
    cbn [bind] in Hfold.
    destruct (Hbody hess0 i j hess1 Hb) as [v [HQ ->]].
    assert (Hi : i < n) by lia.
    pose proof (assign_pair_rectangular n hess0 i j v Hrect) as Hrect1.
    destruct (IH Hnd' _ _ Hrect1 Hfold) as [Hkeep Hval].
    assert (Hother : forall a b, a <= b -> (a, b) <> (i, j) ->
              mat_get (Hessian.assign_pair hess0 i j v) a b = mat_get hess0 a b
              /\ mat_get (Hessian.assign_pair hess0 i j v) b a
                 = mat_get hess0 b a).
    { intros a b Hab Hne.
      split; apply assign_pair_other; intros E; inversion E; subst;
        try (apply Hne; f_equal; lia); congruence. }
    split.
    + intros a b Hab Hb' Hnin.
      assert (Hne : (a, b) <> (i, j)) by (intros E; apply Hnin; now left).
      destruct (Hkeep a b Hab Hb') as [E1 E2];
        [intros Hin; apply Hnin; now right|].
      destruct (Hother a b Hab Hne) as [E3 E4]. split; congruence.
    + intros a b [E|Hin].
      * inversion E; subst a b. exists v. split; [exact HQ|].
        destruct (Hkeep i j Hij Hj Hnotin) as [E1 E2].
        destruct (assign_pair_stored n hess0 i j v Hrect Hi Hj) as [E3 E4].
        split; congruence.
      * destruct (Hval a b Hin) as [v' [HQ' Hv']]. exists v'.
        split; [|exact Hv'].
        rewrite Forall_forall in HL. destruct (HL (a, b) Hin) as [Hab _].
        cbn [fst snd] in Hab.
        assert (Hne : (a, b) <> (i, j)) by congruence.
        destruct (Hother a b Hab Hne) as [_ E4]. now rewrite <- E4.
Qed.

(** After the double loop, the cells [(i, j)] and [(j, i)] with [i <= j]
    hold the value computed from the initial cell [(j, i)]. *)
Lemma pair_loop_values (n : nat)
  (body : matrix -> nat * nat -> result matrix)
  (Q : nat -> nat -> float -> float -> Prop) (hess0 hess' : matrix) :
  computes_pairs body Q -> rectangular n n hess0 ->
  foldM body (Hessian.upper_pairs n) hess0 = Ok hess' ->
  forall i j, i <= j -> j < n ->
    exists v, Q i j (mat_get hess0 j i) v
              /\ mat_get hess' i j = v /\ mat_get hess' j i = v.
Proof.
  intros Hbody Hrect Hfold i j Hij Hj.
  destruct (pair_loop_values_aux n body Q _ Hbody (upper_pairs_NoDup n)
              (upper_pairs_ordered n) hess0 hess' Hrect Hfold) as [_ Hval].
  apply Hval. now apply upper_pairs_In.
Qed.

Lemma mat_get_outer (u v : list float) (j i : nat) :
  j < length u -> i < length v ->
  mat_get (Hessian.outer u v) j i = (nth j u nan * nth i v nan)%float.
Proof.
  intros Hj Hi. unfold mat_get, row, Hessian.outer.
  rewrite (nth_indep _ [] ((fun a => map (fun b => a * b)%float v) nan))
    by (now rewrite length_map).
  rewrite (map_nth (fun a => map (fun b => a * b)%float v)).
  rewrite (nth_indep _ nan ((fun b => nth j u nan * b)%float nan))
    by (now rewrite length_map).
  now rewrite (map_nth (fun b => nth j u nan * b)%float).
Qed.

Lemma mat_get_map_map (g : float -> float) (m : matrix) (R C j i : nat) :
  rectangular R C m -> j < R -> i < C ->
  mat_get (map (map g) m) j i = g (mat_get m j i).
Proof.
  intros Hm Hj Hi. pose proof (rectangular_row R C m j Hm Hj) as Hr.
  unfold mat_get, row in *.
  rewrite (nth_indep _ [] (map g [])) by (rewrite length_map; destruct Hm; lia).
  rewrite (map_nth (map g)).
  rewrite (nth_indep _ nan (g nan)) by (rewrite length_map; lia).
  now rewrite map_nth.
Qed.

(** Row [i] of [np.diag(h)]: [h[i]] at position [i], zero elsewhere. *)
Lemma row_diag (h : list float) (i k : nat) :
  i < length h -> k < length h ->
  nth k (row (Hessian.diag h) i) nan
  = if Nat.eqb i k then nth i h nan else 0%float.
Proof.
  intros Hi Hk. unfold row, Hessian.diag.
  rewrite (nth_map_seq _ [] (length h) i Hi).
  now rewrite (nth_map_seq _ nan (length h) k Hk).
Qed.

Lemma as_array_get (n : nat) (hess : matrix) (i j : nat) :
  rectangular n n hess -> i < n -> j < n ->
  nth (i * n + j) (data (Hessian.as_array n hess)) nan = mat_get hess i j.
Proof. intros. now apply nth_concat_mat_get. Qed.

Lemma computes_pairs_stores
  (body : matrix -> nat * nat -> result matrix)
  (Q : nat -> nat -> float -> float -> Prop) :
  computes_pairs body Q -> stores_pairs body.
Proof.
  intros Hc hess [i j] hess' Hb. destruct (Hc hess i j hess' Hb) as [v [_ E]].
  now exists v.
Qed.

(** The result of a double loop, read through the flat array returned. *)
Lemma pair_loop_array (n : nat)
  (body : matrix -> nat * nat -> result matrix)
  (Q : nat -> nat -> float -> float -> Prop) (hess0 hess' : matrix) :
  computes_pairs body Q -> rectangular n n hess0 ->
  foldM body (Hessian.upper_pairs n) hess0 = Ok hess' ->
  forall i j, i <= j -> j < n ->
    exists v, Q i j (mat_get hess0 j i) v
              /\ nth (i * n + j) (data (Hessian.as_array n hess')) nan = v
              /\ nth (j * n + i) (data (Hessian.as_array n hess')) nan = v.
Proof.
  intros Hbody Hrect Hfold i j Hij Hj.
  destruct (pair_loop_symmetric n body hess0 hess'
              (computes_pairs_stores body Q Hbody) Hrect Hfold) as [Hrect' _].
  destruct (pair_loop_values n body Q hess0 hess' Hbody Hrect Hfold i j Hij Hj)
    as [v [HQ [E1 E2]]].
  exists v. split; [exact HQ|].
  rewrite !as_array_get by (assumption || lia). auto.
Qed.

Ltac computes_pairs_tac :=
  let hess := fresh "hess" in
  let i := fresh "i" in
  let j := fresh "j" in
  let hess' := fresh "hess'" in
  let Hb := fresh "Hb" in
  intros hess i j hess' Hb;
  repeat match type of Hb with
         | context [bind ?r _] =>
             let E := fresh "E" in
             destruct r eqn:E; cbn [bind] in Hb; [|discriminate Hb]
         end;
  injection Hb as Hb; eexists; split; [|symmetry; exact Hb];
  cbv beta; repeat eexists; eassumption.

Ltac open_stencil Hv Hl :=
  match goal with
  | |- context [vectors ?x ?h] =>
      let xv := fresh "xv" in
      let hv := fresh "hv" in
      let e := fresh "e" in
      destruct (vectors x h) as [[xv hv]|e] eqn:Hv; [|discriminate];
      cbn [bind];
      destruct (vectors_inv x h xv hv Hv) as [-> [-> Hl]]
  end.

Lemma outer_rectangular_eq (h : list float) (n : nat) :
  length h = n -> rectangular n n (Hessian.outer h h).
Proof. intros <-. apply outer_rectangular. Qed.

Ltac loop_values Q n Hl Hfold i j Hij Hj v HQ E1 E2 :=
  match type of Hfold with
  | foldM ?body _ ?hess0 = Ok ?hess' =>
      let Hc := fresh "Hc" in
      assert (Hc : computes_pairs body Q) by (subst Q; computes_pairs_tac);
      let Hrect := fresh "Hrect" in
      assert (Hrect : rectangular n n hess0)
        by (try apply map_map_rectangular; apply outer_rectangular_eq;
            exact Hl);
      destruct (pair_loop_array n body Q hess0 hess' Hc Hrect Hfold
                  i j Hij Hj) as [v [HQ [E1 E2]]];
      subst Q; cbv beta in HQ
  end.


(** X1: when the central stencil of the Hessian (Eq. 9) returns, the
    cells [(i, j)] and [(j, i)] with [i <= j] both hold
    [(f(x + e_i + e_j) - f(x + e_i - e_j) - f(x - e_i + e_j)
      + f(x - e_i - e_j)) / (4 * (h[j] * h[i]))],
    where [e_i] is row [i] of [np.diag(h)]: the divisor read from
    [hess[j, i]] inside the loop is still the outer product of the steps. *)
Theorem Hessian_central_values (f : target) (x h H : ndarray) :
  Hessian._central f x h = Ok H ->
  let n := length (data x) in
  let e := row (Hessian.diag (data h)) in
  (forall i k, i < n -> k < n ->
     nth k (e i) nan = if Nat.eqb i k then nth i (data h) nan else 0%float)
  /\ forall i j, i <= j -> j < n ->
       exists a b c d,
         Hessian.call f (vadd (vadd (data x) (e i)) (e j)) = Ok a
         /\ Hessian.call f (vsub (vadd (data x) (e i)) (e j)) = Ok b
         /\ Hessian.call f (vadd (vsub (data x) (e i)) (e j)) = Ok c
         /\ Hessian.call f (vsub (vsub (data x) (e i)) (e j)) = Ok d
         /\ nth (i * n + j) (data H) nan
            = ((a - b - c + d)
               / (4 * (nth j (data h) nan * nth i (data h) nan)))%float
         /\ nth (j * n + i) (data H) nan = nth (i * n + j) (data H) nan.
Proof.
  intros HR n e. revert HR. unfold Hessian._central. open_stencil Hv Hl.
  destruct (foldM _ _ _) as [hess|e'] eqn:Hfold; [|discriminate]. cbn [bind].
  intros HR. injection HR as <-. split.
  { intros i k Hi Hk. apply row_diag; lia. }
  intros i j Hij Hj.
  set (Q := fun (i j : nat) (den v : float) =>
              exists a b c d,
                Hessian.call f (vadd (vadd (data x) (e i)) (e j)) = Ok a
                /\ Hessian.call f (vsub (vadd (data x) (e i)) (e j)) = Ok b
                /\ Hessian.call f (vadd (vsub (data x) (e i)) (e j)) = Ok c
                /\ Hessian.call f (vsub (vsub (data x) (e i)) (e j)) = Ok d
                /\ v = ((a - b - c + d) / (4 * den))%float).
  loop_values Q n Hl Hfold i j Hij Hj v HQ E1 E2.
  destruct HQ as [a [b [c [d [Ea [Eb [Ec [Ed Hv']]]]]]]].
  exists a, b, c, d. rewrite mat_get_outer in Hv' by lia.
  subst n. repeat split; try assumption; congruence.
Qed.

(** A target for the examples: [f(u, v) = u * v], on real and on complex
    arguments. *)
Definition product_target : target :=
  mk_target
    (fun a => match data a with
              | [u; v] => Ok (mk_ndarray [] [u * v]%float)
              | _ => Raise (TargetError 0)
              end)
    (fun a => match cdata a with
              | [u; v] => Ok (mk_cndarray [] [c_mul u v])
              | _ => Raise (TargetError 0)
              end).

Lemma Hessian_central_values_witness :
  exists a b c d,
    nth 1
      (data (mk_ndarray [2; 2] [0; 1; 1; 0]%float)) nan
    = ((a - b - c + d) / (4 * (0.25 * 0.5)))%float
    /\ a = 18.375%float /\ b = 16.625%float /\ c = 13.125%float
    /\ d = 11.875%float.
Proof.
  destruct (Hessian_central_values product_target (vec [3; 5]%float)
              (vec [0.5; 0.25]%float)
              (mk_ndarray [2; 2] [0; 1; 1; 0]%float) eq_refl)
    as [_ Hval].
  destruct (Hval 0 1 ltac:(lia) ltac:(simpl; lia))
    as [a [b [c [d [Ea [Eb [Ec [Ed [E _]]]]]]]]].
  exists a, b, c, d. split; [exact E|].
  vm_compute in Ea, Eb, Ec, Ed.
  injection Ea as <-. injection Eb as <-. injection Ec as <-.
  injection Ed as <-. repeat split.
Defined.

(** X2: when the forward stencil of the Hessian (Eq. 7) returns, the cells
    [(i, j)] and [(j, i)] with [i <= j] both hold
    [(f(x + e_i + e_j) - f(x + e_i) - f(x + e_j) + f(x)) / (h[j] * h[i])],
    with [e_i] row [i] of [np.diag(h)]. *)
Theorem Hessian_forward_values (f : target) (x h H : ndarray) :
  Hessian._forward f x h = Ok H ->
  let n := length (data x) in
  let e := row (Hessian.diag (data h)) in
  forall i j, i <= j -> j < n ->
    exists a gi gj f0,
      Hessian.call f (vadd (vadd (data x) (e i)) (e j)) = Ok a
      /\ Hessian.call f (vadd (data x) (e i)) = Ok gi
      /\ Hessian.call f (vadd (data x) (e j)) = Ok gj
      /\ Hessian.call f (data x) = Ok f0
      /\ nth (i * n + j) (data H) nan
         = ((a - gi - gj + f0)
            / (nth j (data h) nan * nth i (data h) nan))%float
      /\ nth (j * n + i) (data H) nan = nth (i * n + j) (data H) nan.
Proof.
  intros HR n e. revert HR. unfold Hessian._forward. open_stencil Hv Hl.
  destruct (Hessian.call f (data x)) as [f0|e'] eqn:Hf0; [|discriminate].
  cbn [bind].
  destruct (mapM _ _) as [g|e'] eqn:Hg; [|discriminate]. cbn [bind].
  destruct (foldM _ _ _) as [hess|e'] eqn:Hfold; [|discriminate]. cbn [bind].
  intros HR. injection HR as <-. intros i j Hij Hj.
  set (Q := fun (i j : nat) (den v : float) =>
              exists a,
                Hessian.call f (vadd (vadd (data x) (e i)) (e j)) = Ok a
                /\ v = ((a - nth i g nan - nth j g nan + f0) / den)%float).
  loop_values Q n Hl Hfold i j Hij Hj v HQ E1 E2.
  destruct HQ as [a [Ea Hv']].
  assert (Hgk : forall k, k < n ->
            Hessian.call f (vadd (data x) (e k)) = Ok (nth k g nan)).
  { intros k Hk. pose proof (mapM_nth _ _ _ 0 nan k Hg) as Hn.
    rewrite length_seq in Hn. specialize (Hn Hk).
    now rewrite seq_nth in Hn by exact Hk. }
  exists a, (nth i g nan), (nth j g nan), f0.
  rewrite mat_get_outer in Hv' by lia.
  pose proof (Hgk i ltac:(lia)). pose proof (Hgk j Hj).
  subst n. repeat split; try assumption; congruence.
Qed.

Lemma Hessian_forward_values_witness :
  exists a gi gj f0,
    nth 1 (data (mk_ndarray [2; 2] [0; 1; 1; 0]%float)) nan
    = ((a - gi - gj + f0) / (0.25 * 0.5))%float
    /\ a = 18.375%float /\ gi = 17.5%float /\ gj = 15.75%float
    /\ f0 = 15%float.
Proof.
  destruct (Hessian_forward_values product_target (vec [3; 5]%float)
              (vec [0.5; 0.25]%float)
              (mk_ndarray [2; 2] [0; 1; 1; 0]%float) eq_refl
              0 1 ltac:(lia) ltac:(simpl; lia))
    as [a [gi [gj [f0 [Ea [Eb [Ec [Ed [E _]]]]]]]]].
  exists a, gi, gj, f0. split; [exact E|].
  vm_compute in Ea, Eb, Ec, Ed.
  injection Ea as <-. injection Eb as <-. injection Ec as <-.
  injection Ed as <-. repeat split.
Defined.

(** X3: when the second central stencil of the Hessian (Eq. 8) returns,
    the cells [(i, j)] and [(j, i)] with [i <= j] both hold
    [(f(x + e_i + e_j) - f(x + e_i) - f(x + e_j) + f(x)
      + f(x - e_i - e_j) - f(x - e_i) - f(x - e_j) + f(x))
     / (2 * (h[j] * h[i]))], summed from left to right. *)
Theorem Hessian_central2_values (f : target) (x h H : ndarray) :
  Hessian._central2 f x h = Ok H ->
  let n := length (data x) in
  let e := row (Hessian.diag (data h)) in
  forall i j, i <= j -> j < n ->
    exists a b gi gj ggi ggj f0,
      Hessian.call f (vadd (vadd (data x) (e i)) (e j)) = Ok a
      /\ Hessian.call f (vsub (vsub (data x) (e i)) (e j)) = Ok b
      /\ Hessian.call f (vadd (data x) (e i)) = Ok gi
      /\ Hessian.call f (vadd (data x) (e j)) = Ok gj
      /\ Hessian.call f (vsub (data x) (e i)) = Ok ggi
      /\ Hessian.call f (vsub (data x) (e j)) = Ok ggj
      /\ Hessian.call f (data x) = Ok f0
      /\ nth (i * n + j) (data H) nan
         = ((a - gi - gj + f0 + b - ggi - ggj + f0)
            / (2 * (nth j (data h) nan * nth i (data h) nan)))%float
      /\ nth (j * n + i) (data H) nan = nth (i * n + j) (data H) nan.
Proof.
  intros HR n e. revert HR. unfold Hessian._central2. open_stencil Hv Hl.
  destruct (Hessian.call f (data x)) as [f0|e'] eqn:Hf0; [|discriminate].
  cbn [bind].
  destruct (mapM _ _) as [ggg|e'] eqn:Hg; [|discriminate]. cbn [bind].
  destruct (foldM _ _ _) as [hess|e'] eqn:Hfold; [|discriminate]. cbn [bind].
  intros HR. injection HR as <-. intros i j Hij Hj.
  set (g := map fst ggg) in *. set (gg := map snd ggg) in *.
  set (Q := fun (i j : nat) (den v : float) =>
              exists a b,
                Hessian.call f (vadd (vadd (data x) (e i)) (e j)) = Ok a
                /\ Hessian.call f (vsub (vsub (data x) (e i)) (e j)) = Ok b
                /\ v = ((a - nth i g nan - nth j g nan + f0 + b
                         - nth i gg nan - nth j gg nan + f0)
                        / (2 * den))%float).
  loop_values Q n Hl Hfold i j Hij Hj v HQ E1 E2.
  destruct HQ as [a [b [Ea [Eb Hv']]]].
  assert (Hgk : forall k, k < n ->
            Hessian.call f (vadd (data x) (e k)) = Ok (nth k g nan)
            /\ Hessian.call f (vsub (data x) (e k)) = Ok (nth k gg nan)).
  { intros k Hk. pose proof (mapM_nth _ _ _ 0 (nan, nan) k Hg) as Hn.
    rewrite length_seq in Hn. specialize (Hn Hk).
    rewrite seq_nth in Hn by exact Hk. cbn [Nat.add] in Hn.
    fold e in Hn.
    destruct (Hessian.call f (vadd (data x) (e k))) as [gk|e'];
      [|discriminate].
    destruct (Hessian.call f (vsub (data x) (e k))) as [ggk|e'];
      [|discriminate].
    cbn [bind] in Hn. injection Hn as Hn.
    assert (Eg : nth k g nan = fst (nth k ggg (nan, nan)))
      by exact (map_nth fst ggg (nan, nan) k).
    assert (Egg : nth k gg nan = snd (nth k ggg (nan, nan)))
      by exact (map_nth snd ggg (nan, nan) k).
    rewrite Eg, Egg, <- Hn. now split. }
  exists a, b, (nth i g nan), (nth j g nan), (nth i gg nan), (nth j gg nan),
    f0.
  rewrite mat_get_outer in Hv' by lia.
  destruct (Hgk i ltac:(lia)). destruct (Hgk j Hj).
  subst n. repeat split; try assumption; congruence.
Qed.

Lemma Hessian_central2_values_witness :
  exists a b gi gj ggi ggj f0,
    nth 1 (data (mk_ndarray [2; 2] [0; 1; 1; 0]%float)) nan
    = ((a - gi - gj + f0 + b - ggi - ggj + f0) / (2 * (0.25 * 0.5)))%float
    /\ a = 18.375%float /\ b = 11.875%float.
Proof.
  destruct (Hessian_central2_values product_target (vec [3; 5]%float)
              (vec [0.5; 0.25]%float)
              (mk_ndarray [2; 2] [0; 1; 1; 0]%float) eq_refl
              0 1 ltac:(lia) ltac:(simpl; lia))
    as [a [b [gi [gj [ggi [ggj [f0 [Ea [Eb [_ [_ [_ [_ [_ [E _]]]]]]]]]]]]]]].
  exists a, b, gi, gj, ggi, ggj, f0. split; [exact E|].
  vm_compute in Ea, Eb. injection Ea as <-. injection Eb as <-. now split.
Defined.

(** X4: when the complex-step stencil of the Hessian (Eq. 10) returns, the
    cells [(i, j)] and [(j, i)] with [i <= j] both hold
    [imag(f(x + 1j * e_i + e_j) - f(x + 1j * e_i - e_j))
     / (2 * (h[j] * h[i]))]. *)
Theorem Hessian_complex_values (f : target) (x h H : ndarray) :
  Hessian._complex f x h = Ok H ->
  let n := length (data x) in
  let e := row (Hessian.diag (data h)) in
  forall i j, i <= j -> j < n ->
    exists a b : complex,
      Hessian.ccall f (cvadd_real (v_plus_j (data x) (e i)) (e j)) = Ok a
      /\ Hessian.ccall f (cvsub_real (v_plus_j (data x) (e i)) (e j)) = Ok b
      /\ nth (i * n + j) (data H) nan
         = (snd (c_sub a b)
            / (2 * (nth j (data h) nan * nth i (data h) nan)))%float
      /\ nth (j * n + i) (data H) nan = nth (i * n + j) (data H) nan.
Proof.
  intros HR n e. revert HR. unfold Hessian._complex. open_stencil Hv Hl.
  destruct (foldM _ _ _) as [hess|e'] eqn:Hfold; [|discriminate]. cbn [bind].
  intros HR. injection HR as <-. intros i j Hij Hj.
  set (Q := fun (i j : nat) (den v : float) =>
              exists a b : complex,
                Hessian.ccall f (cvadd_real (v_plus_j (data x) (e i)) (e j))
                = Ok a
                /\ Hessian.ccall f
                     (cvsub_real (v_plus_j (data x) (e i)) (e j))
                   = Ok b
                /\ v = (snd (c_sub a b) / den)%float).
  loop_values Q n Hl Hfold i j Hij Hj v HQ E1 E2.
  destruct HQ as [a [b [Ea [Eb Hv']]]].
  exists a, b.
  rewrite (mat_get_map_map _ _ n n) in Hv'
    by (try lia; apply outer_rectangular_eq; exact Hl).
  rewrite mat_get_outer in Hv' by lia.
  subst n. repeat split; try assumption; congruence.
Qed.

Lemma Hessian_complex_values_witness :
  exists a b : complex,
    nth 1 (data (mk_ndarray [2; 2] [0; 1; 1; 0]%float)) nan
    = (snd (c_sub a b) / (2 * (0.25 * 0.5)))%float
    /\ a = (15.75, 2.625)%float /\ b = (14.25, 2.375)%float.
Proof.
  destruct (Hessian_complex_values product_target (vec [3; 5]%float)
              (vec [0.5; 0.25]%float)
              (mk_ndarray [2; 2] [0; 1; 1; 0]%float) eq_refl
              0 1 ltac:(lia) ltac:(simpl; lia))
    as [a [b [Ea [Eb [E _]]]]].
  exists a, b. split; [exact E|].
  vm_compute in Ea, Eb. injection Ea as <-. injection Eb as <-. now split.
Defined.

(** * The Hessian stencils do not fail on their own *)











Section HessianTotal.

Variables (f : target) (x h : ndarray).

Let n := length (data x).

Hypothesis Hx : is_vector x = true.
Hypothesis Hh : is_vector h = true.
Hypothesis Hl : length (data h) = n.





End HessianTotal.






(** * The stage selection [_get_arg_min] *)

Lemma get_arg_min_raises_all_nan (E : matrix) (i : nat) :
  i < ncols E -> forallb is_nan (column E i) = true ->
  raises (_Derivative._get_arg_min E) = true.
Proof.
  intros Hi Hall. unfold _Derivative._get_arg_min, nanargmin_raises.
  destruct E as [|row E']; [reflexivity|].
  replace (existsb _ _) with true; [reflexivity|].
  symmetry. apply existsb_exists. exists i. split; [|exact Hall].
  apply in_seq. lia.
Qed.

Lemma columns_not_all_nan (C : nat) (E : matrix) :
  existsb (fun i => forallb is_nan (column E i)) (seq 0 C) = false ->
  forall i, i < C -> not_all_nan (column E i).
Proof.
  intros Hex i Hi. apply not_all_nan_forallb.
  destruct (forallb is_nan (column E i)) eqn:Hall; [|reflexivity].
  assert (Ht : existsb (fun i => forallb is_nan (column E i)) (seq 0 C)
               = true).
  { apply existsb_exists. exists i. split; [apply in_seq; lia|exact Hall]. }
  congruence.
Qed.

Lemma get_arg_min_columns (R C : nat) (E : matrix) (ix : list nat) :
  rectangular R C E -> _Derivative._get_arg_min E = Ok ix ->
  1 <= R /\ ncols E = C /\ forall i, i < C -> not_all_nan (column E i).
Proof.
  intros HE Hix.
  destruct (get_arg_min_inv E ix Hix) as [Hne _].
  assert (HR : 1 <= R).
  { destruct HE as [HR _]. destruct E; [congruence|simpl in HR; lia]. }
  pose proof (rectangular_ncols R C E HE HR) as Hnc.
  split; [exact HR|]. split; [exact Hnc|].
  intros i Hi. apply not_all_nan_forallb.
  destruct (forallb is_nan (column E i)) eqn:Hall; [|reflexivity].
  rewrite <- Hnc in Hi.
  pose proof (get_arg_min_raises_all_nan E i Hi Hall) as Hr.
  rewrite Hix in Hr. discriminate.
Qed.

(** X6: on an [R] by [C] array of errors, [_get_arg_min] raises exactly
    when there is no row or some column is entirely NaN; otherwise it
    returns one flat index per column, and the index of column [i] lies
    in the array and in column [i], so that [errors.flat[ix]] and
    [der.flat[ix]] cannot go out of bounds. *)
Theorem get_arg_min_raises_iff (R C : nat) (E : matrix) :
  rectangular R C E ->
  (raises (_Derivative._get_arg_min E) = true
   <-> R = 0 \/ exists i, i < C /\ forallb is_nan (column E i) = true)
  /\ forall ix, _Derivative._get_arg_min E = Ok ix ->
       length ix = C
       /\ forall i, i < C ->
            nth i ix 0 < R * C
            /\ nth i ix 0 mod C = i
            /\ nth i ix 0 / C < R.
Proof.
  intros HE. split.
  - destruct R as [|R'].
    + destruct HE as [HR _]. destruct E; [|discriminate].
      split; [now left|reflexivity].
    + assert (HR1 : 1 <= S R') by lia.
      pose proof (rectangular_ncols (S R') C E HE HR1) as Hnc.
      destruct (existsb (fun i => forallb is_nan (column E i)) (seq 0 C))
        eqn:Hex.
      * apply existsb_exists in Hex. destruct Hex as [i [Hi Hall]].
        apply in_seq in Hi. split.
        -- intros _. right. exists i. split; [lia|exact Hall].
        -- intros _. apply (get_arg_min_raises_all_nan E i); [lia|exact Hall].
      * pose proof (columns_not_all_nan C E Hex) as Hcols.
        rewrite (get_arg_min_Ok (S R') C E HE HR1 Hcols). split.
        -- discriminate.
        -- intros [H0|[i [Hi Hall]]]; [discriminate|].
           pose proof (proj1 (not_all_nan_forallb _) (Hcols i Hi)).
           congruence.
  - intros ix Hix.
    destruct (get_arg_min_columns R C E ix HE Hix) as [HR [Hnc Hcols]].
    rewrite (get_arg_min_Ok R C E HE HR Hcols) in Hix.
    injection Hix as <-. split; [now rewrite length_map, length_seq|].
    intros i Hi. rewrite (nth_map_seq _ 0 C i Hi).
    destruct (upper_median_minimal R C E HE i (Hcols i Hi)) as [Hr _].
    set (r := upper_median (tied_rows E i)) in *.
    split; [nia|]. split.
    + rewrite Nat.add_comm, Nat.Div0.mod_add. now apply Nat.mod_small.
    + rewrite Nat.add_comm, Nat.div_add by lia.
      rewrite (Nat.div_small i C Hi). exact Hr.
Qed.

Lemma get_arg_min_raises_iff_witness :
  raises (_Derivative._get_arg_min [[1; nan]; [2; nan]]%float) = true
  /\ length [2; 3] = 2
  /\ nth 0 [2; 3] 0 mod 2 = 0.
Proof.
  split.
  - apply (proj1 (get_arg_min_raises_iff 2 2 [[1; nan]; [2; nan]]%float
                    ltac:(split; [reflexivity|repeat constructor]))).
    right. exists 1. split; [lia|reflexivity].
  - destruct (proj2 (get_arg_min_raises_iff 3 2
                       [[3; 1]; [2; 1]; [5; 1]]%float
                       ltac:(split; [reflexivity|repeat constructor]))
                [2; 3] eq_refl) as [Hlen Hix].
    split; [exact Hlen|]. apply (Hix 0). lia.
Defined.

Lemma eqb_refl_not_nan (e : float) :
  is_nan e = false -> (e =? e)%float = true.
Proof. intros He. now apply F64.eqb_true_iff. Qed.

(** X7: which stage [_get_arg_min] selects for column [i].  If one row
    holds an error smaller than every other error of the column that is
    not NaN, the index of that row is returned; if all [R] errors of the
    column are one and the same number, the middle row [R // 2] is
    returned (and not the first one, as [np.nanargmin] would). *)
Theorem get_arg_min_selection (R C : nat) (E : matrix) (ix : list nat)
  (i : nat) :
  rectangular R C E -> _Derivative._get_arg_min E = Ok ix -> i < C ->
  (forall r0, r0 < R -> is_nan (entry E r0 i) = false ->
     (forall r, r < R -> r <> r0 ->
        is_nan (entry E r i) = true
        \/ (entry E r0 i <? entry E r i)%float = true) ->
     nth i ix 0 = r0 * C + i)
  /\ (forall e, is_nan e = false ->
        (forall r, r < R -> entry E r i = e) ->
        nth i ix 0 = (R / 2) * C + i).
Proof.
  intros HE Hix Hi.
  destruct (get_arg_min_columns R C E ix HE Hix) as [HR [Hnc Hcols]].
  rewrite (get_arg_min_Ok R C E HE HR Hcols) in Hix.
  injection Hix as <-. rewrite (nth_map_seq _ 0 C i Hi).
  destruct (upper_median_minimal R C E HE i (Hcols i Hi))
    as [Hr [Hnn [Hmin Hties]]].
  set (r := upper_median (tied_rows E i)) in *.
  split.
  - intros r0 Hr0 Hn0 Hless.
    destruct (Nat.eq_dec r r0) as [->|Hne]; [reflexivity|].
    destruct (Hless r Hr Hne) as [Hnan|Hlt]; [congruence|].
    rewrite (Hmin r0 Hr0 Hn0) in Hlt. discriminate.
  - intros e He Hall.
    assert (Hseq : tied_rows E i = seq 0 R).
    { rewrite Hties. rewrite <- (filter_ext_in (fun _ => true)).
      - clear. induction (seq 0 R) as [|a l IH]; simpl; congruence.
      - intros r' Hr'. apply in_seq in Hr'.
        rewrite (Hall r') by lia. rewrite (Hall r Hr).
        symmetry. now apply eqb_refl_not_nan. }
    assert (Hmid : r = R / 2).
    { unfold r, upper_median. rewrite Hseq, length_seq.
      rewrite seq_nth; [reflexivity|].
      apply Nat.Div0.div_lt_upper_bound. lia. }
    now rewrite Hmid.
Qed.

Lemma get_arg_min_selection_witness :
  let E := [[3; 1]; [2; 1]; [nan; 1]]%float in
  _Derivative._get_arg_min E = Ok [2; 3]
  /\ nth 0 [2; 3] 0 = 1 * 2 + 0
  /\ nth 1 [2; 3] 0 = (3 / 2) * 2 + 1.
Proof.
  intros E.
  assert (Hix : _Derivative._get_arg_min E = Ok [2; 3]) by reflexivity.
  assert (HE : rectangular 3 2 E)
    by (split; [reflexivity|repeat constructor]).
  split; [exact Hix|]. split.
  - apply (proj1 (get_arg_min_selection 3 2 E [2; 3] 0 HE Hix ltac:(lia)) 1);
      [lia|reflexivity|].
    intros [|[|[|r]]] Hr Hne; try lia.
    + right. reflexivity.
    + left. reflexivity.
  - apply (proj2 (get_arg_min_selection 3 2 E [2; 3] 1 HE Hix ltac:(lia))
             1%float); [reflexivity|].
    intros [|[|[|r]]] Hr; try lia; reflexivity.
Defined.

(** * The tabulated stencil weights *)

(** [sum_k c[k] * (k - ho)**m] for integer weights [c] on the nodes
    [-ho, ..., ho], [ho = len(c) // 2]. *)
Definition moment (c : list Z) (m : Z) : Z :=
  fold_right Z.add 0%Z
    (map (fun kc => (snd kc
                     * (Z.of_nat (fst kc) - Z.of_nat (length c / 2)) ^ m)%Z)
       (combine (seq 0 (length c)) c)).

(** The integer weights and the divisor written in [_weights]. *)
Definition tabulated (n order : Z) : list Z * Z :=
  (if (n =? 1)%Z then
     if (order =? 3)%Z then ([-1; 0; 1], 2)
     else if (order =? 5)%Z then ([1; -8; 0; 8; -1], 12)
     else if (order =? 7)%Z then ([-1; 9; -45; 0; 45; -9; 1], 60)
     else ([3; -32; 168; -672; 0; 672; -168; 32; -3], 840)
   else
     if (order =? 3)%Z then ([1; -2; 1], 1)
     else if (order =? 5)%Z then ([-1; 16; -30; 16; -1], 12)
     else if (order =? 7)%Z then ([2; -27; 270; -490; 270; -27; 2], 180)
     else ([-9; 128; -1008; 8064; -14350; 8064; -1008; 128; -9], 5040))%Z.

Definition moments_ok (n order : Z) : bool :=
  let '(c, d) := tabulated n order in
  Nat.eqb (length c) (Z.to_nat order)
  && (0 <? d)%Z
  && forallb (fun k =>
                let m := Z.of_nat k in
                (moment c m
                 =? (if (m =? n)%Z
                     then d * Z.of_nat (fact (Z.to_nat n))
                     else 0))%Z)
       (seq 0 (Z.to_nat order)).

(** X8: for the first and second derivative and 3, 5, 7 or 9 points the
    weights do not depend on [scipy.linalg.inv]: they are the tabulated
    integers [c] over the tabulated divisor [d], and these are the exact
    central-difference weights, [sum_k c[k] * (k - ho)**m = d * n!] for
    [m = n] and [0] for every other [m] below [order]. *)
Theorem tabulated_weights_exact `{Libm} (n order : Z) :
  (n = 1 \/ n = 2)%Z -> In order [3; 5; 7; 9]%Z ->
  exists (c : list Z) (d : Z),
    (forall linalg_inv : matrix -> result matrix,
       NDerivative._weights linalg_inv n order
       = Ok (map (fun z => float_of_Z z / float_of_Z d)%float c))
    /\ length c = Z.to_nat order
    /\ (0 < d)%Z
    /\ forall m, (0 <= m < order)%Z ->
         moment c m
         = (if (m =? n)%Z then d * Z.of_nat (fact (Z.to_nat n)) else 0)%Z.
Proof.
  intros Hn Ho.
  exists (fst (tabulated n order)), (snd (tabulated n order)).
  assert (Hok : moments_ok n order = true).
  { destruct Hn as [-> | ->];
      repeat (destruct Ho as [<- | Ho]; [vm_compute; reflexivity|]);
      destruct Ho. }
  unfold moments_ok in Hok.
  destruct (tabulated n order) as [c d] eqn:Ht. cbn [fst snd].
  apply andb_prop in Hok. destruct Hok as [Hok Hm].
  apply andb_prop in Hok. destruct Hok as [Hlen Hd].
  apply Nat.eqb_eq in Hlen. apply Z.ltb_lt in Hd.
  split; [|split; [exact Hlen|split; [exact Hd|]]].
  - intros linalg_inv.
    destruct Hn as [-> | ->];
      repeat (destruct Ho as [<- | Ho];
              [injection Ht as <- <-; vm_compute; reflexivity|]);
      destruct Ho.
  - intros m Hm'. rewrite forallb_forall in Hm.
    specialize (Hm (Z.to_nat m)).
    rewrite Z2Nat.id in Hm by lia. apply Z.eqb_eq, Hm, in_seq. lia.
Qed.

Lemma tabulated_weights_exact_witness :
  exists (c : list Z) (d : Z),
    NDerivative._weights inv_demo 1 5
    = Ok (map (fun z => float_of_Z z / float_of_Z d)%float c)
    /\ moment c 1 = d /\ moment c 3 = 0%Z.
Proof.
  destruct (tabulated_weights_exact 1 5 (or_introl eq_refl)
              ltac:(simpl; tauto)) as [c [d [Hw [_ [_ Hm]]]]].
  exists c, d. split; [apply Hw|]. split.
  - rewrite (Hm 1%Z) by lia. simpl. lia.
  - now rewrite (Hm 3%Z) by lia.
Defined.

(** * The weights computed from the inverse *)







Lemma getrow_inv (m : matrix) (i : Z) (r : list float) :
  NDerivative.getrow m i = Ok r ->
  let k := (if (i <? 0)%Z then i + Z.of_nat (length m) else i)%Z in
  (0 <= k < Z.of_nat (length m))%Z /\ nth_error m (Z.to_nat k) = Some r.
Proof.
  intros Hg k. unfold NDerivative.getrow in Hg.
  change (if (i <? 0)%Z then (i + Z.of_nat (length m))%Z else i) with k in Hg.
  destruct (Z.ltb_spec k 0) as [Hneg|Hpos]; [discriminate|].
  destruct (nth_error m (Z.to_nat k)) as [r'|] eqn:En; [|discriminate].
  injection Hg as <-. split; [|reflexivity].
  assert (Hlt : Z.to_nat k < length m)
    by (apply nth_error_Some; congruence).
  lia.
Qed.

Section Vandermonde.

Context `{Libm}.



End Vandermonde.


(** X10: a negative derivative order is not rejected.  With an inverse
    that scipy returns and an odd [order >= 1], [_weights(n, order)] for
    [-order <= n < 0] passes both checks and returns row [order + n] of
    the inverse (Python's negative index) times the empty product 1; for
    [n < -order] it raises [IndexError], not the [ValueError] of the
    checks. *)
Theorem weights_negative_derivative_order `{Libm}
  (linalg_inv : matrix -> result matrix) (n order : Z) :
  (forall X, exists M, linalg_inv X = Ok M /\ length M = length X) ->
  (n < 0)%Z -> (1 <= order)%Z -> Z.odd order = true ->
  ((- order <= n)%Z ->
   exists (X Xinv : matrix) (r : list float),
     linalg_inv X = Ok Xinv
     /\ nth_error Xinv (Z.to_nat (order + n)) = Some r
     /\ NDerivative._weights linalg_inv n order
        = Ok (map (fun v => 1 * v)%float r))
  /\ ((n < - order)%Z ->
      NDerivative._weights linalg_inv n order = Raise IndexError).
Proof.
  intros Hinv Hn Ho Hodd.
  assert (Hmod : (order mod 2 =? 0)%Z = false).
  { rewrite mod2_even, <- Z.negb_odd, Hodd. reflexivity. }
  assert (Hstart :
            NDerivative._weights linalg_inv n order
            = NDerivative.central_diff_weights linalg_inv order n).
  { unfold NDerivative._weights.
    destruct (Z.ltb_spec order (n + 1)) as [Hlt|_]; [lia|]. rewrite Hmod.
    destruct (Z.eqb_spec n 1) as [E|_]; [lia|].
    destruct (Z.eqb_spec n 2) as [E|_]; [lia|]. reflexivity. }
  rewrite Hstart. unfold NDerivative.central_diff_weights.
  destruct (Z.ltb_spec order (n + 1)) as [Hlt|_]; [lia|]. rewrite Hmod.
  match goal with |- context [linalg_inv ?X0] => set (X := X0) end.
  destruct (Hinv X) as [M [HM HlenM]]. rewrite HM. cbn [bind].
  assert (Hlen : length M = Z.to_nat order).
  { rewrite HlenM. unfold X. rewrite !length_map, length_seq.
    now rewrite (odd_half order Hmod). }
  assert (Hfac : float_of_Z (NDerivative.product_arange n) = 1%float).
  { destruct n as [|p|p]; try lia. reflexivity. }
  unfold NDerivative.getrow.
  destruct (Z.ltb_spec n 0) as [_|Hpos]; [|lia]. rewrite Hlen.
  rewrite Z2Nat.id by lia. split.
  - intros Hge.
    destruct (Z.ltb_spec (n + order) 0) as [Hneg|_]; [lia|].
    destruct (nth_error M (Z.to_nat (n + order))) as [r|] eqn:En.
    + exists X, M, r. split; [exact HM|]. split.
      * now rewrite Z.add_comm.
      * cbn [bind]. now rewrite Hfac.
    + apply nth_error_None in En. lia.
  - intros Hlt.
    destruct (Z.ltb_spec (n + order) 0) as [_|Hge]; [reflexivity|lia].
Qed.

Lemma weights_negative_derivative_order_witness :
  (exists (X Xinv : matrix) (r : list float),
     inv_demo X = Ok Xinv
     /\ nth_error Xinv (Z.to_nat (3 + -1)) = Some r
     /\ NDerivative._weights inv_demo (-1) 3 = Ok (map (fun v => 1 * v)%float r))
  /\ NDerivative._weights inv_demo (-4) 3 = Raise IndexError.
Proof.
  assert (Hinv : forall X : matrix,
             exists M, inv_demo X = Ok M /\ length M = length X)
    by (intros X; now exists X).
  split.
  - apply (proj1 (weights_negative_derivative_order inv_demo (-1) 3 Hinv
                    ltac:(lia) ltac:(lia) eq_refl)). lia.
  - apply (proj2 (weights_negative_derivative_order inv_demo (-4) 3 Hinv
                    ltac:(lia) ltac:(lia) eq_refl)). lia.
Defined.

(** * Calls with too few steps *)

Lemma call_starved (dea3 : bool -> matrix -> matrix -> matrix -> matrix * matrix)
  (K : klass) (self : _Derivative.t) (x : ndarray) (st : stencil) :
  stencil_of K (_Derivative.method self) = Some st ->
  _Derivative.steps self x (_Derivative.scale K self) = mk_generated [] None ->
  _Derivative.__call__ dea3 K self x = Raise IndexError.
Proof.
  intros Hst Hsteps. unfold _Derivative.__call__. rewrite Hst, Hsteps.
  reflexivity.
Qed.

Lemma range_down_negative (n : Z) : (n < 0)%Z -> range_down n = [].
Proof.
  intros Hn. unfold range_down.
  replace (Z.to_nat (n + 1)) with 0 by lia. reflexivity.
Qed.

(** X11: a generator that yields no step starves the call.  With a method
    the class has, a [StepsGenerator] with a negative [num_steps], or a
    [StepsGenerator2] with [num_steps = 0], yields nothing once its base
    step (and, for the second, its two bounds) are resolved, and the call
    then raises [IndexError] from [sequence[0]] without evaluating the
    target. *)
Theorem call_with_no_steps `{Libm}
  (dea3 : bool -> matrix -> matrix -> matrix -> matrix * matrix)
  (K : klass) (st : stencil) (f : target) (method : string)
  (full_output : bool) (scale : option float) (x : ndarray) :
  stencil_of K method = Some st ->
  (forall (g : StepsGenerator) (delta : ndarray),
     let self := _Derivative.__init__ f (StepsCallable (StepsGenerator_call g))
                   method full_output scale in
     (num_steps g < 0)%Z ->
     StepsGenerator_default_base_step g x (_Derivative.scale K self)
     = Ok delta ->
     StepsGenerator_call g x (_Derivative.scale K self) = mk_generated [] None
     /\ _Derivative.__call__ dea3 K self x = Raise IndexError)
  /\ (forall (g : StepsGenerator2) (delta : ndarray) (steps : list float),
        let self := _Derivative.__init__ f
                      (StepsCallable (StepsGenerator2_call g))
                      method full_output scale in
        num_steps2 g = 0%Z ->
        _default_base_step x (_Derivative.scale K self)
          (step_spec_of (step_min g)) = Ok delta ->
        StepsGenerator2_multipliers g (_Derivative.scale K self) = Ok steps ->
        StepsGenerator2_call g x (_Derivative.scale K self)
        = mk_generated [] None
        /\ _Derivative.__call__ dea3 K self x = Raise IndexError).
Proof.
  intros Hst. split.
  - intros g delta self Hn Hdelta.
    assert (Hgen : StepsGenerator_call g x (_Derivative.scale K self)
                   = mk_generated [] None).
    { unfold StepsGenerator_call. rewrite Hdelta. cbn [bind generate].
      unfold StepsGenerator_candidates.
      now rewrite (range_down_negative _ Hn). }
    split; [exact Hgen|]. apply (call_starved dea3 K self x st Hst Hgen).
  - intros g delta steps self Hn Hdelta Hsteps.
    assert (Hgen : StepsGenerator2_call g x (_Derivative.scale K self)
                   = mk_generated [] None).
    { unfold StepsGenerator2_call. rewrite Hdelta. cbn [bind].
      rewrite Hsteps. cbn [bind generate].
      unfold StepsGenerator2_multipliers in Hsteps.
      destruct (match step_min g with
                | Some e => Ok e
                | None => default_step_min (_Derivative.scale K self)
                end) as [smin|e]; [|discriminate].
      cbn [bind] in Hsteps.
      destruct (match step_max g with
                | Some e => Ok e
                | None => default_step_max (_Derivative.scale K self)
                end) as [smax|e]; [|discriminate].
      cbn [bind] in Hsteps. rewrite Hn in Hsteps.
      injection Hsteps as <-. reflexivity. }
    split; [exact Hgen|]. apply (call_starved dea3 K self x st Hst Hgen).
Qed.

Lemma call_with_no_steps_witness :
  _Derivative.__call__ dea3_demo Derivative.class
    (_Derivative.__init__ product_target
       (StepsCallable
          (StepsGenerator_call
             (mk_StepsGenerator (StepScalar 0.5%float) (-1) 4%float (-1)
                true)))
       "central" false None)
    (vec [1; 2]%float)
  = Raise IndexError.
Proof.
  destruct (call_with_no_steps dea3_demo Derivative.class
              Derivative._central product_target "central" false None
              (vec [1; 2]%float) eq_refl) as [Hg _].
  apply (Hg (mk_StepsGenerator (StepScalar 0.5%float) (-1) 4%float (-1) true)
            (vec [0.5; 0.5]%float)); [reflexivity|reflexivity].
Defined.

(** X12: with fewer than three steps there is no extrapolation: the result
    of the call, error estimate and index included, does not depend on
    [dea3]. *)
Theorem short_sequence_ignores_dea3
  (dea3 dea3' : bool -> matrix -> matrix -> matrix -> matrix * matrix)
  (K : klass) (self : _Derivative.t) (x : ndarray) :
  length (yielded (_Derivative.steps self x (_Derivative.scale K self))) < 3 ->
  _Derivative.__call__ dea3 K self x = _Derivative.__call__ dea3' K self x.
Proof.
  intros Hlen. unfold _Derivative.__call__.
  destruct (stencil_of K (_Derivative.method self)) as [st|]; [|reflexivity].
  destruct (consume _ _) as [results|e] eqn:Hres; [|reflexivity].
  cbn [bind].
  assert (Hr : length results < 3).
  { unfold consume in Hres.
    destruct (mapM _ _) as [rs|e] eqn:Hm; [|discriminate].
    cbn [bind] in Hres. destruct (raised _); [discriminate|].
    injection Hres as <-. now rewrite (mapM_length _ _ _ Hm). }
  unfold _Derivative._extrapolate.
  destruct (Nat.ltb_spec (length results) 3) as [_|Hge]; [reflexivity|lia].
Qed.

Lemma short_sequence_ignores_dea3_witness :
  let self :=
    _Derivative.__init__ product_target
      (StepsCallable
         (StepsGenerator_call
            (mk_StepsGenerator (StepScalar 0.5%float) 1 4%float 0 true)))
      "central" true None in
  _Derivative.__call__ dea3_demo Hessian.class self (vec [3; 5]%float)
  = _Derivative.__call__ (fun _ _ _ _ => ([], [])) Hessian.class self
      (vec [3; 5]%float).
Proof.
  intros self.
  apply (short_sequence_ignores_dea3 dea3_demo (fun _ _ _ _ => ([], []))
           Hessian.class self (vec [3; 5]%float)).
  vm_compute. lia.
Defined.

(** * The stencils of [Derivative] on a vectorized target *)

Section Elementwise.

Variables (g : float -> float) (gc : complex -> complex).

Lemma central_data (X Hd : list float) :
  zip_with PrimFloat.div
    (zip_with PrimFloat.sub (map g (zip_with PrimFloat.add X Hd))
       (map g (zip_with PrimFloat.sub X Hd)))
    (map (fun v => v * 2)%float Hd)
  = zip_with (fun xi hi => (g (xi + hi) - g (xi - hi)) / (hi * 2))%float X Hd.
Proof.
  revert Hd. induction X as [|a X IH]; intros [|b Hd]; simpl;
    try reflexivity. now rewrite IH.
Qed.

Lemma forward_data (X Hd : list float) :
  zip_with PrimFloat.div
    (zip_with PrimFloat.sub (map g (zip_with PrimFloat.add X Hd)) (map g X))
    Hd
  = zip_with (fun xi hi => (g (xi + hi) - g xi) / hi)%float X Hd.
Proof.
  revert Hd. induction X as [|a X IH]; intros [|b Hd]; simpl;
    try reflexivity. now rewrite IH.
Qed.

Lemma backward_data (X Hd : list float) :
  zip_with PrimFloat.div
    (zip_with PrimFloat.sub (map g X) (map g (zip_with PrimFloat.sub X Hd)))
    Hd
  = zip_with (fun xi hi => (g xi - g (xi - hi)) / hi)%float X Hd.
Proof.
  revert Hd. induction X as [|a X IH]; intros [|b Hd]; simpl;
    try reflexivity. now rewrite IH.
Qed.

Lemma complex_data (X Hd : list float) :
  zip_with PrimFloat.div
    (map snd
       (map gc
          (czip_with c_add (map c_of_real X)
             (map (fun e => c_mul c_j (c_of_real e)) Hd))))
    Hd
  = zip_with
      (fun xi hi =>
         snd (gc (c_add (c_of_real xi) (c_mul c_j (c_of_real hi)))) / hi)%float
      X Hd.
Proof.
  revert Hd. induction X as [|a X IH]; intros [|b Hd]; simpl;
    try reflexivity. now rewrite IH.
Qed.

End Elementwise.

(** X13: for a target that works element by element ([f(a)[k] = g(a[k])],
    and [gc] on complex arrays) and a step of the shape of [x], the four
    stencils of [Derivative] return an array of the shape of [x] whose
    element [k] depends on [x[k]] and [h[k]] only:
    [(g(x + h) - g(x - h)) / (h * 2)], [(g(x + h) - g(x)) / h],
    [(g(x) - g(x - h)) / h] and [imag(gc(x + 1j * h)) / h]. *)
Theorem Derivative_stencils_elementwise
  (g : float -> float) (gc : complex -> complex) (f : target)
  (x h : ndarray) :
  (forall a, on_real f a = Ok (nd_map g a)) ->
  (forall z, on_complex f z = Ok (mk_cndarray (cshape z) (map gc (cdata z)))) ->
  shape h = shape x ->
  Derivative._central f x h
  = Ok (mk_ndarray (shape x)
          (zip_with (fun xi hi => (g (xi + hi) - g (xi - hi)) / (hi * 2))%float
             (data x) (data h)))
  /\ Derivative._forward f x h
     = Ok (mk_ndarray (shape x)
             (zip_with (fun xi hi => (g (xi + hi) - g xi) / hi)%float
                (data x) (data h)))
  /\ Derivative._backward f x h
     = Ok (mk_ndarray (shape x)
             (zip_with (fun xi hi => (g xi - g (xi - hi)) / hi)%float
                (data x) (data h)))
  /\ Derivative._complex f x h
     = Ok (mk_ndarray (shape x)
             (zip_with
                (fun xi hi =>
                   snd (gc (c_add (c_of_real xi) (c_mul c_j (c_of_real hi))))
                   / hi)%float
                (data x) (data h))).
Proof.
  intros Hf Hfc Hs.
  unfold Derivative._central, Derivative._forward, Derivative._backward,
    Derivative._complex, nd_map2, cnd_map2, cnd_of_real, cnd_imag, nd_scale,
    nd_map.
  cbn [shape data cshape cdata bind].
  rewrite !Hf, ?Hfc. unfold nd_map.
  cbn [shape data cshape cdata bind].
  rewrite Hs, !shape_eqb_refl. cbn [shape data cshape cdata bind].
  rewrite !Hf, ?Hfc. unfold nd_map.
  cbn [shape data cshape cdata bind].
  rewrite ?shape_eqb_refl. cbn [shape data cshape cdata bind].
  rewrite ?shape_eqb_refl. cbn [shape data cshape cdata bind].
  rewrite central_data, forward_data, backward_data, complex_data.
  repeat split.
Qed.

(** The vectorized square, on real and complex arrays. *)
Definition square_target : target :=
  mk_target
    (fun a => Ok (nd_map (fun v => v * v)%float a))
    (fun z => Ok (mk_cndarray (cshape z) (map (fun c => c_mul c c) (cdata z)))).

Lemma Derivative_stencils_elementwise_witness :
  Derivative._central square_target (vec [1; 3]%float) (vec [0.5; 0.25]%float)
  = Ok (vec [2; 6]%float)
  /\ Derivative._complex square_target (vec [1; 3]%float)
       (vec [0.5; 0.25]%float)
     = Ok (vec [2; 6]%float).
Proof.
  destruct (Derivative_stencils_elementwise (fun v => v * v)%float
              (fun c => c_mul c c) square_target
              (vec [1; 3]%float) (vec [0.5; 0.25]%float)
              (fun a => eq_refl) (fun z => eq_refl) eq_refl)
    as [Hc [_ [_ Hx]]].
  split; [exact Hc|exact Hx].
Defined.

(** * The complex-step stencil of [Gradient] *)

Lemma length_cincrements (n : nat) (h : list float) :
  length (Gradient.cincrements n h) = n.
Proof. unfold Gradient.cincrements. now rewrite length_map, length_seq. Qed.

Lemma nth_cincrements (n : nat) (h : list float) (i j : nat) :
  i < n -> j < n ->
  nth j (nth i (Gradient.cincrements n h) []) (nan, nan)
  = c_mul (c_mul (c_of_real (if Nat.eqb i j then 1 else 0)%float) c_j)
      (c_of_real (nth j h nan)).
Proof.
  intros Hi Hj. unfold Gradient.cincrements.
  rewrite (nth_map_seq _ [] n i Hi).
  now rewrite (nth_map_seq _ (nan, nan) n j Hj).
Qed.

(** One partial of the complex step: the imaginary part over the step. *)
Definition imag_quotient (z : cndarray) (c : float) : ndarray :=
  nd_div_scalar (cnd_imag z) c.

Lemma imag_quotient_spec (fs : list nat) (z : cndarray) (c : float) :
  cshape z = fs -> length (cdata z) = size_of fs ->
  shape (imag_quotient z c) = fs /\ wf_ndarray (imag_quotient z c)
  /\ forall q, q < size_of fs ->
       nth q (data (imag_quotient z c)) nan
       = (snd (nth q (cdata z) (nan, nan)) / c)%float.
Proof.
  intros Hs Hl. unfold imag_quotient, nd_div_scalar, cnd_imag, nd_map,
    wf_ndarray. cbn [shape data]. rewrite !length_map, Hs.
  split; [reflexivity|]. split; [exact Hl|].
  intros q Hq. rewrite map_map.
  assert (Hlt : q < length (map (fun v : complex => snd v / c)%float (cdata z))).
  { rewrite length_map. lia. }
  rewrite (nth_indep _ nan ((fun v : complex => snd v / c)%float (nan, nan)))
    by exact Hlt.
  now rewrite (map_nth (fun v : complex => snd v / c)%float).
Qed.

(** X14: the complex-step stencil of [Gradient] and [Jacobian] evaluates
    the target at [x + ih_i], with [ih_i] row [i] of
    [np.identity(n) * 1j * epsilon], and returns the transposed stack of
    the partials [imag(f(x + ih_i)) / epsilon[i]]: for a target of value
    shape [fs] the result has shape [reversed(fs) + (n,)] and its last axis
    indexes the coordinate of [x]. *)
Theorem Gradient_complex_partials (f : target) (x h : list float)
  (fs : list nat) (FZ : nat -> cndarray) :
  let n := length x in
  1 <= n -> length h = n ->
  (forall i, i < n ->
     on_complex f
       (cvec (czip_with c_add (map c_of_real x)
                (nth i (Gradient.cincrements n h) [])))
     = Ok (FZ i)
     /\ cshape (FZ i) = fs /\ length (cdata (FZ i)) = size_of fs) ->
  (forall i j, i < n -> j < n ->
     nth j (nth i (Gradient.cincrements n h) []) (nan, nan)
     = c_mul (c_mul (c_of_real (if Nat.eqb i j then 1 else 0)%float) c_j)
         (c_of_real (nth j h nan)))
  /\ exists G,
       Gradient._complex f (vec x) (vec h) = Ok G
       /\ shape G = rev fs ++ [n]
       /\ forall J i, valid_index J (rev fs) -> i < n ->
            nth (ravel (rev fs ++ [n]) (J ++ [i])) (data G) nan
            = (snd (nth (ravel fs (rev J)) (cdata (FZ i)) (nan, nan))
               / nth i h nan)%float.
Proof.
  intros n Hn Hh HFZ. split; [intros i j; apply nth_cincrements|].
  assert (Hpart : forall i, i < n ->
            shape (imag_quotient (FZ i) (nth i h nan)) = fs
            /\ wf_ndarray (imag_quotient (FZ i) (nth i h nan))).
  { intros i Hi. destruct (HFZ i Hi) as [_ [Hs Hl]].
    destruct (imag_quotient_spec fs (FZ i) (nth i h nan) Hs Hl)
      as [? [? _]]. auto. }
  exists (stacked x fs (fun i => imag_quotient (FZ i) (nth i h nan))).
  split; [|split; [reflexivity|]].
  - unfold Gradient._complex. rewrite vectors_vec by exact Hh. cbn [bind].
    fold n. rewrite <- (length_cincrements n h) at 1.
    rewrite (mapM_enumerate _
               (fun i => imag_quotient (FZ i) (nth i h nan)) []).
    + cbn [bind]. rewrite length_cincrements.
      apply (stacked_Ok x h fs Hn Hh). exact Hpart.
    + intros i Hi. rewrite length_cincrements in Hi.
      destruct (HFZ i Hi) as [Hc _]. rewrite Hc. cbn [bind].
      rewrite getitem_nth by lia. reflexivity.
  - intros J i HJ Hi. subst n.
    rewrite (stacked_get x h fs Hn Hh _ J i Hpart HJ Hi).
    destruct (HFZ i Hi) as [_ [Hs Hl]].
    destruct (imag_quotient_spec fs (FZ i) (nth i h nan) Hs Hl)
      as [_ [_ E]].
    apply E. apply ravel_lt. rewrite <- (rev_involutive fs).
    now apply valid_index_rev.
Qed.

Lemma Gradient_complex_partials_witness :
  exists G,
    Gradient._complex two_to_three (vec [1; 2]%float) (vec [0.5; 0.25]%float)
    = Ok G
    /\ shape G = [3; 2].
Proof.
  destruct (Gradient_complex_partials two_to_three
              [1; 2]%float [0.5; 0.25]%float [3]
              (fun i => nth i
                          [mk_cndarray [3] [(1, 0.5); (2, 0); (3, 0.5)]%float;
                           mk_cndarray [3] [(1, 0); (2, 0.25); (3, 0.25)]%float]
                          (mk_cndarray [] [])))
    as [_ [G [HG [Hs _]]]].
  - simpl. lia.
  - reflexivity.
  - intros i Hi. destruct i as [|[|i]]; [repeat split..|simpl in Hi; lia].
  - exists G. split; assumption.
Defined.

(** * The centre point of the [NDerivative] stencil *)

Lemma is_nan_add_l (a b : float) :
  is_nan a = true -> is_nan (a + b)%float = true.
Proof.
  rewrite !F64.is_nan_spec, add_spec. unfold SF64add, SFadd.
  destruct (Prim2SF a); try discriminate. reflexivity.
Qed.

Lemma is_nan_add_r (a b : float) :
  is_nan b = true -> is_nan (a + b)%float = true.
Proof.
  rewrite !F64.is_nan_spec, add_spec. unfold SF64add, SFadd.
  destruct (Prim2SF b); try discriminate.
  destruct (Prim2SF a); reflexivity.
Qed.

Lemma is_nan_div_l (a b : float) :
  is_nan a = true -> is_nan (a / b)%float = true.
Proof.
  rewrite !F64.is_nan_spec, div_spec. unfold SF64div, SFdiv.
  destruct (Prim2SF a); try discriminate. reflexivity.
Qed.

(** [0 * inf] and [0 * nan] are NaN. *)
Lemma is_nan_zero_mul (v : float) :
  is_nan v || is_infinity v = true -> is_nan (0 * v)%float = true.
Proof.
  rewrite !F64.is_nan_spec, F64.is_infinity_spec, mul_spec.
  unfold SF64mul, SFmul. change (Prim2SF 0) with (S754_zero false).
  destruct (Prim2SF v); try discriminate; reflexivity.
Qed.

Lemma zip_with_poison_l (g : float -> float -> float) (u v : list float)
  (e : nat) :
  (forall a b, is_nan a = true -> is_nan (g a b) = true) ->
  is_nan (nth e u nan) = true -> is_nan (nth e (zip_with g u v) nan) = true.
Proof.
  intros Hg. revert v e.
  induction u as [|a u IH]; intros [|b v] [|e] Hn; simpl in *;
    try reflexivity; auto.
Qed.

Lemma zip_with_poison_r (g : float -> float -> float) (u v : list float)
  (e : nat) :
  (forall a b, is_nan b = true -> is_nan (g a b) = true) ->
  is_nan (nth e v nan) = true -> is_nan (nth e (zip_with g u v) nan) = true.
Proof.
  intros Hg. revert v e.
  induction u as [|a u IH]; intros [|b v] [|e] Hn; simpl in *;
    try reflexivity; auto.
Qed.

Lemma map_poison (g : float -> float) (l : list float) (e : nat) :
  (forall a, is_nan a = true -> is_nan (g a) = true) ->
  is_nan (nth e l nan) = true -> is_nan (nth e (map g l) nan) = true.
Proof.
  intros Hg. revert e.
  induction l as [|a l IH]; intros [|e] Hn; simpl in *; try reflexivity; auto.
Qed.

Lemma map_zero_mul_poison (l : list float) (e : nat) :
  is_nan (nth e l nan) || is_infinity (nth e l nan) = true ->
  is_nan (nth e (map (PrimFloat.mul 0) l) nan) = true.
Proof.
  revert e. induction l as [|a l IH]; intros [|e] Hn; simpl in *;
    try reflexivity; auto using is_nan_zero_mul.
Qed.

Lemma foldM_app {A S : Type} (body : S -> A -> result S) (l1 l2 : list A)
  (s : S) :
  foldM body (l1 ++ l2) s = (s' <- foldM body l1 s ;; foldM body l2 s').
Proof.
  revert s. induction l1 as [|a l1 IH]; intros s; simpl; [reflexivity|].
  destruct (body s a); simpl; [apply IH|reflexivity].
Qed.

Lemma nd_map2_data (g : float -> float -> float) (a b s : ndarray) :
  nd_map2 g a b = Ok s -> data s = zip_with g (data a) (data b).
Proof.
  unfold nd_map2. destruct (shape_eqb _ _); [|discriminate].
  intros E. now injection E as <-.
Qed.

Section Centre.

Variables (self : NDerivative.t) (f : target) (x0 dx : ndarray) (e : nat).

Let ho := Z.shiftr (NDerivative.order self) 1.

(** The body of the loop [for k, w in enumerate(self.weights)]. *)
Let body (val : option ndarray) (kw : nat * float) : result (option ndarray) :=
  let '(k, w) := kw in
  xk <- nd_map2 PrimFloat.add x0
          (nd_map (fun d => float_of_Z (Z.of_nat k - ho) * d)%float dx) ;;
  fk <- on_real f xk ;;
  let term := nd_map (PrimFloat.mul w) fk in
  match val with
  | None => Ok (Some (nd_map (PrimFloat.add 0) term))
  | Some v => s <- nd_map2 PrimFloat.add v term ;; Ok (Some s)
  end.

Let poisoned (val : option ndarray) : Prop :=
  exists v, val = Some v /\ is_nan (nth e (data v) nan) = true.

Lemma poison_kept (val val' : option ndarray) (kw : nat * float) :
  poisoned val -> body val kw = Ok val' -> poisoned val'.
Proof.
  intros [v [-> Hv]]. destruct kw as [k w]. unfold body.
  destruct (nd_map2 _ _ _) as [xk|e']; [|discriminate]. cbn [bind].
  destruct (on_real f xk) as [fk|e']; [|discriminate]. cbn [bind].
  destruct (nd_map2 PrimFloat.add v _) as [s|e'] eqn:Hs; [|discriminate].
  cbn [bind]. intros E. injection E as <-. exists s. split; [reflexivity|].
  rewrite (nd_map2_data _ _ _ _ Hs).
  apply zip_with_poison_l; [apply is_nan_add_l|exact Hv].
Qed.

Lemma poison_kept_loop (l : list (nat * float)) (val val' : option ndarray) :
  poisoned val -> foldM body l val = Ok val' -> poisoned val'.
Proof.
  revert val. induction l as [|kw l IH]; intros val Hp Hf; simpl in Hf.
  - now injection Hf as <-.
  - destruct (body val kw) as [val1|e'] eqn:Hb; [|discriminate].
    cbn [bind] in Hf. apply (IH val1); [|exact Hf].
    now apply (poison_kept val val1 kw).
Qed.

Lemma poison_starts (val val' : option ndarray) (m : nat) (xm fm : ndarray) :
  Z.of_nat m = ho ->
  nd_map2 PrimFloat.add x0 (nd_map (fun d => 0 * d)%float dx) = Ok xm ->
  on_real f xm = Ok fm ->
  is_nan (nth e (data fm) nan) || is_infinity (nth e (data fm) nan) = true ->
  body val (m, 0%float) = Ok val' -> poisoned val'.
Proof.
  intros Hm Hxm Hfm Hbad. unfold body. rewrite Hm, Z.sub_diag.
  change (float_of_Z 0) with 0%float. rewrite Hxm. cbn [bind].
  rewrite Hfm. cbn [bind].
  assert (Hterm : is_nan (nth e (data (nd_map (PrimFloat.mul 0) fm)) nan)
                  = true).
  { unfold nd_map. cbn [data]. now apply map_zero_mul_poison. }
  destruct val as [v|].
  - destruct (nd_map2 PrimFloat.add v _) as [s|e'] eqn:Hs; [|discriminate].
    cbn [bind]. intros E. injection E as <-. exists s.
    split; [reflexivity|]. rewrite (nd_map2_data _ _ _ _ Hs).
    apply zip_with_poison_r; [apply is_nan_add_r|exact Hterm].
  - intros E. injection E as <-. eexists. split; [reflexivity|].
    unfold nd_map at 1. cbn [data].
    apply map_poison; [apply is_nan_add_r|exact Hterm].
Qed.

End Centre.

(** X15: [NDerivative._central] evaluates the target at every node, the
    centre [x0 + 0 * dx] included, and adds [w * f(...)] to the sum also
    when the weight is zero, as in the tabulated first-derivative
    stencils.  If the value at the centre is infinite or NaN in some
    element, that element of the result is NaN whatever the other values
    are. *)
Theorem NDerivative_central_centre_poison (self : NDerivative.t) (f : target)
  (x0 dx r xm fm : ndarray) (e : nat) :
  let m := Z.to_nat (Z.shiftr (NDerivative.order self) 1) in
  (0 <= NDerivative.order self)%Z ->
  m < length (NDerivative.weights self) ->
  nth m (NDerivative.weights self) nan = 0%float ->
  NDerivative._central self f x0 dx = Ok r ->
  nd_map2 PrimFloat.add x0 (nd_map (fun d => 0 * d)%float dx) = Ok xm ->
  on_real f xm = Ok fm ->
  is_nan (nth e (data fm) nan) || is_infinity (nth e (data fm) nan) = true ->
  is_nan (nth e (data r) nan) = true.
Proof.
  intros m Ho Hm Hw Hr Hxm Hfm Hbad.
  set (ho := Z.shiftr (NDerivative.order self) 1) in *.
  assert (Hho : (0 <= ho)%Z) by (unfold ho; now apply Z.shiftr_nonneg).
  set (w := NDerivative.weights self) in *.
  assert (Hsplit : exists l1 l2,
             combine (seq 0 (length w)) w = l1 ++ (m, 0%float) :: l2).
  { exists (firstn m (combine (seq 0 (length w)) w)),
      (skipn (S m) (combine (seq 0 (length w)) w)).
    symmetry. apply firstn_skipn_middle.
    rewrite (nth_error_nth' _ (0, nan))
      by (rewrite length_combine, length_seq; lia).
    rewrite combine_nth by (now rewrite length_seq).
    rewrite seq_nth by exact Hm. now rewrite Hw. }
  destruct Hsplit as [l1 [l2 Hsplit]].
  unfold NDerivative._central in Hr. fold ho in Hr. fold w in Hr.
  match type of Hr with
  | context [foldM ?b _ None] => set (body := b) in Hr
  end.
  rewrite Hsplit, foldM_app in Hr.
  destruct (foldM body l1 None) as [val1|e'] eqn:H1; [|discriminate].
  cbn [bind] in Hr.
  change (foldM body ((m, 0%float) :: l2) val1)
    with (s' <- body val1 (m, 0%float) ;; foldM body l2 s') in Hr.
  destruct (body val1 (m, 0%float)) as [val2|e'] eqn:H2; [|discriminate].
  cbn [bind] in Hr.
  destruct (foldM body l2 val2) as [val3|e'] eqn:H3; [|discriminate].
  cbn [bind] in Hr.
  assert (Hmho : Z.of_nat m = ho) by (unfold m; fold ho; lia).
  assert (Hp2 : exists v, val2 = Some v
                          /\ is_nan (nth e (data v) nan) = true)
    by exact (poison_starts self f x0 dx e val1 val2 m xm fm Hmho Hxm Hfm
                Hbad H2).
  assert (Hp3 : exists v, val3 = Some v
                          /\ is_nan (nth e (data v) nan) = true)
    by exact (poison_kept_loop self f x0 dx e l2 val2 val3 Hp2 H3).
  destruct Hp3 as [v [-> Hv]].
  rewrite (nd_map2_data _ _ _ _ Hr).
  apply zip_with_poison_l; [apply is_nan_div_l|exact Hv].
Qed.

(** The vectorized reciprocal [f(x) = 1 / x]. *)
Definition reciprocal_target : target :=
  mk_target
    (fun a => Ok (nd_map (fun v => 1 / v)%float a))
    (fun _ => Raise (TargetError 0)).

Lemma NDerivative_central_centre_poison_witness :
  exists self r,
    NDerivative.__init__ inv_demo reciprocal_target
      (StepsValue (StepScalar 0.5%float)) "central" false None 1 3
    = Ok self
    /\ nth 1 (NDerivative.weights self) nan = 0%float
    /\ NDerivative._central self reciprocal_target (vec [0]%float)
         (vec [0.5]%float) = Ok r
    /\ is_nan (nth 0 (data r) nan) = true.
Proof.
  set (self := NDerivative.mk
                 (_Derivative.mk 1 reciprocal_target None
                    (_Derivative._make_callable
                       (StepsValue (StepScalar 0.5%float)))
                    "central" false)
                 3 [-0.5; 0; 0.5]%float).
  assert (Hr : exists r,
             NDerivative._central self reciprocal_target (vec [0]%float)
               (vec [0.5]%float) = Ok r)
    by (vm_compute; eexists; reflexivity).
  destruct Hr as [r Hr].
  exists self, r. split; [reflexivity|]. split; [reflexivity|].
  split; [exact Hr|].
  apply (NDerivative_central_centre_poison self reciprocal_target
           (vec [0]%float) (vec [0.5]%float) r (vec [0]%float)
           (vec [infinity]) 0);
    try reflexivity; try exact Hr; simpl; lia.
Defined.

(** * A [Derivative] with every default *)

Lemma zip_with_map_r (F : float -> float -> float) (hf : float -> float)
  (l : list float) :
  zip_with F l (map hf l) = map (fun a => F a (hf a)) l.
Proof. induction l as [|a l IH]; simpl; [reflexivity|now rewrite IH]. Qed.

Lemma extrapolate_single
  (dea3 : bool -> matrix -> matrix -> matrix -> matrix * matrix)
  (r : ndarray) :
  _Derivative._extrapolate dea3 [r]
  = Ok (nd_map (fun v => 0.5 * (v + v))%float r,
        mk_info (full_like r nan) (ScalarIndex 0)).
Proof.
  unfold _Derivative._extrapolate. cbn [length Nat.ltb Nat.leb].
  unfold nd_map2. rewrite shape_eqb_refl. cbn [bind last fst snd].
  unfold nd_map at 1. cbn [shape data].
  rewrite map_zip_with, zip_with_diag. reflexivity.
Qed.

(** X16: [Derivative(f)(x)] with the defaults ([steps=None],
    [method='complex'], [scale=None], [full_output=False]) on a target that
    works element by element ([gc] on complex arrays): the scale is 1, the
    step of element [k] is [h = (10 * EPS) ** (1. / 1) *
    max(log1p(|x[k]|), 0.1)], the one raw estimate is
    [d = imag(gc(x[k] + 1j * h)) / h], and the call returns
    [0.5 * (d + d)] in the shape of [x]. *)
Theorem Derivative_default_call `{Libm}
  (dea3 : bool -> matrix -> matrix -> matrix -> matrix * matrix)
  (gc : complex -> complex) (f : target) (x : ndarray) (c : float) :
  (forall z, on_complex f z = Ok (mk_cndarray (cshape z) (map gc (cdata z)))) ->
  py_pow (10 * EPS)%float (1 / 1)%float = Ok c ->
  let self := _Derivative.__init__ f (StepsValue StepNone) "complex" false
                None in
  let h := fun xk => (c * np_maximum (np_log1p (abs xk)) one_tenth)%float in
  let d := fun xk =>
             (snd (gc (c_add (c_of_real xk) (c_mul c_j (c_of_real (h xk)))))
              / h xk)%float in
  _Derivative.scale Derivative.class self = 1%float
  /\ _Derivative.__call__ dea3 Derivative.class self x
     = Ok (mk_ndarray (shape x)
             (map (fun xk => 0.5 * (d xk + d xk))%float (data x)),
           None).
Proof.
  intros Hfc Hc self h d. split; [reflexivity|].
  unfold _Derivative.__call__. cbn [_Derivative.method self
    _Derivative.__init__ _Derivative.steps _Derivative.f
    _Derivative.full_output _Derivative._make_callable].
  change (stencil_of Derivative.class "complex")
    with (Some Derivative._complex).
  cbv beta iota. rewrite consume_single.
  assert (Hscale : _Derivative.scale Derivative.class self = 1%float)
    by reflexivity.
  rewrite Hscale.
  rewrite (default_base_step_none x 1%float c eq_refl Hc). cbn [bind].
  fold h.
  unfold Derivative._complex, cnd_map2, cnd_of_real, cnd_imag, nd_map2.
  cbn [shape data cshape cdata bind]. rewrite shape_eqb_refl. cbn [bind].
  rewrite Hfc. cbn [shape data cshape cdata bind].
  rewrite shape_eqb_refl. cbn [bind].
  rewrite extrapolate_single. cbn [bind fst snd].
  unfold nd_map. cbn [shape data].
  rewrite complex_data, zip_with_map_r, map_map. reflexivity.
Qed.

Lemma Derivative_default_call_witness :
  exists c,
    py_pow (10 * EPS)%float (1 / 1)%float = Ok c
    /\ _Derivative.scale Derivative.class
         (_Derivative.__init__ square_target (StepsValue StepNone) "complex"
            false None)
       = 1%float.
Proof.
  assert (Hc : py_pow (10 * EPS)%float (1 / 1)%float = Ok (10 * EPS)%float)
    by reflexivity.
  exists (10 * EPS)%float. split; [exact Hc|].
  apply (Derivative_default_call dea3_demo (fun c => c_mul c c) square_target
           (vec [0]%float) (10 * EPS)%float (fun z => eq_refl) Hc).
Defined.

(** * A zero in the base step *)

Lemma eqb_zero_cases (z : float) :
  (z =? 0)%float = true -> z = 0%float \/ z = (-0)%float.
Proof.
  rewrite FloatAxioms.eqb_spec. change (Prim2SF 0) with (S754_zero false).
  destruct (Prim2SF z) as [s|s| |s m e] eqn:E; intros Hz;
    try discriminate; try (destruct s; discriminate).
  destruct s; [right|left]; apply Prim2SF_inj; rewrite E; reflexivity.
Qed.

Lemma zero_mul_cases (z p : float) :
  (z =? 0)%float = true ->
  (z * p = 0 \/ z * p = -0 \/ z * p = nan)%float.
Proof.
  intros Hz.
  assert (Hm : (exists s, Prim2SF (z * p)%float = S754_zero s)
               \/ Prim2SF (z * p)%float = S754_nan).
  { rewrite mul_spec.
    destruct (eqb_zero_cases z Hz) as [-> | ->];
      [change (Prim2SF 0) with (S754_zero false)
      |change (Prim2SF (-0)) with (S754_zero true)];
      unfold SF64mul, SFmul; destruct (Prim2SF p);
      (left; eexists; reflexivity) || (right; reflexivity). }
  destruct Hm as [[s Hm]|Hm].
  - destruct s; [right; left|left]; apply Prim2SF_inj; rewrite Hm;
      reflexivity.
  - right; right. apply Prim2SF_inj. rewrite Hm. reflexivity.
Qed.

Lemma zero_scaled_degenerate (z p : float) :
  (z =? 0)%float = true ->
  (0 <? abs (z * p))%float = false
  /\ (0 <? abs (_make_exact_scalar (z * p)))%float = false.
Proof.
  intros Hz. unfold _make_exact_scalar.
  destruct (zero_mul_cases z p Hz) as [-> | [-> | ->]]; split; reflexivity.
Qed.

Lemma forallb_false_In {A : Type} (p : A -> bool) (l : list A) (a : A) :
  In a l -> p a = false -> forallb p l = false.
Proof.
  intros Hin Hp. destruct (forallb p l) eqn:E; [|reflexivity].
  rewrite forallb_forall in E. rewrite (E a Hin) in Hp. discriminate.
Qed.

Lemma filter_none {A : Type} (p : A -> bool) (l : list A) :
  (forall a, In a l -> p a = false) -> filter p l = [].
Proof.
  induction l as [|a l IH]; intros Hp; simpl; [reflexivity|].
  rewrite (Hp a (or_introl eq_refl)). apply IH. intros b Hb. apply Hp.
  now right.
Qed.

Lemma oks_before_raise_In {A : Type} (F : A -> result ndarray) (l : list A)
  (h : ndarray) :
  In h (oks_before_raise (map F l)) -> exists a, In a l /\ F a = Ok h.
Proof.
  induction l as [|a l IH]; simpl; [intros []|].
  destruct (F a) as [h'|e] eqn:E; [|intros []].
  intros [<-|Hin].
  - exists a. split; [now left|exact E].
  - destruct (IH Hin) as [b [Hb Hfb]]. exists b. split; [now right|exact Hfb].
Qed.

(** X17: if the resolved base step has a coordinate that is zero, every
    candidate of either generator is zero or NaN there (also after
    [_make_exact]), fails the test [(np.abs(h) > 0).all()], and the
    generator yields no step at all. *)
Theorem zero_base_step_starves `{Libm}
  (x : ndarray) (scale : float) (delta : ndarray) (z : float) :
  In z (data delta) -> (z =? 0)%float = true ->
  (forall g : StepsGenerator,
     StepsGenerator_default_base_step g x scale = Ok delta ->
     yielded (StepsGenerator_call g x scale) = [])
  /\ (forall g : StepsGenerator2,
        _default_base_step x scale (step_spec_of (step_min g)) = Ok delta ->
        yielded (StepsGenerator2_call g x scale) = []).
Proof.
  intros Hin Hz. split.
  - intros g Hdelta. unfold StepsGenerator_call. rewrite Hdelta.
    cbn [bind generate]. rewrite yield_nonzero_filter. apply filter_none.
    intros h Hh. unfold StepsGenerator_candidates in Hh.
    apply oks_before_raise_In in Hh. destruct Hh as [i [_ Hi]].
    destruct (py_pow _ _) as [p|e]; [|discriminate]. cbn [bind] in Hi.
    injection Hi as <-. unfold all_positive_abs, nd_scale, nd_map.
    cbn [data]. apply (forallb_false_In _ _ (z * p)%float).
    + apply in_map_iff. now exists z.
    + apply (zero_scaled_degenerate z p Hz).
  - intros g Hdelta. unfold StepsGenerator2_call. rewrite Hdelta.
    cbn [bind].
    destruct (StepsGenerator2_multipliers g scale) as [steps|e];
      [|reflexivity].
    cbn [bind generate]. rewrite yield_nonzero_filter. apply filter_none.
    intros h Hh. apply oks_before_raise_In in Hh.
    destruct Hh as [p [_ Hp]]. injection Hp as <-.
    unfold all_positive_abs, _make_exact, nd_scale, nd_map. cbn [data].
    apply (forallb_false_In _ _ (_make_exact_scalar (z * p))).
    + rewrite map_map. apply in_map_iff. now exists z.
    + apply (zero_scaled_degenerate z p Hz).
Qed.

Lemma zero_base_step_starves_witness :
  yielded
    (StepsGenerator_call
       (mk_StepsGenerator (StepArray (vec [0.5; 0]%float)) 10 4%float (-1)
          false)
       (vec [1; 2]%float) 1.5%float)
  = [].
Proof.
  destruct (zero_base_step_starves (vec [1; 2]%float) 1.5%float
              (vec [0.5; 0]%float) 0%float
              ltac:(simpl; tauto) eq_refl) as [Hg _].
  apply Hg. reflexivity.
Defined.

(** * Methods a class does not have *)

(** X18: the method is looked up at call time.  [NDerivative] defines the
    central stencil only: built with valid weights and the method
    ['forward'], ['backward'], ['complex'] or ['central2'], the object is
    constructed without error and every call raises [AttributeError]
    before a step is generated or the target evaluated; so does
    ['central2'] with [Derivative], [Gradient] and [Jacobian], which only
    [Hessian] defines. *)
Theorem unsupported_method_raises_at_call `{Libm}
  (linalg_inv : matrix -> result matrix)
  (dea3 : bool -> matrix -> matrix -> matrix -> matrix * matrix)
  (f : target) (steps : steps_t) (m : string) (full_output : bool)
  (scale : option float) (n order : Z) (w : list float) (x : ndarray) :
  NDerivative._weights linalg_inv n order = Ok w ->
  In m ["forward"; "backward"; "complex"; "central2"]%string ->
  (exists self,
     NDerivative.__init__ linalg_inv f steps m full_output scale n order
     = Ok self
     /\ _Derivative.__call__ dea3 (NDerivative.class self)
          (NDerivative.base self) x
        = Raise (AttributeError ("_" ++ m)))
  /\ (let self := _Derivative.__init__ f steps "central2" full_output scale in
      _Derivative.__call__ dea3 Derivative.class self x
      = Raise (AttributeError "_central2")
      /\ _Derivative.__call__ dea3 Gradient.class self x
         = Raise (AttributeError "_central2")
      /\ _Derivative.__call__ dea3 Jacobian.class self x
         = Raise (AttributeError "_central2")
      /\ exists st, stencil_of Hessian.class "central2" = Some st).
Proof.
  intros Hw Hm. split.
  - unfold NDerivative.__init__. rewrite Hw. cbn [bind].
    eexists. split; [reflexivity|].
    unfold _Derivative.__call__.
    cbn [NDerivative.base _Derivative.method _Derivative.__init__].
    repeat (destruct Hm as [<- | Hm]; [reflexivity|]). destruct Hm.
  - intros self. repeat split. now eexists.
Qed.

Lemma unsupported_method_raises_at_call_witness :
  exists self,
    NDerivative.__init__ inv_demo reciprocal_target
      (StepsValue (StepScalar 0.5%float)) "forward" false None 1 3
    = Ok self
    /\ _Derivative.__call__ dea3_demo (NDerivative.class self)
         (NDerivative.base self) (vec [1]%float)
       = Raise (AttributeError "_forward").
Proof.
  apply (unsupported_method_raises_at_call inv_demo dea3_demo
           reciprocal_target (StepsValue (StepScalar 0.5%float)) "forward"
           false None 1 3 [-0.5; 0; 0.5]%float (vec [1]%float) eq_refl).
  simpl. tauto.
Defined.

(** * The shape of the steps *)

Lemma default_base_step_shape `{Libm} (x : ndarray) (scale : float)
  (s : step_spec) (h : ndarray) :
  _default_base_step x scale s = Ok h -> shape h = shape x.
Proof.
  unfold _default_base_step. destruct s as [|e|a].
  - destruct (scale =? 0)%float; [discriminate|].
    destruct (py_pow _ _) as [c|e]; [|discriminate]. cbn [bind].
    intros E. now injection E as <-.
  - intros E. now injection E as <-.
  - destruct (shape_eqb (shape a) (shape x)) eqn:Hs; [|discriminate].
    intros E. injection E as <-. now apply shape_eqb_eq.
Qed.

(** X19: every step handed to a stencil has the shape of the evaluation
    point: the steps yielded by [StepsGenerator], by [StepsGenerator2] and
    by the generator made from a plain [steps] value ([None], a scalar or
    an array) all have the shape of [x]. *)
Theorem yielded_steps_have_shape_of_x `{Libm}
  (x : ndarray) (scale : float) (h : ndarray) :
  (forall g : StepsGenerator,
     In h (yielded (StepsGenerator_call g x scale)) -> shape h = shape x)
  /\ (forall g : StepsGenerator2,
        In h (yielded (StepsGenerator2_call g x scale)) -> shape h = shape x)
  /\ (forall s : step_spec,
        In h (yielded (_Derivative._make_callable (StepsValue s) x scale)) ->
        shape h = shape x).
Proof.
  split; [|split].
  - intros g. unfold StepsGenerator_call, StepsGenerator_default_base_step.
    destruct (_default_base_step x scale (base_step g)) as [d0|e] eqn:Hd;
      [|intros []].
    pose proof (default_base_step_shape x scale _ d0 Hd) as Hs.
    cbn [bind].
    assert (Hdelta : forall delta, shape delta = shape x ->
              In h (yielded (yield_nonzero
                               (StepsGenerator_candidates g delta))) ->
              shape h = shape x).
    { intros delta Hsd. rewrite yield_nonzero_filter. intros Hin.
      apply filter_In in Hin. destruct Hin as [Hin _].
      apply oks_before_raise_In in Hin. destruct Hin as [i [_ Hi]].
      destruct (py_pow _ _) as [p|e]; [|discriminate]. cbn [bind] in Hi.
      injection Hi as <-. exact Hsd. }
    destruct (use_exact_steps g); cbn [bind generate]; apply Hdelta;
      exact Hs.
  - intros g. unfold StepsGenerator2_call.
    destruct (_default_base_step x scale (step_spec_of (step_min g)))
      as [delta|e] eqn:Hd; [|intros []].
    pose proof (default_base_step_shape x scale _ delta Hd) as Hs.
    cbn [bind].
    destruct (StepsGenerator2_multipliers g scale) as [steps|e];
      [|intros []].
    cbn [bind generate]. rewrite yield_nonzero_filter. intros Hin.
    apply filter_In in Hin. destruct Hin as [Hin _].
    apply oks_before_raise_In in Hin. destruct Hin as [p [_ Hp]].
    injection Hp as <-. exact Hs.
  - intros s. unfold _Derivative._make_callable.
    destruct (_default_base_step x scale s) as [h0|e] eqn:Hd; [|intros []].
    cbn [bind generate yielded]. intros [<-|[]].
    apply (default_base_step_shape x scale s h0 Hd).
Qed.

(** * The error estimate of the Hessian *)

Lemma full_like_symmetric (n : nat) (a : ndarray) (v : float) :
  symmetric_nd n a -> symmetric_nd n (full_like a v).
Proof.
  intros [Hs [Hl _]]. unfold symmetric_nd, full_like, nd_map.
  cbn [shape data]. split; [exact Hs|]. split; [now rewrite length_map|].
  intros i j Hi Hj.
  pose proof (flat_index_lt n i j Hi Hj).
  pose proof (flat_index_lt n j i Hj Hi).
  rewrite !(nth_indep _ nan ((fun _ : float => v) nan))
    by (rewrite length_map; lia).
  now rewrite !(map_nth (fun _ : float => v)).
Qed.

Lemma extrapolate_error_symmetric
  (dea3 : bool -> matrix -> matrix -> matrix -> matrix * matrix)
  (n : nat) (sequence : list ndarray) (d : ndarray) (inf : info) :
  dea3_elementwise dea3 ->
  Forall (symmetric_nd n) sequence ->
  _Derivative._extrapolate dea3 sequence = Ok (d, inf) ->
  symmetric_nd n (error_estimate inf).
Proof.
  intros Hdea3 Hseq. unfold _Derivative._extrapolate.
  destruct (Nat.ltb_spec (length sequence) 3) as [Hlt|Hge].
  - destruct sequence as [|first rest]; [discriminate|].
    destruct (nd_map2 _ _ _) as [s|e] eqn:Hs; [|discriminate]. cbn [bind].
    intros Hr. injection Hr as _ <-. cbn [error_estimate].
    inversion Hseq as [|? ? Hfirst Hrest]; subst.
    now apply full_like_symmetric.
  - destruct (vstack _) as [res|e] eqn:Hv; [|discriminate]. cbn [bind].
    apply vstack_inv in Hv. subst res.
    destruct (_Derivative.extrapolation_stages dea3 _) as [der errors]
      eqn:Hst.
    destruct (_Derivative._get_arg_min errors) as [ix|e] eqn:Hix;
      [|discriminate]. cbn [bind].
    destruct (take_flat errors ix) as [err_flat|e] eqn:Htf; [|discriminate].
    cbn [bind].
    destruct (reshape err_flat _) as [err|e] eqn:He; [|discriminate].
    cbn [bind].
    destruct (take_flat der ix) as [der_flat|e]; [|discriminate].
    cbn [bind].
    destruct (reshape der_flat _) as [d'|e]; [|discriminate].
    cbn [bind]. intros Hr. injection Hr as _ <-. cbn [error_estimate].
    apply reshape_inv in He. destruct He as [-> Hlen].
    assert (Hshape : shape (hd (mk_ndarray [] []) sequence) = [n; n]).
    { destruct sequence as [|a0 rest]; [simpl in Hge; lia|].
      inversion Hseq as [|? ? [Ha0 _] _]. exact Ha0. }
    rewrite Hshape in *. rewrite size_of_square in Hlen.
    unfold symmetric_nd. cbn [shape data].
    split; [reflexivity|]. split; [exact Hlen|].
    intros i j Hi Hj.
    pose proof (flat_index_lt n i j Hi Hj) as Hp.
    pose proof (flat_index_lt n j i Hj Hi) as Hq.
    destruct (extrapolation_stages_columns dea3 Hdea3 (length sequence)
                (n * n) _ der errors (i * n + j) (j * n + i)
                (symmetric_nd_rows n sequence Hseq) Hge Hp Hq
                (symmetric_nd_columns n sequence i j Hseq Hi Hj) Hst)
      as [R' [Hder [Herr [Hcd Hce]]]].
    destruct (get_arg_min_inv errors ix Hix) as [Hne [Hlix Hsel]].
    assert (HR' : 1 <= R').
    { destruct Herr as [HR _]. destruct errors; [congruence|].
      simpl in HR. lia. }
    rewrite (rectangular_ncols R' (n * n) errors Herr HR') in *.
    assert (Hget : forall p, p < n * n ->
              nth p err_flat nan
              = nth (upper_median (tied_rows errors p)) (column errors p)
                  nan).
    { intros p Hlt. pose proof (mapM_nth _ _ _ 0 nan p Htf) as Hk.
      rewrite Hlix in Hk. specialize (Hk Hlt).
      destruct (Hsel p Hlt) as [Hin Hnth]. rewrite Hnth in Hk.
      apply tied_rows_bound in Hin.
      assert (Hsel_lt : upper_median (tied_rows errors p) < R').
      { destruct Herr as [HR _]. lia. }
      rewrite (nth_error_concat R' (n * n) errors _ p Herr Hsel_lt Hlt)
        in Hk.
      injection Hk as Hk'. rewrite <- Hk'.
      symmetry. apply nth_column. destruct Herr as [HR _]. lia. }
    rewrite (Hget _ Hp), (Hget _ Hq).
    now rewrite (tied_rows_column errors _ _ Hce), Hce.
Qed.

(** X20: under [full_output] the error estimate that [Hessian] returns is
    symmetric as well: it has the shape [(n, n)] and its cells [(i, j)]
    and [(j, i)] hold the same value, all NaN when there was no
    extrapolation.  As for the Hessian itself, [dea3] is assumed to work
    element by element. *)
Theorem Hessian_error_estimate_symmetric
  (dea3 : bool -> matrix -> matrix -> matrix -> matrix * matrix)
  (self : _Derivative.t) (x H : ndarray) (inf : info) :
  dea3_elementwise dea3 ->
  _Derivative.__call__ dea3 Hessian.class self x = Ok (H, Some inf) ->
  let n := length (data x) in
  let err := error_estimate inf in
  shape err = [n; n]
  /\ length (data err) = n * n
  /\ forall i j, i < n -> j < n ->
       nth (i * n + j) (data err) nan = nth (j * n + i) (data err) nan.
Proof.
  intros Hdea3. unfold _Derivative.__call__.
  destruct (stencil_of Hessian.class (_Derivative.method self))
    as [derivative|] eqn:Hst; [|discriminate].
  destruct (consume _ _) as [results|e] eqn:Hres; [|discriminate].
  cbn [bind].
  destruct (_Derivative._extrapolate dea3 results) as [[d i]|e] eqn:Hex;
    [|discriminate].
  cbn [bind fst snd].
  destruct (_Derivative.full_output self); [|discriminate].
  intros Hr. injection Hr as _ <-.
  apply (extrapolate_error_symmetric dea3 (length (data x)) results d i
           Hdea3); [|exact Hex].
  unfold consume in Hres.
  destruct (mapM _ _) as [rs|e] eqn:Hm; [|discriminate]. cbn [bind] in Hres.
  destruct (raised _); [discriminate|]. injection Hres as <-.
  apply (mapM_Forall _ _ _ _ (fun h R => Hessian_stencil_symmetric
           (_Derivative.method self) derivative (_Derivative.f self) x h R Hst)
           Hm).
Qed.

Lemma Hessian_error_estimate_symmetric_witness :
  let self :=
    _Derivative.__init__ quadratic_target
      (StepsCallable
         (StepsGenerator_call
            (mk_StepsGenerator (StepScalar 0.25%float) 3 2%float (-1) true)))
      "forward" true None in
  exists H inf,
    _Derivative.__call__ dea3_demo Hessian.class self (vec [1; 2]%float)
    = Ok (H, Some inf)
    /\ data (error_estimate inf) = [0; 0.375; 0.375; 0]%float
    /\ nth 1 (data (error_estimate inf)) nan
       = nth 2 (data (error_estimate inf)) nan.
Proof.
  intros self.
  exists (mk_ndarray [2; 2] [4; 2.25; 2.25; 2]%float),
    (mk_info (mk_ndarray [2; 2] [0; 0.375; 0.375; 0]%float)
       (ArrayIndex [4; 5; 6; 7])).
  assert (Hcall : _Derivative.__call__ dea3_demo Hessian.class self
                    (vec [1; 2]%float)
                  = Ok (mk_ndarray [2; 2] [4; 2.25; 2.25; 2]%float,
                        Some (mk_info
                                (mk_ndarray [2; 2] [0; 0.375; 0.375; 0]%float)
                                (ArrayIndex [4; 5; 6; 7]))))
    by (vm_compute; reflexivity).
  split; [exact Hcall|]. split; [reflexivity|].
  destruct (Hessian_error_estimate_symmetric dea3_demo self
              (vec [1; 2]%float) _ _ dea3_demo_elementwise Hcall)
    as [_ [_ Hsym]].
  apply (Hsym 0 1); simpl; lia.
Defined.
